(** * SQL lineage parser (src/sql-parser.js): a shallow embedding

    The parser of the repository is a JavaScript class, [SQLParser], whose
    methods scan the query text with regular expressions and accumulate
    tables, columns and relationships in the fields of the instance.

    The definitions come first:
    - [JS]: the part of the JavaScript string and RegExp library the parser
      calls (strings as sequences of UTF-16 code units, a backtracking
      matcher with the priorities of ECMAScript, [replace], [match], [exec],
      [split], [trim]) and an insertion-ordered [Map];
    - the data model ([Table], [Column], [Relationship], [Graph]), the
      patterns and the methods of [SQLParser], as computations on the state
      of the instance that return, throw or do not return;
    - the examples of the specification and the notions its claims use;
    - measures on patterns, what the state of a parser satisfies, the
      effects of the passes, and the pure part of the renderer
      (src/unnamed/part_000): [prepareGraphData], [getTableGroup] and
      [getNodeLabel], with the sample graph of [generateSampleData].

    The properties follow: facts about the matcher, the methods that always
    return, the claims of the specification, and then what every parsed
    graph satisfies, what each pass can and cannot register, the shape of a
    cleaned query and the drawing of a parsed graph. *)

From Stdlib Require Import List NArith ZArith Bool Arith Lia String Ascii.
Import ListNotations.

Set Implicit Arguments.

(* ================================================================= *)
(** ** The JavaScript library used by the parser *)

Module JS.

(** A string is a sequence of UTF-16 code units. *)
Definition char := N.

Definition str := list char.

Definition lit (s : string) : str :=
  List.map N_of_ascii (list_ascii_of_string s).

Definition chr (s : string) : char :=
  match lit s with
  | c :: _ => c
  | [] => 0%N
  end.

Fixpoint str_eqb (a b : str) : bool :=
  match a, b with
  | [], [] => true
  | x :: a', y :: b' => N.eqb x y && str_eqb a' b'
  | _, _ => false
  end.

Definition isEmpty (s : str) : bool :=
  match s with [] => true | _ => false end.

(** LineTerminator: LF, CR, LS, PS. *)
Definition isLineTerminator (c : char) : bool :=
  existsb (N.eqb c) [10; 13; 8232; 8233]%N.

(** WhiteSpace: TAB, VT, FF, SP, NBSP, ZWNBSP and the space separators. *)
Definition isWhiteSpace (c : char) : bool :=
  existsb (N.eqb c) [9; 11; 12; 32; 160; 5760; 8239; 8287; 12288; 65279]%N
  || ((8192 <=? c)%N && (c <=? 8202)%N).

(** What [\s] matches and what [trim] strips. *)
Definition isSpace (c : char) : bool :=
  isWhiteSpace c || isLineTerminator c.

(** What [\w] matches: [A-Za-z0-9_]. *)
Definition isWord (c : char) : bool :=
  ((65 <=? c)%N && (c <=? 90)%N) || ((97 <=? c)%N && (c <=? 122)%N)
  || ((48 <=? c)%N && (c <=? 57)%N) || (c =? 95)%N.

(** Canonicalize of the [i] flag (no [u] flag).  Every character the
    patterns of the parser name is ASCII, and a code unit above 127 is never
    canonicalized to an ASCII one, so only the ASCII letters matter: a
    character compares equal to a pattern letter exactly when it is that
    letter in either case. *)
Definition canonicalize (c : char) : char :=
  if ((97 <=? c)%N && (c <=? 122)%N) then (c - 32)%N else c.

(** [toUpperCase], exact on the question the parser asks of it (is the
    result the string AS): ASCII letters, and the long s U+017F whose upper
    case is S; no other character has an upper case that is or starts with
    an ASCII letter A or S alone. *)
Definition upperChar (c : char) : char :=
  if ((97 <=? c)%N && (c <=? 122)%N) then (c - 32)%N
  else if (c =? 383)%N then 83%N else c.

Definition toUpperCase (s : str) : str := List.map upperChar s.

Definition includes (c : char) (s : str) : bool := existsb (N.eqb c) s.

Fixpoint trimStart (s : str) : str :=
  match s with
  | x :: s' => if isSpace x then trimStart s' else s
  | [] => []
  end.

Definition trimEnd (s : str) : str := rev (trimStart (rev s)).

Definition trim (s : str) : str := trimEnd (trimStart s).

(** [s.split(sep)] for a separator of one character. *)
Fixpoint split_go (sep : char) (s : str) (current : str) : list str :=
  match s with
  | [] => [current]
  | x :: s' =>
      if (x =? sep)%N then current :: split_go sep s' []
      else split_go sep s' (current ++ [x])
  end.

Definition split (sep : char) (s : str) : list str := split_go sep s [].

(* ----------------------------------------------------------------- *)
(** *** Regular expressions *)

Inductive escape :=
| EscSpace        (* \s *)
| EscNotSpace     (* \S *)
| EscWord.        (* \w *)

Inductive citem :=
| IChr (c : char)
| IEsc (e : escape).

Inductive atom :=
| Chr (c : char)                              (* a literal character *)
| Any                                         (* . *)
| Esc (e : escape)
| Class (negated : bool) (items : list citem). (* [...] and [^...] *)

(** The quantifiers of the parser's patterns range over single characters
    ([\s+], [.*?], [[^...]+]) or are the optional [?] of a group. *)
Inductive regex :=
| Empty
| Atom (a : atom)
| Seq (r1 r2 : regex)
| Alt (r1 r2 : regex)
| Star (greedy : bool) (a : atom)   (* a* and a*? *)
| Opt (r : regex)                   (* r? *)
| Group (n : nat) (r : regex)       (* the n-th capturing group *)
| Bol                               (* ^, in a pattern without the m flag *)
| Eol.                              (* $ *)

Definition Plus (a : atom) : regex := Seq (Atom a) (Star true a).

Fixpoint Lit_go (s : str) : regex :=
  match s with
  | [] => Empty
  | [c] => Atom (Chr c)
  | c :: s' => Seq (Atom (Chr c)) (Lit_go s')
  end.

(** A run of literal characters. *)
Definition Lit (s : string) : regex := Lit_go (lit s).

(** The characters between the brackets of a class, all literal. *)
Definition chars (s : string) : list citem := List.map IChr (lit s).

Record RegExp := { source : regex; ignoreCase : bool; multiline : bool }.

Definition esc_match (e : escape) (x : char) : bool :=
  match e with
  | EscSpace => isSpace x
  | EscNotSpace => negb (isSpace x)
  | EscWord => isWord x
  end.

Definition chr_match (ic : bool) (c x : char) : bool :=
  if ic then (canonicalize x =? canonicalize c)%N else (x =? c)%N.

Definition item_match (ic : bool) (x : char) (it : citem) : bool :=
  match it with
  | IChr c => chr_match ic c x
  | IEsc e => esc_match e x
  end.

Definition atom_match (ic : bool) (a : atom) (x : char) : bool :=
  match a with
  | Chr c => chr_match ic c x
  | Any => negb (isLineTerminator x)
  | Esc e => esc_match e x
  | Class negated items => xorb negated (existsb (item_match ic x) items)
  end.

(** Captures: group number and captured text, the latest first. *)
Definition caps := list (nat * str).

Fixpoint getcap (n : nat) (c : caps) : option str :=
  match c with
  | [] => None
  | (m, v) :: c' => if Nat.eqb m n then Some v else getcap n c'
  end.

(** The matcher, in continuation-passing style as in the ECMAScript
    definition: a continuation receives the rest of the input, the index
    reached and the captures, and its failure makes the matcher try its next
    choice. *)
Definition cont := str -> nat -> caps -> option (nat * caps).

Section Matcher.

Variables ic ml : bool.

Fixpoint star_greedy (a : atom) (s : str) (i : nat) (c : caps) (k : cont)
  : option (nat * caps) :=
  match s with
  | x :: s' =>
      if atom_match ic a x then
        match star_greedy a s' (S i) c k with
        | Some r => Some r
        | None => k s i c
        end
      else k s i c
  | [] => k s i c
  end.

Fixpoint star_lazy (a : atom) (s : str) (i : nat) (c : caps) (k : cont)
  : option (nat * caps) :=
  match k s i c with
  | Some r => Some r
  | None =>
      match s with
      | x :: s' => if atom_match ic a x then star_lazy a s' (S i) c k else None
      | [] => None
      end
  end.

Fixpoint mtch (r : regex) (s : str) (i : nat) (c : caps) (k : cont)
  : option (nat * caps) :=
  match r with
  | Empty => k s i c
  | Atom a =>
      match s with
      | x :: s' => if atom_match ic a x then k s' (S i) c else None
      | [] => None
      end
  | Seq r1 r2 => mtch r1 s i c (fun s1 i1 c1 => mtch r2 s1 i1 c1 k)
  | Alt r1 r2 =>
      match mtch r1 s i c k with
      | Some res => Some res
      | None => mtch r2 s i c k
      end
  | Star true a => star_greedy a s i c k
  | Star false a => star_lazy a s i c k
  | Opt r1 =>
      (* an iteration that matches the empty string is rejected *)
      match mtch r1 s i c
              (fun s1 i1 c1 => if Nat.eqb i1 i then None else k s1 i1 c1) with
      | Some res => Some res
      | None => k s i c
      end
  | Group n r1 =>
      mtch r1 s i c (fun s1 i1 c1 => k s1 i1 ((n, firstn (i1 - i) s) :: c1))
  | Bol => if Nat.eqb i 0 then k s i c else None
  | Eol =>
      match s with
      | [] => k s i c
      | x :: _ => if ml && isLineTerminator x then k s i c else None
      end
  end.

End Matcher.

(** A successful match: where it starts, the matched text, the captures and
    the index after it (the [lastIndex] a global pattern is left with). *)
Record Match := {
  index : nat;
  whole : str;
  groups : caps;
  lastIndex : nat
}.

(** [m[n]]: [None] is [undefined]. *)
Definition capture (n : nat) (m : Match) : option str := getcap n (groups m).

(** The pattern tried at one position: [s] is the input from index [i]. *)
Definition match_at (re : RegExp) (s : str) (i : nat) : option Match :=
  match mtch (ignoreCase re) (multiline re) (source re) s i []
             (fun _ e c => Some (e, c)) with
  | Some (e, c) =>
      Some {| index := i; whole := firstn (e - i) s; groups := c; lastIndex := e |}
  | None => None
  end.

(** The first match at or after a position. *)
Fixpoint search (re : RegExp) (s : str) (i : nat) : option Match :=
  match match_at re s i with
  | Some m => Some m
  | None =>
      match s with
      | _ :: s' => search re s' (S i)
      | [] => None
      end
  end.

(** [re.exec(s)] on a fresh pattern ([lastIndex] 0), and [s.match(re)] for a
    pattern without the [g] flag. *)
Definition exec (re : RegExp) (s : str) : option Match := search re s 0.

(** The successive matches of a global pattern, as the library methods
    ([match], [replace]) enumerate them.  [skip] counts the characters still
    covered by the previous match; after an empty match the search resumes
    one character further. *)
Fixpoint matches_go (re : RegExp) (s : str) (i skip : nat) : list Match :=
  match skip with
  | S n =>
      match s with
      | _ :: s' => matches_go re s' (S i) n
      | [] => []
      end
  | 0 =>
      match match_at re s i with
      | Some m =>
          m :: match s with
               | _ :: s' => matches_go re s' (S i) (lastIndex m - i - 1)
               | [] => []
               end
      | None =>
          match s with
          | _ :: s' => matches_go re s' (S i) 0
          | [] => []
          end
      end
  end.

(** [s.match(re)] for a pattern with the [g] flag: the matched texts.  The
    method answers [null] where this list is empty; the parser only tests
    the answer for truth before iterating over it. *)
Definition matchG (re : RegExp) (s : str) : list str :=
  List.map whole (matches_go re s 0 0).

(** [s.replace(re, rep)] for a pattern with the [g] flag and a replacement
    text without [$]. *)
Fixpoint replace_go (re : RegExp) (rep : str) (s : str) (i skip : nat) : str :=
  match skip with
  | S n =>
      match s with
      | _ :: s' => replace_go re rep s' (S i) n
      | [] => []
      end
  | 0 =>
      match match_at re s i with
      | Some m =>
          rep ++ match s with
                 | x :: s' =>
                     if Nat.eqb (lastIndex m) i
                     then x :: replace_go re rep s' (S i) 0
                     else replace_go re rep s' (S i) (lastIndex m - i - 1)
                 | [] => []
                 end
      | None =>
          match s with
          | x :: s' => x :: replace_go re rep s' (S i) 0
          | [] => []
          end
      end
  end.

Definition replaceG (re : RegExp) (rep : str) (s : str) : str :=
  replace_go re rep s 0 0.

(** [s.replace(re, rep)] for a pattern without the [g] flag: the first match
    only. *)
Definition replaceFirst (re : RegExp) (rep : str) (s : str) : str :=
  match exec re s with
  | Some m => firstn (index m) s ++ rep ++ skipn (lastIndex m) s
  | None => s
  end.

(** [s.split(re)] for a pattern without capturing groups.  [current] is the
    segment being read; an empty match at the start of a segment is
    ignored, as in the library. *)
Fixpoint splitRe_go (re : RegExp) (s : str) (i skip : nat) (current : str)
  : list str :=
  match skip with
  | S n =>
      match s with
      | _ :: s' => splitRe_go re s' (S i) n current
      | [] => [current]
      end
  | 0 =>
      match s with
      | [] => [current]
      | x :: s' =>
          match match_at re s i with
          | Some m =>
              if Nat.eqb (lastIndex m) i then
                if isEmpty current then splitRe_go re s' (S i) 0 [x]
                else current :: splitRe_go re s' (S i) 0 [x]
              else current :: splitRe_go re s' (S i) (lastIndex m - i - 1) []
          | None => splitRe_go re s' (S i) 0 (current ++ [x])
          end
      end
  end.

Definition splitRe (re : RegExp) (s : str) : list str :=
  match s with
  | [] => match match_at re [] 0 with Some _ => [] | None => [[]] end
  | _ => splitRe_go re s 0 0 []
  end.

(** The matches seen by [while ((m = re.exec(s)) !== null) { ... }] for a
    global pattern: [None] when a match is empty, since [lastIndex] then
    stays where it is and the loop never ends. *)
Fixpoint scan (re : RegExp) (s : str) (i skip : nat) : option (list Match) :=
  match skip with
  | S n =>
      match s with
      | _ :: s' => scan re s' (S i) n
      | [] => Some []
      end
  | 0 =>
      match match_at re s i with
      | Some m =>
          if Nat.eqb (lastIndex m) i then None
          else
            match s with
            | _ :: s' =>
                option_map (cons m) (scan re s' (S i) (lastIndex m - i - 1))
            | [] => Some [m]
            end
      | None =>
          match s with
          | _ :: s' => scan re s' (S i) 0
          | [] => Some []
          end
      end
  end.

Definition execLoop (re : RegExp) (s : str) : option (list Match) :=
  scan re s 0 0.

(** Building patterns. *)
Fixpoint Cat (l : list regex) : regex :=
  match l with
  | [] => Empty
  | [r] => r
  | r :: l' => Seq r (Cat l')
  end.

Fixpoint Alts (l : list regex) : regex :=
  match l with
  | [] => Empty
  | [r] => r
  | r :: l' => Alt r (Alts l')
  end.

Definition space : atom := Esc EscSpace.

Definition word : atom := Esc EscWord.

Definition notSpace : atom := Class true [IEsc EscSpace].

(** An insertion-ordered [Map] with string keys: the entries in the order
    their keys were first set. *)
Module Map.

Definition t (V : Type) := list (str * V).

Definition clear {V} : t V := [].

Definition has {V} (k : str) (m : t V) : bool :=
  existsb (fun kv => str_eqb (fst kv) k) m.

Fixpoint get {V} (k : str) (m : t V) : option V :=
  match m with
  | [] => None
  | (k', v) :: m' => if str_eqb k' k then Some v else get k m'
  end.

Fixpoint set {V} (k : str) (v : V) (m : t V) : t V :=
  match m with
  | [] => [(k, v)]
  | (k', v') :: m' =>
      if str_eqb k' k then (k', v) :: m' else (k', v') :: set k v m'
  end.

Definition values {V} (m : t V) : list V := List.map snd m.

End Map.

End JS.

Import JS.

(* ================================================================= *)
(** ** The data model *)

(** An entry of a table's [columns] array: [{ name, alias }]. *)
Module TableColumn.

Record t := { name : str; alias : option str }.

End TableColumn.

(** [{ id, name, alias, type, columns }]; [type] is ['table'] or ['cte']. *)
Module Table.

Record t := {
  id : str;
  name : str;
  alias : option str;
  type : str;
  columns : list TableColumn.t
}.

End Table.

(** [{ id, table, name, alias, type: 'column' }]. *)
Module Column.

Record t := {
  id : str;
  table : str;
  name : str;
  alias : option str;
  type : str
}.

End Column.

(** [{ id, source, sourceColumn, target, targetColumn, type }]. *)
Module Relationship.

Record t := {
  id : str;
  source : str;
  sourceColumn : str;
  target : str;
  targetColumn : str;
  type : str
}.

End Relationship.

(** What [parseQuery] returns: [{ tables, relationships, columns }]. *)
Module Graph.

Record t := {
  tables : list Table.t;
  relationships : list Relationship.t;
  columns : list Column.t
}.

Definition empty : t := {| tables := []; relationships := []; columns := [] |}.

End Graph.

(** The fields of an [SQLParser] instance. *)
Record SQLParser := {
  tables : Map.t Table.t;
  relationships : list Relationship.t;
  columns : Map.t Column.t
}.

(** [new SQLParser()]. *)
Definition constructor : SQLParser :=
  {| tables := Map.clear; relationships := []; columns := Map.clear |}.

Definition set_tables (m : Map.t Table.t) (this : SQLParser) : SQLParser :=
  {| tables := m; relationships := relationships this; columns := columns this |}.

Definition set_relationships (l : list Relationship.t) (this : SQLParser)
  : SQLParser :=
  {| tables := tables this; relationships := l; columns := columns this |}.

Definition set_columns (m : Map.t Column.t) (this : SQLParser) : SQLParser :=
  {| tables := tables this; relationships := relationships this; columns := m |}.

(** The argument of [parseQuery]: a string, or no value at all. *)
Inductive value :=
| JSUndefined
| JSNull
| JSString (s : str).

(* ================================================================= *)
(** ** Outcomes of a method call

    A method runs on the instance and either returns, or throws, or never
    returns.  [Stuck] marks the places where a capture that the program reads
    as a string would be [undefined]; [OutOfFuel] is the bound of the
    embedding on the recursion of [parseQuery] through [parseCTEs].
    On a string none of them happens, as is shown below. *)

Inductive failure :=
| TypeError
| NeverReturns
| Stuck
| OutOfFuel.

Inductive outcome (A : Type) :=
| Ok (a : A)
| Fail (f : failure).

Arguments Fail {A} f.

Definition M (A : Type) := SQLParser -> outcome A * SQLParser.

Definition ret {A} (a : A) : M A := fun this => (Ok a, this).

Definition fail {A} (f : failure) : M A := fun this => (Fail f, this).

Definition bind {A B} (m : M A) (k : A -> M B) : M B :=
  fun this =>
    match m this with
    | (Ok a, this') => k a this'
    | (Fail f, this') => (Fail f, this')
    end.

Notation "x <- m ;; k" := (bind m (fun x => k))
  (at level 61, m at next level, right associativity).

Notation "m ;;; k" := (bind m (fun _ => k))
  (at level 61, right associativity).

(** A statement that updates the instance and cannot fail. *)
Definition update (f : SQLParser -> SQLParser) : M unit :=
  fun this => (Ok tt, f this).

(** [l.forEach(f)]. *)
Fixpoint forEach {A} (f : A -> M unit) (l : list A) : M unit :=
  match l with
  | [] => ret tt
  | x :: l' => f x ;;; forEach f l'
  end.

(** Reading a capture where the program needs a string. *)
Definition defined {A} (o : option A) : M A :=
  match o with
  | Some a => ret a
  | None => fail Stuck
  end.

(** The matches a [while ((match = pattern.exec(s)) !== null)] loop visits. *)
Definition loopMatches (re : RegExp) (s : str) : M (list Match) :=
  match execLoop re s with
  | Some ms => ret ms
  | None => fail NeverReturns
  end.

(* ================================================================= *)
(** ** The patterns of src/sql-parser.js *)

Definition mkRe (r : regex) (i m : bool) : RegExp :=
  {| source := r; ignoreCase := i; multiline := m |}.

(** [/--.*$/gm] *)
Definition lineComment : RegExp :=
  mkRe (Cat [Lit "--"; Star true Any; Eol]) false true.

(** [/\/\*[\s\S]*?\*\//g] *)
Definition blockComment : RegExp :=
  mkRe (Cat [Lit "/*"; Star false (Class false [IEsc EscSpace; IEsc EscNotSpace]);
             Lit "*/"]) false false.

(** [/\s+/g] and [/\s+/] *)
Definition whitespace : RegExp := mkRe (Plus space) false false.

(** [/FROM\s+([^WHERE|JOIN|GROUP|ORDER|HAVING|LIMIT|;]+)/gi]: the bracket is
    a negated character class, so the group stops at the first character
    that is one of the letters of these words, a bar or a semicolon. *)
Definition fromPattern : RegExp :=
  mkRe (Cat [Lit "FROM"; Plus space;
             Group 1 (Plus (Class true
                        (chars "WHERE|JOIN|GROUP|ORDER|HAVING|LIMIT|;")))])
       true false.

(** [/FROM\s+/i] *)
Definition fromKeyword : RegExp := mkRe (Cat [Lit "FROM"; Plus space]) true false.

(** [/((?:LEFT|RIGHT|INNER|FULL|CROSS)?\s*JOIN)\s+([^\s]+)(?:\s+(?:AS\s+)?([^\s]+))?\s+ON\s+([^JOIN|WHERE|GROUP|ORDER|HAVING|LIMIT|;]+)/gi] *)
Definition joinPattern : RegExp :=
  mkRe (Cat [Group 1 (Cat [Opt (Alts [Lit "LEFT"; Lit "RIGHT"; Lit "INNER";
                                      Lit "FULL"; Lit "CROSS"]);
                           Star true space; Lit "JOIN"]);
             Plus space;
             Group 2 (Plus notSpace);
             Opt (Cat [Plus space; Opt (Cat [Lit "AS"; Plus space]);
                       Group 3 (Plus notSpace)]);
             Plus space; Lit "ON"; Plus space;
             Group 4 (Plus (Class true
                        (chars "JOIN|WHERE|GROUP|ORDER|HAVING|LIMIT|;")))])
       true false.

(** [/SELECT\s+(.*?)\s+FROM/gi] *)
Definition selectPattern : RegExp :=
  mkRe (Cat [Lit "SELECT"; Plus space; Group 1 (Star false Any); Plus space;
             Lit "FROM"]) true false.

(** [/WITH\s+(.*?)\s+SELECT/gi] *)
Definition withPattern : RegExp :=
  mkRe (Cat [Lit "WITH"; Plus space; Group 1 (Star false Any); Plus space;
             Lit "SELECT"]) true false.

(** [/^\w+\.\w+$/] *)
Definition bareReference : RegExp :=
  mkRe (Cat [Bol; Plus word; Lit "."; Plus word; Eol]) false false.

(** [/(\w+)\.(\w+)(?:\s+(?:AS\s+)?(\w+))?/i] *)
Definition columnPattern : RegExp :=
  mkRe (Cat [Group 1 (Plus word); Lit "."; Group 2 (Plus word);
             Opt (Cat [Plus space; Opt (Cat [Lit "AS"; Plus space]);
                       Group 3 (Plus word)])]) true false.

(** [/(\w+)\.(\w+)\s*=\s*(\w+)\.(\w+)/gi] *)
Definition conditionPattern : RegExp :=
  mkRe (Cat [Group 1 (Plus word); Lit "."; Group 2 (Plus word);
             Star true space; Lit "="; Star true space;
             Group 3 (Plus word); Lit "."; Group 4 (Plus word)]) true false.

(** [/(\w+)\s+AS\s*\((.*?)\)/gi] *)
Definition ctePattern : RegExp :=
  mkRe (Cat [Group 1 (Plus word); Plus space; Lit "AS"; Star true space;
             Lit "("; Group 2 (Star false Any); Lit ")"]) true false.

(** The class of the pattern in [addTable]: backquote, double quote (code
    unit 34), single quote and the two square brackets. *)
Definition quoteChars : RegExp :=
  mkRe (Atom (Class false (chars "`" ++ [IChr 34%N] ++ chars "'[]")))
       false false.

(* ================================================================= *)
(** ** The methods of [SQLParser] *)

(** [cleanQuery(query)]: the first [.replace] is a property access on the
    argument, a [TypeError] when the argument is [null] or [undefined]. *)
Definition cleanQuery (query : value) : M str :=
  match query with
  | JSString s =>
      ret (trim (replaceG whitespace (lit " ")
                   (replaceG blockComment []
                      (replaceG lineComment [] s))))
  | JSNull | JSUndefined => fail TypeError
  end.

(** [addTable(name, alias = null, type = 'table')]; [alias || cleanName] takes
    the name when the alias is [null] or empty. *)
Definition addTable (name : str) (alias : option str) (type : str)
    (this : SQLParser) : SQLParser :=
  let cleanName := replaceG quoteChars [] name in
  let tableId :=
    match alias with
    | Some a => if isEmpty a then cleanName else a
    | None => cleanName
    end in
  if negb (Map.has tableId (tables this)) then
    set_tables
      (Map.set tableId
         {| Table.id := tableId; Table.name := cleanName; Table.alias := alias;
            Table.type := type; Table.columns := [] |}
         (tables this)) this
  else this.

(** [addColumn(tableRef, columnName, alias = null)] *)
Definition addColumn (tableRef columnName : str) (alias : option str)
    (this : SQLParser) : SQLParser :=
  let columnId := tableRef ++ lit "." ++ columnName in
  let this :=
    if negb (Map.has columnId (columns this)) then
      set_columns
        (Map.set columnId
           {| Column.id := columnId; Column.table := tableRef;
              Column.name := columnName; Column.alias := alias;
              Column.type := lit "column" |}
           (columns this)) this
    else this in
  (* Add column to table if table exists *)
  match Map.get tableRef (tables this) with
  | Some table =>
      if negb (existsb (fun col => str_eqb (TableColumn.name col) columnName)
                 (Table.columns table))
      then
        set_tables
          (Map.set tableRef
             {| Table.id := Table.id table; Table.name := Table.name table;
                Table.alias := Table.alias table; Table.type := Table.type table;
                Table.columns :=
                  Table.columns table ++
                  [{| TableColumn.name := columnName;
                      TableColumn.alias := alias |}] |}
             (tables this)) this
      else this
  | None => this
  end.

(** [addRelationship(sourceTable, sourceColumn, targetTable, targetColumn,
    type = 'flow')]; every call in the class passes the type. *)
Definition addRelationship (sourceTable sourceColumn targetTable targetColumn
    type : str) (this : SQLParser) : SQLParser :=
  set_relationships
    (relationships this ++
     [{| Relationship.id :=
           sourceTable ++ lit "." ++ sourceColumn ++ lit "->" ++
           targetTable ++ lit "." ++ targetColumn;
         Relationship.source := sourceTable;
         Relationship.sourceColumn := sourceColumn;
         Relationship.target := targetTable;
         Relationship.targetColumn := targetColumn;
         Relationship.type := type |}]) this.

(** The loop of [smartSplit(str, delimiter)]: [result], [current] and
    [depth] after the characters of [s]. *)
Fixpoint smartSplit_loop (delimiter : str) (s : str) (result : list str)
    (current : str) (depth : Z) : list str * str :=
  match s with
  | [] => (result, current)
  | char :: s' =>
      if (char =? chr "(")%N then
        smartSplit_loop delimiter s' result (current ++ [char]) (depth + 1)
      else if (char =? chr ")")%N then
        smartSplit_loop delimiter s' result (current ++ [char]) (depth - 1)
      else if str_eqb [char] delimiter && (depth =? 0)%Z then
        smartSplit_loop delimiter s' (result ++ [trim current]) [] depth
      else
        smartSplit_loop delimiter s' result (current ++ [char]) depth
  end.

Definition smartSplit (s : str) (delimiter : str) : list str :=
  let '(result, current) := smartSplit_loop delimiter s [] [] 0 in
  if negb (isEmpty (trim current)) then result ++ [trim current] else result.

(** The body of the [forEach] of [extractTablesFromString]. *)
Definition extractTable (part : str) : M unit :=
  let part := trim part in
  (* Skip subqueries for now (basic implementation) *)
  if includes (chr "(") part then ret tt
  else
    let tableParts := splitRe whitespace part in
    tableName <- defined (hd_error tableParts) ;;
    let alias :=
      match tableParts with
      | _ :: second :: _ =>
          if negb (existsb (str_eqb (toUpperCase second)) [lit "AS"])
          then Some (last tableParts [])
          else None
      | _ => None
      end in
    update (addTable tableName alias (lit "table")).

Definition extractTablesFromString (tableString : str) : M unit :=
  forEach extractTable (split (chr ",") tableString).

Definition parseFromClause (query : str) : M unit :=
  forEach
    (fun match_ =>
       let tablesPart := trim (replaceFirst fromKeyword [] match_) in
       extractTablesFromString tablesPart)
    (matchG fromPattern query).

Definition parseJoinCondition (condition : str) : M unit :=
  ms <- loopMatches conditionPattern condition ;;
  forEach
    (fun m =>
       leftTable <- defined (capture 1 m) ;;
       leftColumn <- defined (capture 2 m) ;;
       rightTable <- defined (capture 3 m) ;;
       rightColumn <- defined (capture 4 m) ;;
       update (addRelationship leftTable leftColumn rightTable rightColumn
                 (lit "join")))
    ms.

Definition parseJoins (query : str) : M unit :=
  ms <- loopMatches joinPattern query ;;
  forEach
    (fun m =>
       tableName <- defined (capture 2 m) ;;
       onCondition <- defined (capture 4 m) ;;
       (* Add the joined table *)
       update (addTable tableName (capture 3 m) (lit "table")) ;;;
       (* Parse the ON condition to find relationships *)
       parseJoinCondition onCondition)
    ms.

(** The body of the [forEach] of [parseSelectColumns]. *)
Definition parseSelectColumn (col : str) : M unit :=
  let col := trim col in
  (* Skip aggregations and complex expressions for basic implementation *)
  if includes (chr "(") col
     && negb (match exec bareReference col with Some _ => true | None => false end)
  then ret tt
  else
    match exec columnPattern col with
    | Some columnMatch =>
        tableRef <- defined (capture 1 columnMatch) ;;
        columnName <- defined (capture 2 columnMatch) ;;
        update (addColumn tableRef columnName (capture 3 columnMatch))
    | None => ret tt
    end.

Definition parseSelectColumns (selectClause : str) : M unit :=
  (* Handle SELECT * case *)
  if str_eqb (trim selectClause) (lit "*") then ret tt
  else forEach parseSelectColumn (smartSplit selectClause (lit ",")).

Definition parseSelectClause (query : str) : M unit :=
  match exec selectPattern query with
  | Some m =>
      selectClause <- defined (capture 1 m) ;;
      parseSelectColumns selectClause
  | None => ret tt
  end.

(** [new SQLParser().parseQuery(q)]: the call runs on an instance of its
    own, and only what it returns comes back. *)
Definition onNewParser {A} (call : M A) : M A :=
  fun this => (fst (call constructor), this).

Section Recursion.

(** [parseQuery], as [parseCTEs] calls it on the body of a CTE. *)
Variable parseQuery : value -> M Graph.t.

Definition parseCTEs (withClause : str) : M unit :=
  ms <- loopMatches ctePattern withClause ;;
  forEach
    (fun m =>
       cteName <- defined (capture 1 m) ;;
       cteQuery <- defined (capture 2 m) ;;
       update (addTable cteName None (lit "cte")) ;;;
       (* Recursively parse the CTE query *)
       subResult <- onNewParser (parseQuery (JSString cteQuery)) ;;
       (* Add relationships from CTE to its source tables *)
       forEach
         (fun table =>
            update (addRelationship (Table.name table) (lit "*")
                      cteName (lit "*") (lit "cte")))
         (Graph.tables subResult))
    ms.

Definition parseWithClause (query : str) : M unit :=
  match exec withPattern query with
  | Some m =>
      withClause <- defined (capture 1 m) ;;
      parseCTEs withClause
  | None => ret tt
  end.

(** The graph returned holds the arrays as values: a later call rebinds
    [this.relationships] to a new array and clears the two maps, and writes
    to no object that an earlier call has returned. *)
Definition parseQuery_body (sqlQuery : value) : M Graph.t :=
  (* Clean and normalize the query *)
  cleanQuery <- cleanQuery sqlQuery ;;
  (* Reset state *)
  update (fun _ => constructor) ;;;
  (* Parse different parts of the query *)
  parseFromClause cleanQuery ;;;
  parseJoins cleanQuery ;;;
  parseSelectClause cleanQuery ;;;
  parseWithClause cleanQuery ;;;
  fun this =>
    (Ok {| Graph.tables := Map.values (tables this);
           Graph.relationships := relationships this;
           Graph.columns := Map.values (columns this) |}, this).

End Recursion.

(** The recursion of [parseQuery] through [parseCTEs], bounded by [fuel]
    nested calls. *)
Fixpoint parseQuery_fuel (fuel : nat) (sqlQuery : value) : M Graph.t :=
  match fuel with
  | 0 => fail OutOfFuel
  | S fuel' => parseQuery_body (parseQuery_fuel fuel') sqlQuery
  end.

(** Every nested call is on a text shorter than the text of its caller, so
    the length of the text bounds the nesting. *)
Definition fuelFor (sqlQuery : value) : nat :=
  match sqlQuery with
  | JSString s => S (List.length s)
  | JSNull | JSUndefined => 1
  end.

Definition parseQuery (sqlQuery : value) : M Graph.t :=
  parseQuery_fuel (fuelFor sqlQuery) sqlQuery.

(* ================================================================= *)
(** ** The examples of the specification *)

Definition cteQuery_example : str :=
  lit "WITH x AS (SELECT * FROM src) SELECT * FROM x".

Definition fromAlias_example : str := lit "FROM bronze.customers c".

Definition join_example : str := lit "FROM a JOIN b ON a.id = b.a_id".

Definition projection_example : str := lit "SELECT t.foo, t.bar AS baz FROM t".


(** A projection that is an expression, and a subquery in FROM. *)
Definition expression_example : str := lit "SELECT b.x + 1 FROM b".

Definition subquery_example : str := lit "FROM (SELECT 1 FROM b) t".

(** Entries of a graph, written with string literals. *)
Definition table (id name : string) (alias : option str) (type : string)
    (columns : list TableColumn.t) : Table.t :=
  {| Table.id := lit id; Table.name := lit name; Table.alias := alias;
     Table.type := lit type; Table.columns := columns |}.

Definition relationship (source sourceColumn target targetColumn type : string)
  : Relationship.t :=
  {| Relationship.id :=
       lit source ++ lit "." ++ lit sourceColumn ++ lit "->" ++
       lit target ++ lit "." ++ lit targetColumn;
     Relationship.source := lit source;
     Relationship.sourceColumn := lit sourceColumn;
     Relationship.target := lit target;
     Relationship.targetColumn := lit targetColumn;
     Relationship.type := lit type |}.

Definition column (table name : string) (alias : option str) : Column.t :=
  {| Column.id := lit table ++ lit "." ++ lit name; Column.table := lit table;
     Column.name := lit name; Column.alias := alias;
     Column.type := lit "column" |}.

(** What the parser returns on [cteQuery_example]. *)
Definition cteQuery_graph : Graph.t :=
  {| Graph.tables := [table "s" "s" None "table" []; table "x" "x" None "table" []];
     Graph.relationships := [relationship "s" "*" "x" "*" "cte"];
     Graph.columns := [] |}.

(** What the parser returns on [fromAlias_example] and on
    [projection_example]. *)
Definition fromAlias_graph : Graph.t :=
  {| Graph.tables := [table "b" "b" None "table" []];
     Graph.relationships := [];
     Graph.columns := [] |}.

Definition projection_graph : Graph.t :=
  {| Graph.tables := [];
     Graph.relationships := [];
     Graph.columns := [column "t" "foo" None;
                       column "t" "bar" (Some (lit "baz"))] |}.

(* ================================================================= *)
(** ** Measures on patterns *)

(** The least number of characters a match of the pattern consumes outside
    its capturing groups. *)
Fixpoint outside (r : regex) : nat :=
  match r with
  | Atom _ => 1
  | Seq r1 r2 => outside r1 + outside r2
  | Alt r1 r2 => Nat.min (outside r1) (outside r2)
  | Empty | Star _ _ | Opt _ | Group _ _ | Bol | Eol => 0
  end.

(** The groups that take part in every match of the pattern. *)
Fixpoint sets (r : regex) (g : nat) : bool :=
  match r with
  | Seq r1 r2 => sets r1 g || sets r2 g
  | Alt r1 r2 => sets r1 g && sets r2 g
  | Group n r1 => Nat.eqb n g || sets r1 g
  | Empty | Atom _ | Star _ _ | Opt _ | Bol | Eol => false
  end.

(** The characters that the atoms of a pattern can consume. *)
Fixpoint accepts (ic : bool) (r : regex) (x : char) : bool :=
  match r with
  | Atom a | Star _ a => atom_match ic a x
  | Seq r1 r2 | Alt r1 r2 => accepts ic r1 x || accepts ic r2 x
  | Opt r1 | Group _ r1 => accepts ic r1 x
  | Empty | Bol | Eol => false
  end.

(** A character without case that every match of the pattern consumes. *)
Fixpoint requires (c0 : char) (r : regex) : bool :=
  match r with
  | Atom (Chr c) => (c =? c0)%N && (canonicalize c0 =? c0)%N
                    && negb ((65 <=? c0)%N && (c0 <=? 90)%N)
  | Seq r1 r2 => requires c0 r1 || requires c0 r2
  | Alt r1 r2 => requires c0 r1 && requires c0 r2
  | Group _ r1 => requires c0 r1
  | _ => false
  end.

(** The pattern begins with [^]; the pattern ends with [$]. *)
Fixpoint startsAtBol (r : regex) : bool :=
  match r with
  | Bol => true
  | Seq r1 _ | Group _ r1 => startsAtBol r1
  | _ => false
  end.

Fixpoint endsAtEol (r : regex) : bool :=
  match r with
  | Eol => true
  | Seq _ r1 | Group _ r1 => endsAtEol r1
  | _ => false
  end.

(** What a match of a pattern on an input of length [len] is known to
    satisfy: the groups of [sets] are defined, and a captured text is
    shorter than the input by the characters outside the groups. *)
Definition wellFormed (re : RegExp) (len : nat) (m : Match) : Prop :=
  (forall g, sets (source re) g = true -> capture g m <> None) /\
  (forall g v, capture g m = Some v ->
     List.length v + outside (source re) <= len).

(* ================================================================= *)
(** ** Properties of calls *)

(** A call that returns, whatever the state of the instance. *)
Definition returns {A} (m : M A) : Prop :=
  forall this, exists a this', m this = (Ok a, this').

(** A call that returns a value with a property. *)
Definition returnsSome {A} (P : A -> Prop) (m : M A) : Prop :=
  forall this, exists a this', m this = (Ok a, this') /\ P a.

(** A call whose effect on the instance is within a relation. *)
Definition within {A} (R : SQLParser -> SQLParser -> Prop) (m : M A) : Prop :=
  forall this, R this (snd (m this)).

(** [m2] returns whatever [m1] returns. *)
Definition approx {A} (m1 m2 : M A) : Prop :=
  forall this a this', m1 this = (Ok a, this') -> m2 this = (Ok a, this').

(* ================================================================= *)
(** ** The splitter, as the specification words it *)

(** The depth of parentheses after a text: the opening ones minus the
    closing ones. *)
Definition depthAfter (before : str) : Z :=
  Z.of_nat (count_occ N.eq_dec before (chr "("))
  - Z.of_nat (count_occ N.eq_dec before (chr ")")).

(** The depth at an occurrence of the delimiter, [x], after the text
    [before].  The two readings differ only when the delimiter is itself a
    parenthesis: the depth before the character, or the depth once the
    character is counted. *)
Definition depthAt (counted : bool) (before : str) (x : char) : Z :=
  if counted then depthAfter (before ++ [x]) else depthAfter before.

(** The segments of [s] between the occurrences of the delimiter [d] at
    which the depth is zero; [before] is the text already read. *)
Fixpoint segments (counted : bool) (d : char) (before s current : str)
  : list str :=
  match s with
  | [] => [current]
  | x :: s' =>
      if (x =? d)%N && (depthAt counted before x =? 0)%Z
      then current :: segments counted d (before ++ [x]) s' []
      else segments counted d (before ++ [x]) s' (current ++ [x])
  end.

(** The segments trimmed, the last one dropped when it is empty. *)
Definition splitAtDepthZero (counted : bool) (s : str) (d : char) : list str :=
  let segs := List.map trim (segments counted d [] s []) in
  removelast segs ++ (if isEmpty (last segs []) then [] else [last segs []]).

(* ================================================================= *)
(** ** Registration of tables *)

(** The id under which [addTable(name, alias, type)] registers: the alias
    when there is one, the cleaned name otherwise. *)
Definition tableIdOf (name : str) (alias : option str) : str :=
  match alias with
  | Some a => if isEmpty a then replaceG quoteChars [] name else a
  | None => replaceG quoteChars [] name
  end.

(** One call of [addTable]. *)
Record registration := {
  reg_name : str;
  reg_alias : option str;
  reg_type : str
}.

Definition register (this : SQLParser) (r : registration) : SQLParser :=
  addTable (reg_name r) (reg_alias r) (reg_type r) this.

Definition registerAll (rs : list registration) (this : SQLParser)
  : SQLParser :=
  fold_left register rs this.

(** A parser in which [bronze.customers] is registered under the alias
    [c], and two later registrations, the first under the same alias. *)
Definition registered_example : SQLParser :=
  addTable (lit "bronze.customers") (Some (lit "c")) (lit "table") constructor.

Definition registrations_example : list registration :=
  [ {| reg_name := lit "silver.orders"; reg_alias := Some (lit "c");
       reg_type := lit "cte" |};
    {| reg_name := lit "c"; reg_alias := None; reg_type := lit "table" |} ].

(* ================================================================= *)
(** ** The claims on the CTE example and on the CTE pass, as stated *)

(** The three parts of C1, on a graph. *)
Definition has_table_src (g : Graph.t) : Prop :=
  exists t, In t (Graph.tables g) /\ (Table.id t = lit "src" \/ Table.name t = lit "src").

Definition has_cte_x (g : Graph.t) : Prop :=
  exists t, In t (Graph.tables g) /\ Table.id t = lit "x" /\ Table.type t = lit "cte".

Definition has_flow_src_x (g : Graph.t) : Prop :=
  exists r, In r (Graph.relationships g) /\
    Relationship.source r = lit "src" /\ Relationship.sourceColumn r = lit "*" /\
    Relationship.target r = lit "x" /\ Relationship.targetColumn r = lit "*" /\
    Relationship.type r = lit "flow".





(* ================================================================= *)
(** ** More measures on patterns *)

(** The least number of characters a match of the pattern consumes. *)
Fixpoint minLen (r : regex) : nat :=
  match r with
  | Atom _ => 1
  | Seq r1 r2 => minLen r1 + minLen r2
  | Alt r1 r2 => Nat.min (minLen r1) (minLen r2)
  | Group _ r1 => minLen r1
  | Empty | Star _ _ | Opt _ | Bol | Eol => 0
  end.

(** The characters that the group [g] of a pattern can capture. *)
Fixpoint groupAccepts (ic : bool) (r : regex) (g : nat) (x : char) : bool :=
  match r with
  | Group n r1 => (Nat.eqb n g && accepts ic r1 x) || groupAccepts ic r1 g x
  | Seq r1 r2 | Alt r1 r2 => groupAccepts ic r1 g x || groupAccepts ic r2 g x
  | Opt r1 => groupAccepts ic r1 g x
  | Empty | Atom _ | Star _ _ | Bol | Eol => false
  end.

(** The group [g] of the pattern never captures the empty string. *)
Fixpoint groupNonempty (r : regex) (g : nat) : bool :=
  match r with
  | Group n r1 =>
      (if Nat.eqb n g then Nat.ltb 0 (minLen r1) else true) && groupNonempty r1 g
  | Seq r1 r2 | Alt r1 r2 => groupNonempty r1 g && groupNonempty r2 g
  | Opt r1 => groupNonempty r1 g
  | Empty | Atom _ | Star _ _ | Bol | Eol => true
  end.

(** What a capture of a match on the input [s] is known to be: a piece of
    the input, made of characters its group accepts, and not empty when the
    group cannot be. *)
Definition captured (re : RegExp) (s : str) (m : Match) : Prop :=
  forall g v, capture g m = Some v ->
    (exists a b, s = a ++ v ++ b) /\
    Forall (fun x => groupAccepts (ignoreCase re) (source re) g x = true) v /\
    (groupNonempty (source re) g = true -> v <> []).

(** The length of the longest prefix of characters with a property. *)
Fixpoint span (p : char -> bool) (s : str) : nat :=
  match s with
  | x :: s' => if p x then S (span p s') else 0
  | [] => 0
  end.

(* ================================================================= *)
(** ** The letters of the keyword class *)

(** The characters between the brackets of [fromPattern]: with the [i] flag,
    the letters of the six keywords in either case, the bar and the
    semicolon. *)
Definition keywordLetter (x : char) : bool :=
  existsb (item_match true x) (chars "WHERE|JOIN|GROUP|ORDER|HAVING|LIMIT|;").

Definition keywordFree (s : str) : Prop :=
  Forall (fun x => keywordLetter x = false) s.

(* ================================================================= *)
(** ** What the state of a parser satisfies *)

(** The keys of a map, in insertion order. *)
Definition keys {V} (m : Map.t V) : list str := List.map fst m.

(** The characters [addTable] strips from a name. *)
Definition isQuote (x : char) : bool :=
  existsb (N.eqb x) [chr "`"; 34%N; chr "'"; chr "["; chr "]"].

(** A name that a [\w+] of a pattern captures. *)
Definition identifier (s : str) : Prop :=
  s <> [] /\ Forall (fun x => isWord x = true) s.

(** An entry of the table map: stored under its id, which is its alias or
    else its name; the name holds no quote character; it is of kind [table],
    or of kind [cte] and then without an alias; its columns have distinct
    names. *)
Definition tableOK (kv : str * Table.t) : Prop :=
  let t := snd kv in
  Table.id t = fst kv /\
  Table.id t = match Table.alias t with
               | Some a => if isEmpty a then Table.name t else a
               | None => Table.name t
               end /\
  Forall (fun x => isQuote x = false) (Table.name t) /\
  (Table.type t = lit "table" \/
   (Table.type t = lit "cte" /\ Table.alias t = None /\
    identifier (Table.name t))) /\
  NoDup (List.map TableColumn.name (Table.columns t)).

(** An entry of the column map: stored under its id, which is made of its
    qualifier and its name, two identifiers. *)
Definition columnOK (kv : str * Column.t) : Prop :=
  let c := snd kv in
  Column.id c = fst kv /\
  Column.id c = Column.table c ++ lit "." ++ Column.name c /\
  Column.type c = lit "column" /\
  identifier (Column.table c) /\ identifier (Column.name c).

(** A relationship: its id is made of its four fields; it is a join between
    two columns named by identifiers without a letter of the keyword class,
    or an edge of kind [cte] between wildcards that ends at an identifier. *)
Definition relationshipOK (r : Relationship.t) : Prop :=
  Relationship.id r =
    Relationship.source r ++ lit "." ++ Relationship.sourceColumn r ++ lit "->" ++
    Relationship.target r ++ lit "." ++ Relationship.targetColumn r /\
  ((Relationship.type r = lit "join" /\
    identifier (Relationship.source r) /\
    identifier (Relationship.sourceColumn r) /\
    identifier (Relationship.target r) /\
    identifier (Relationship.targetColumn r) /\
    keywordFree (Relationship.source r) /\
    keywordFree (Relationship.sourceColumn r) /\
    keywordFree (Relationship.target r) /\
    keywordFree (Relationship.targetColumn r)) \/
   (Relationship.type r = lit "cte" /\
    Relationship.sourceColumn r = lit "*" /\
    Relationship.targetColumn r = lit "*" /\
    identifier (Relationship.target r))).

(** The columns attached to a table are columns of the column map, under
    the id of the table and their name. *)
Definition attached (cols : Map.t Column.t) (kv : str * Table.t) : Prop :=
  Forall (fun tc =>
            exists c,
              Map.get (fst kv ++ lit "." ++ TableColumn.name tc) cols = Some c /\
              Column.table c = fst kv /\
              Column.name c = TableColumn.name tc)
         (Table.columns (snd kv)).

(** An edge of kind [cte] ends at a registered table. *)
Definition cteTarget (tabs : Map.t Table.t) (r : Relationship.t) : Prop :=
  Relationship.type r = lit "cte" -> Map.has (Relationship.target r) tabs = true.

Definition consistent (this : SQLParser) : Prop :=
  NoDup (keys (tables this)) /\ NoDup (keys (columns this)) /\
  Forall tableOK (tables this) /\ Forall columnOK (columns this) /\
  Forall relationshipOK (relationships this) /\
  Forall (attached (columns this)) (tables this) /\
  Forall (cteTarget (tables this)) (relationships this).

(** A call that keeps a property of the state. *)
Definition keeps {A} (I : SQLParser -> Prop) (m : M A) : Prop :=
  forall this, I this -> I (snd (m this)).

(** The graph of a state, as [parseQuery] builds it before it returns. *)
Definition graphOf (this : SQLParser) : Graph.t :=
  {| Graph.tables := Map.values (tables this);
     Graph.relationships := relationships this;
     Graph.columns := Map.values (columns this) |}.

(* ================================================================= *)
(** ** The effects of the FROM and JOIN passes *)

(** An entry that the FROM pass adds to the table map. *)
Definition fromEntry (t : Table.t) : Prop :=
  keywordFree (Table.id t) /\ keywordFree (Table.name t) /\
  Table.type t = lit "table" /\ Table.columns t = [].

(** The effect of the FROM pass on the instance. *)
Definition fromStep (this this' : SQLParser) : Prop :=
  relationships this' = relationships this /\
  columns this' = columns this /\
  forall kv, In kv (tables this') -> In kv (tables this) \/ fromEntry (snd kv).

(** A relationship that the JOIN pass appends. *)
Definition joinEdge (r : Relationship.t) : Prop :=
  Relationship.type r = lit "join" /\
  keywordFree (Relationship.source r) /\
  keywordFree (Relationship.sourceColumn r) /\
  keywordFree (Relationship.target r) /\
  keywordFree (Relationship.targetColumn r).

(** The effect of the JOIN pass on the relationships and the columns. *)
Definition joinStep (this this' : SQLParser) : Prop :=
  columns this' = columns this /\
  exists new, relationships this' = relationships this ++ new /\
              Forall joinEdge new.

(* ================================================================= *)
(** ** The shape of a cleaned query *)

(** Every run of white space replaced by one space; [inRun] tells that the
    character before was white space. *)
Fixpoint collapse (inRun : bool) (s : str) : str :=
  match s with
  | [] => []
  | x :: s' =>
      if isSpace x then
        if inRun then collapse true s' else chr " " :: collapse true s'
      else x :: collapse false s'
  end.

(** No two white-space characters in a row. *)
Fixpoint singleSpaced (s : str) : bool :=
  match s with
  | x :: s' =>
      match s' with
      | y :: _ => negb (isSpace x && isSpace y)
      | [] => true
      end && singleSpaced s'
  | [] => true
  end.

Definition startsWithSpace (s : str) : bool :=
  match s with
  | x :: _ => isSpace x
  | [] => false
  end.

(** A text whose only white space is single spaces between other
    characters. *)
Definition normalized (q : str) : Prop :=
  Forall (fun x => isSpace x = true -> x = chr " ") q /\
  singleSpaced q = true /\
  startsWithSpace q = false /\
  startsWithSpace (rev q) = false.

(* ================================================================= *)
(** ** The effect of the SELECT pass *)

(** A table before and after the SELECT pass: the same entry under the same
    key, with column names appended. *)
Definition sameTable (kv kv' : str * Table.t) : Prop :=
  fst kv' = fst kv /\
  Table.id (snd kv') = Table.id (snd kv) /\
  Table.name (snd kv') = Table.name (snd kv) /\
  Table.alias (snd kv') = Table.alias (snd kv) /\
  Table.type (snd kv') = Table.type (snd kv) /\
  exists more, Table.columns (snd kv') = Table.columns (snd kv) ++ more.

(** The effect of the SELECT pass on the instance. *)
Definition selectStep (this this' : SQLParser) : Prop :=
  relationships this' = relationships this /\
  (exists new, columns this' = columns this ++ new) /\
  Forall2 sameTable (tables this) (tables this').

(* ================================================================= *)
(** ** The renderer (src/unnamed/part_000): from a graph to nodes and links *)

(** [s.includes(p)] for a string [p]. *)
Fixpoint startsWith (p s : str) : bool :=
  match p, s with
  | [], _ => true
  | x :: p', y :: s' => N.eqb x y && startsWith p' s'
  | _ :: _, [] => false
  end.

Fixpoint includesStr (p s : str) : bool :=
  startsWith p s ||
  match s with
  | [] => false
  | _ :: s' => includesStr p s'
  end.

(** [a.push(x)] *)
Definition push {A} (a : list A) (x : A) : list A := a ++ [x].

(** A node of the drawing: [{ id, label, type, group }] with
    [{ table, tableName }] for a column and [{ columnCount }] for a table. *)
Module Node.

Record t := {
  id : str;
  label : str;
  table : option str;
  tableName : option str;
  type : str;
  columnCount : option nat;
  group : str
}.

End Node.

(** [{ source, target, type }] *)
Module Link.

Record t := { source : str; target : str; type : str }.

End Link.

(** [{ nodes, links }] *)
Module GraphData.

Record t := { nodes : list Node.t; links : list Link.t }.

End GraphData.

(** [getTableGroup(tableName)] *)
Definition getTableGroup (tableName : str) : str :=
  (* Determine table group based on schema/prefix *)
  if includesStr (lit "bronze") tableName then lit "bronze"
  else if includesStr (lit "silver") tableName then lit "silver"
  else if includesStr (lit "gold") tableName then lit "gold"
  else lit "default".

(** The node of a column in the column view. *)
Definition columnNode (table : Table.t) (column : TableColumn.t) : Node.t :=
  {| Node.id := Table.id table ++ lit "." ++ TableColumn.name column;
     Node.label := TableColumn.name column;
     Node.table := Some (Table.id table);
     Node.tableName := Some (Table.name table);
     Node.type := lit "column";
     Node.columnCount := None;
     Node.group := getTableGroup (Table.name table) |}.

(** The link of a relationship in the column view. *)
Definition columnLink (rel : Relationship.t) : Link.t :=
  {| Link.source := Relationship.source rel ++ lit "." ++ Relationship.sourceColumn rel;
     Link.target := Relationship.target rel ++ lit "." ++ Relationship.targetColumn rel;
     Link.type := Relationship.type rel |}.

(** The node of a table in the table view. *)
Definition tableNode (table : Table.t) : Node.t :=
  {| Node.id := Table.id table;
     Node.label := Table.name table;
     Node.table := None;
     Node.tableName := None;
     Node.type := lit "table";
     Node.columnCount := Some (List.length (Table.columns table));
     Node.group := getTableGroup (Table.name table) |}.

(** The link of a relationship in the table view. *)
Definition tableLink (rel : Relationship.t) : Link.t :=
  {| Link.source := Relationship.source rel;
     Link.target := Relationship.target rel;
     Link.type := Relationship.type rel |}.

(** The test of the column view on a relationship: both columns are
    non-empty strings, and neither is the wildcard. *)
Definition linksColumns (rel : Relationship.t) : bool :=
  negb (isEmpty (Relationship.sourceColumn rel))
  && negb (isEmpty (Relationship.targetColumn rel))
  && negb (str_eqb (Relationship.sourceColumn rel) (lit "*"))
  && negb (str_eqb (Relationship.targetColumn rel) (lit "*")).

(** [prepareGraphData(data, isColumnView)] *)
Definition prepareGraphData (data : Graph.t) (isColumnView : bool) : GraphData.t :=
  if isColumnView then
    (* Column-level visualization *)
    let nodes :=
      fold_left
        (fun nodes table =>
           fold_left (fun nodes column => push nodes (columnNode table column))
                     (Table.columns table) nodes)
        (Graph.tables data) [] in
    (* Create column-level links *)
    let links :=
      fold_left
        (fun links rel =>
           if linksColumns rel then push links (columnLink rel) else links)
        (Graph.relationships data) [] in
    {| GraphData.nodes := nodes; GraphData.links := links |}
  else
    (* Table-level visualization *)
    let nodes :=
      fold_left (fun nodes table => push nodes (tableNode table))
                (Graph.tables data) [] in
    (* Create table-level links *)
    let links :=
      fold_left (fun links rel => push links (tableLink rel))
                (Graph.relationships data) [] in
    {| GraphData.nodes := nodes; GraphData.links := links |}.

(** [getNodeLabel(d)]; [isColumnView] is the field of the renderer. *)
Definition getNodeLabel (isColumnView : bool) (d : Node.t) : str :=
  if isColumnView then Node.label d
  else if Nat.ltb 20 (List.length (Node.label d))
       then firstn 20 (Node.label d) ++ lit "..."
       else Node.label d.

(* ================================================================= *)
(** ** The sample graph of [generateSampleData] *)

Definition sampleColumns (names : list string) : list TableColumn.t :=
  List.map (fun n => {| TableColumn.name := lit n; TableColumn.alias := None |})
           names.

(** [generateSampleData()]: what the application draws. *)
Definition generateSampleData : Graph.t :=
  {| Graph.tables :=
       [ {| Table.id := lit "bronze_customers";
            Table.name := lit "bronze.customers";
            Table.alias := None;
            Table.type := lit "table";
            Table.columns :=
              sampleColumns ["customer_id"; "email"; "first_name"; "last_name";
                             "created_at"]%string |};
         {| Table.id := lit "bronze_orders";
            Table.name := lit "bronze.orders";
            Table.alias := None;
            Table.type := lit "table";
            Table.columns :=
              sampleColumns ["order_id"; "customer_id"; "order_date";
                             "total_amount"; "status"]%string |};
         {| Table.id := lit "silver_customer_orders";
            Table.name := lit "silver.customer_orders";
            Table.alias := None;
            Table.type := lit "table";
            Table.columns :=
              sampleColumns ["customer_id"; "customer_name"; "total_orders";
                             "total_spent"; "avg_order_value"]%string |};
         {| Table.id := lit "gold_customer_metrics";
            Table.name := lit "gold.customer_metrics";
            Table.alias := None;
            Table.type := lit "table";
            Table.columns :=
              sampleColumns ["customer_id"; "customer_segment"; "lifetime_value";
                             "churn_risk"]%string |} ];
     Graph.relationships :=
       [ {| Relationship.id := lit "bronze_customers->silver_customer_orders";
            Relationship.source := lit "bronze_customers";
            Relationship.sourceColumn := lit "customer_id";
            Relationship.target := lit "silver_customer_orders";
            Relationship.targetColumn := lit "customer_id";
            Relationship.type := lit "flow" |};
         {| Relationship.id := lit "bronze_orders->silver_customer_orders";
            Relationship.source := lit "bronze_orders";
            Relationship.sourceColumn := lit "customer_id";
            Relationship.target := lit "silver_customer_orders";
            Relationship.targetColumn := lit "customer_id";
            Relationship.type := lit "flow" |};
         {| Relationship.id := lit "silver_customer_orders->gold_customer_metrics";
            Relationship.source := lit "silver_customer_orders";
            Relationship.sourceColumn := lit "customer_id";
            Relationship.target := lit "gold_customer_metrics";
            Relationship.targetColumn := lit "customer_id";
            Relationship.type := lit "flow" |} ];
     Graph.columns := [] |}.

(* ================================================================= *)
(** ** The CTE pass, entry by entry *)







(* ================================================================= *)
(** ** Join conditions that are not equalities *)

(** Every equals sign of the text directly follows a character that is
    neither a word character nor white space, as the ones of [<=], [>=] and
    [!=] do; [prev] is the character before the text.  A text without an
    equals sign is such a text. *)
Fixpoint noEquality (prev : option char) (s : str) : bool :=
  match s with
  | [] => true
  | x :: s' =>
      (if (x =? chr "=")%N then
         match prev with
         | Some p => negb (isWord p || isSpace p)
         | None => true
         end
       else true)
      && noEquality (Some x) s'
  end.

(* ================================================================= *)
(** ** The words of a text *)

(** The words of a text: its maximal runs of characters that are not white
    space, in order.  [current] is the word being read. *)
Fixpoint words_go (s current : str) : list str :=
  match s with
  | [] => if isEmpty current then [] else [current]
  | x :: s' =>
      if isSpace x then
        if isEmpty current then words_go s' [] else current :: words_go s' []
      else words_go s' (current ++ [x])
  end.

Definition words (s : str) : list str := words_go s [].

(** Words joined by single spaces. *)
Fixpoint unwords (ws : list str) : str :=
  match ws with
  | [] => []
  | w :: rest =>
      match rest with
      | [] => w
      | _ :: _ => w ++ chr " " :: unwords rest
      end
  end.

(* ================================================================= *)
(** ** Facts about strings and maps *)

Lemma str_eqb_eq a b : str_eqb a b = true <-> a = b.
Proof.
  revert b. induction a as [|x a IH]; intros [|y b]; simpl;
    try (split; [discriminate | discriminate]); [tauto|].
  rewrite andb_true_iff, N.eqb_eq, IH. split.
  - intros [-> ->]. reflexivity.
  - intros E. inversion E. auto.
Qed.

Lemma str_eqb_single x d : str_eqb [x] [d] = (x =? d)%N.
Proof. simpl. apply andb_true_r. Qed.

Lemma includes_In c s : includes c s = true <-> In c s.
Proof.
  unfold includes. rewrite existsb_exists. split.
  - intros (x & Hx & E). apply N.eqb_eq in E. subst. exact Hx.
  - intros H. exists c. split; [exact H | apply N.eqb_refl].
Qed.

Lemma trimStart_length s : List.length (trimStart s) <= List.length s.
Proof.
  induction s as [|x s IH]; simpl; [lia|].
  destruct (isSpace x); simpl; lia.
Qed.

Lemma trim_length s : List.length (trim s) <= List.length s.
Proof.
  unfold trim, trimEnd. rewrite length_rev.
  etransitivity; [apply trimStart_length|]. rewrite length_rev.
  apply trimStart_length.
Qed.

Lemma last_map {A B} (f : A -> B) (l : list A) (a : A) :
  last (List.map f l) (f a) = f (last l a).
Proof.
  induction l as [|x l IH]; [reflexivity|].
  destruct l; [reflexivity|]. exact IH.
Qed.

Lemma removelast_map {A B} (f : A -> B) (l : list A) :
  removelast (List.map f l) = List.map f (removelast l).
Proof.
  induction l as [|x l IH]; [reflexivity|].
  destruct l; [reflexivity|]. simpl in *. rewrite IH. reflexivity.
Qed.

Lemma firstn_plus {A} (n1 n2 : nat) (s : list A) :
  firstn (n1 + n2) s = firstn n1 s ++ firstn n2 (skipn n1 s).
Proof.
  revert s. induction n1 as [|n1 IH]; intros s; [reflexivity|].
  destruct s as [|x s]; simpl.
  - rewrite firstn_nil. reflexivity.
  - rewrite IH. reflexivity.
Qed.

Lemma Map_has_get {V} k (m : Map.t V) :
  Map.has k m = true <-> Map.get k m <> None.
Proof.
  induction m as [|[k' v] m IH]; simpl.
  - split; [discriminate | congruence].
  - destruct (str_eqb k' k); simpl; [|exact IH].
    split; [discriminate | reflexivity].
Qed.

Lemma Map_get_set_new {V} k (v : V) id (m : Map.t V) e :
  Map.has k m = false -> Map.get id m = Some e ->
  Map.get id (Map.set k v m) = Some e.
Proof.
  induction m as [|[k' v'] m IH]; simpl; [discriminate|].
  intros Hhas Hget. apply orb_false_iff in Hhas. destruct Hhas as [Hk Hhas].
  rewrite Hk. simpl. destruct (str_eqb k' id); [exact Hget | auto].
Qed.

Lemma Map_set_new {V} k (v : V) (m : Map.t V) :
  Map.has k m = false -> Map.set k v m = m ++ [(k, v)].
Proof.
  induction m as [|[k' v'] m IH]; simpl; [reflexivity|].
  intros H. apply orb_false_iff in H. destruct H as [Hk H].
  rewrite Hk, IH by exact H. reflexivity.
Qed.

(* ================================================================= *)
(** ** Facts about the matcher *)

(** The matcher has consumed no character and kept the captures [c]. *)
Ltac consumes_nothing c :=
  exists 0, c; rewrite Nat.add_0_r; simpl;
  repeat split; auto; try lia; try discriminate; try contradiction.

Lemma star_greedy_sound ic a : forall s i c k res,
  star_greedy ic a s i c k = Some res ->
  exists n, n <= List.length s /\ k (skipn n s) (i + n) c = Some res.
Proof.
  induction s as [|x s IH]; intros i c k res H; simpl in H.
  - exists 0. rewrite Nat.add_0_r. auto.
  - destruct (atom_match ic a x).
    + destruct (star_greedy ic a s (S i) c k) eqn:E.
      * apply IH in E. destruct E as (n & Hn & Hk). inversion H; subst.
        exists (S n). simpl. rewrite Nat.add_succ_r. split; [lia | exact Hk].
      * exists 0. rewrite Nat.add_0_r. simpl. split; [lia | exact H].
    + exists 0. rewrite Nat.add_0_r. simpl. split; [lia | exact H].
Qed.

Lemma star_lazy_sound ic a : forall s i c k res,
  star_lazy ic a s i c k = Some res ->
  exists n, n <= List.length s /\ k (skipn n s) (i + n) c = Some res.
Proof.
  induction s as [|x s IH]; intros i c k res H; simpl in H.
  - exists 0. rewrite Nat.add_0_r. simpl.
    destruct (k [] i c); [auto | discriminate].
  - destruct (k (x :: s) i c) eqn:E.
    + exists 0. rewrite Nat.add_0_r. simpl. split; [lia | congruence].
    + destruct (atom_match ic a x); [|discriminate].
      apply IH in H. destruct H as (n & Hn & Hk).
      exists (S n). simpl. rewrite Nat.add_succ_r. split; [lia | exact Hk].
Qed.

(** Soundness of the matcher: a successful match has called its
    continuation on the rest of the input after [n] characters. *)
Lemma mtch_sound ic ml : forall r s i c k res,
  mtch ic ml r s i c k = Some res ->
  exists n c1,
    n <= List.length s /\ outside r <= n /\
    k (skipn n s) (i + n) c1 = Some res /\
    (forall g v, getcap g c1 = Some v ->
       getcap g c = Some v \/ List.length v + outside r <= n) /\
    (forall g, sets r g = true -> getcap g c1 <> None) /\
    (forall g, getcap g c <> None -> getcap g c1 <> None).
Proof.
  induction r as [|a|r1 IH1 r2 IH2|r1 IH1 r2 IH2|gr a|r1 IH1|g0 r1 IH1| |];
    intros s i c k res H; simpl in H.
  - (* Empty *)
    consumes_nothing c.
  - (* Atom *)
    destruct s as [|x s]; [discriminate|].
    destruct (atom_match ic a x); [|discriminate].
    exists 1, c. rewrite Nat.add_1_r. simpl.
    repeat split; auto; try lia; discriminate.
  - (* Seq *)
    apply IH1 in H. destruct H as (n1 & c1 & Hn1 & Ho1 & Hk1 & Hc1 & Hs1 & Hp1).
    apply IH2 in Hk1. destruct Hk1 as (n2 & c2 & Hn2 & Ho2 & Hk2 & Hc2 & Hs2 & Hp2).
    rewrite length_skipn in Hn2.
    exists (n1 + n2), c2. simpl.
    rewrite skipn_skipn in Hk2. rewrite (Nat.add_comm n2 n1) in Hk2.
    rewrite Nat.add_assoc.
    repeat split; auto; try lia.
    + intros g v Hg. destruct (Hc2 g v Hg) as [Hg1|Hlen].
      * destruct (Hc1 g v Hg1) as [Hg0|Hlen]; [auto | right; lia].
      * right; lia.
    + intros g Hg. apply orb_true_iff in Hg. destruct Hg as [Hg|Hg]; auto.
  - (* Alt *)
    destruct (mtch ic ml r1 s i c k) eqn:E.
    + inversion H; subst. apply IH1 in E.
      destruct E as (n & c1 & Hn & Ho & Hk & Hc & Hs & Hp).
      exists n, c1. simpl. repeat split; auto; try lia.
      * intros g v Hg. destruct (Hc g v Hg); [auto | right; lia].
      * intros g Hg. apply andb_true_iff in Hg. apply Hs, Hg.
    + apply IH2 in H.
      destruct H as (n & c1 & Hn & Ho & Hk & Hc & Hs & Hp).
      exists n, c1. simpl. repeat split; auto; try lia.
      * intros g v Hg. destruct (Hc g v Hg); [auto | right; lia].
      * intros g Hg. apply andb_true_iff in Hg. apply Hs, Hg.
  - (* Star *)
    assert (exists n, n <= List.length s /\ k (skipn n s) (i + n) c = Some res)
      as (n & Hn & Hk).
    { destruct gr; [eapply star_greedy_sound | eapply star_lazy_sound]; eauto. }
    exists n, c. simpl. repeat split; auto; try lia; discriminate.
  - (* Opt *)
    destruct (mtch ic ml r1 s i c
                (fun s1 i1 c1 => if Nat.eqb i1 i then None else k s1 i1 c1)) eqn:E.
    + inversion H; subst. apply IH1 in E.
      destruct E as (n & c1 & Hn & Ho & Hk & Hc & Hs & Hp).
      destruct (Nat.eqb (i + n) i); [discriminate|].
      exists n, c1. simpl. repeat split; auto; try lia; try discriminate.
      intros g v Hg. destruct (Hc g v Hg); [auto | right; lia].
    + consumes_nothing c.
  - (* Group *)
    apply IH1 in H. destruct H as (n & c1 & Hn & Ho & Hk & Hc & Hs & Hp).
    replace (i + n - i) with n in Hk by lia.
    exists n, ((g0, firstn n s) :: c1). simpl.
    repeat split; auto; try lia.
    + intros g v Hg. destruct (Nat.eqb g0 g).
      * inversion Hg; subst. right. rewrite length_firstn. lia.
      * destruct (Hc g v Hg); [auto | right; lia].
    + intros g Hg. destruct (Nat.eqb g0 g); [discriminate|].
      simpl in Hg. auto.
    + intros g Hg. destruct (Nat.eqb g0 g); [discriminate | auto].
  - (* Bol *)
    destruct (Nat.eqb i 0); [|discriminate].
    consumes_nothing c.
  - (* Eol *)
    assert (k s i c = Some res) as Hk.
    { destruct s as [|x s]; [exact H|].
      destruct (ml && isLineTerminator x); [exact H | discriminate]. }
    consumes_nothing c.
Qed.

Lemma match_at_sound re s i m :
  match_at re s i = Some m ->
  exists n, lastIndex m = i + n /\ n <= List.length s /\
            outside (source re) <= n /\ wellFormed re n m.
Proof.
  unfold match_at. intros H.
  destruct (mtch (ignoreCase re) (multiline re) (source re) s i []
              (fun _ e c => Some (e, c))) as [[e c]|] eqn:E; [|discriminate].
  inversion H; subst; clear H.
  apply mtch_sound in E.
  destruct E as (n & c1 & Hn & Ho & Hk & Hc & Hs & _).
  inversion Hk; subst. exists n. unfold wellFormed, capture. simpl.
  repeat split; auto.
  intros g v Hg. destruct (Hc g v Hg) as [Hnil|Hlen]; [discriminate | exact Hlen].
Qed.

Lemma wellFormed_le re n len m :
  n <= len -> wellFormed re n m -> wellFormed re len m.
Proof.
  intros Hle [Hs Hc]. split; [exact Hs|].
  intros g v Hg. specialize (Hc g v Hg). lia.
Qed.

Lemma search_wellFormed re : forall s i m,
  search re s i = Some m -> wellFormed re (List.length s) m.
Proof.
  induction s as [|x s IH]; intros i m H; simpl in H.
  - destruct (match_at re [] i) eqn:E; [|discriminate].
    inversion H; subst. apply match_at_sound in E.
    destruct E as (n & _ & Hn & _ & Hw). eapply wellFormed_le; eauto.
  - destruct (match_at re (x :: s) i) eqn:E.
    + inversion H; subst. apply match_at_sound in E.
      destruct E as (n & _ & Hn & _ & Hw). eapply wellFormed_le; eauto.
    + apply IH in H. eapply wellFormed_le; [|exact H]. simpl. lia.
Qed.

Lemma exec_wellFormed re s m :
  exec re s = Some m -> wellFormed re (List.length s) m.
Proof. apply search_wellFormed. Qed.

(** A loop around [exec] ends when the pattern cannot match the empty
    string, and each of its matches is well formed. *)
Lemma scan_returns re :
  0 < outside (source re) ->
  forall s i skip, exists ms,
    scan re s i skip = Some ms /\ Forall (wellFormed re (List.length s)) ms.
Proof.
  intros Hpos. induction s as [|x s IH]; intros i skip.
  - destruct skip; simpl; [|eauto].
    destruct (match_at re [] i) eqn:E; [|eauto].
    apply match_at_sound in E. destruct E as (n & _ & Hn & Ho & _).
    simpl in Hn. lia.
  - destruct skip as [|skip]; simpl.
    + destruct (match_at re (x :: s) i) eqn:E.
      * apply match_at_sound in E. destruct E as (n & He & Hn & Ho & Hw).
        rewrite He. replace (Nat.eqb (i + n) i) with false
          by (symmetry; apply Nat.eqb_neq; lia).
        destruct (IH (S i) (i + n - i - 1)) as (ms & Hms & Hall).
        rewrite Hms. simpl. eexists; split; [reflexivity|].
        constructor.
        -- eapply wellFormed_le; eauto.
        -- eapply Forall_impl; [|exact Hall]. intros m'.
           apply wellFormed_le. simpl. lia.
      * destruct (IH (S i) 0) as (ms & Hms & Hall).
        exists ms. split; [exact Hms|].
        eapply Forall_impl; [|exact Hall]. intros m'.
        apply wellFormed_le. simpl. lia.
    + destruct (IH (S i) skip) as (ms & Hms & Hall).
      exists ms. split; [exact Hms|].
      eapply Forall_impl; [|exact Hall]. intros m'.
      apply wellFormed_le. simpl. lia.
Qed.

Lemma execLoop_returns re s :
  0 < outside (source re) ->
  exists ms, execLoop re s = Some ms /\ Forall (wellFormed re (List.length s)) ms.
Proof. intros H. apply scan_returns, H. Qed.

(** A global replacement by a text no longer than the least match does not
    lengthen the string. *)
Lemma replace_go_length re rep :
  List.length rep <= outside (source re) ->
  forall s i skip, skip <= List.length s ->
    List.length (replace_go re rep s i skip) + skip <= List.length s.
Proof.
  intros Hrep. induction s as [|x s IH]; intros i skip Hskip.
  - simpl in Hskip. assert (skip = 0) by lia. subst. simpl.
    destruct (match_at re [] i) eqn:E; [|simpl; lia].
    apply match_at_sound in E. destruct E as (n & _ & Hn & Ho & _).
    simpl in Hn. rewrite length_app. simpl. lia.
  - destruct skip as [|skip]; simpl.
    + destruct (match_at re (x :: s) i) eqn:E.
      * apply match_at_sound in E. destruct E as (n & He & Hn & Ho & _).
        rewrite He. rewrite length_app. simpl in Hn.
        destruct (Nat.eqb (i + n) i) eqn:Hz.
        -- apply Nat.eqb_eq in Hz. assert (n = 0) by lia. subst.
           simpl. specialize (IH (S i) 0). lia.
        -- apply Nat.eqb_neq in Hz.
           specialize (IH (S i) (i + n - i - 1)). lia.
      * simpl. specialize (IH (S i) 0). lia.
    + simpl in Hskip. specialize (IH (S i) skip). lia.
Qed.

Lemma replaceG_length re rep s :
  List.length rep <= outside (source re) ->
  List.length (replaceG re rep s) <= List.length s.
Proof.
  intros H. pose proof (@replace_go_length re rep H s 0 0). unfold replaceG. lia.
Qed.

Lemma splitRe_go_nonempty re : forall s i skip current,
  splitRe_go re s i skip current <> [].
Proof.
  induction s as [|x s IH]; intros i skip current; destruct skip; simpl;
    try discriminate; auto.
  destruct (match_at re (x :: s) i); auto.
  destruct (Nat.eqb (lastIndex m) i); [|discriminate].
  destruct (isEmpty current); [auto | discriminate].
Qed.

Lemma splitRe_whitespace_nonempty s : splitRe whitespace s <> [].
Proof.
  destruct s; [vm_compute; discriminate|].
  apply splitRe_go_nonempty.
Qed.

Lemma chr_match_caseless ic c0 x :
  (canonicalize c0 =? c0)%N && negb ((65 <=? c0)%N && (c0 <=? 90)%N) = true ->
  chr_match ic c0 x = true -> x = c0.
Proof.
  unfold chr_match, canonicalize. intros H Hm.
  apply andb_true_iff in H. destruct H as [H1 H2].
  destruct ic; [|apply N.eqb_eq, Hm].
  destruct ((97 <=? c0)%N && (c0 <=? 122)%N) eqn:E0.
  - apply andb_true_iff in E0. destruct E0 as [Ea Eb].
    apply N.leb_le in Ea, Eb. apply N.eqb_eq in H1. lia.
  - destruct ((97 <=? x)%N && (x <=? 122)%N) eqn:Ex.
    + apply andb_true_iff in Ex. destruct Ex as [Ea Eb].
      apply N.leb_le in Ea, Eb. apply N.eqb_eq in Hm.
      apply negb_true_iff, andb_false_iff in H2.
      destruct H2 as [H2|H2]; apply N.leb_gt in H2; lia.
    + apply N.eqb_eq, Hm.
Qed.

Lemma star_greedy_consumes ic a : forall s i c k res,
  star_greedy ic a s i c k = Some res ->
  exists n, n <= List.length s /\ k (skipn n s) (i + n) c = Some res /\
            Forall (fun x => atom_match ic a x = true) (firstn n s).
Proof.
  induction s as [|x s IH]; intros i c k res H; simpl in H.
  - exists 0. rewrite Nat.add_0_r. simpl. auto.
  - destruct (atom_match ic a x) eqn:Ea.
    + destruct (star_greedy ic a s (S i) c k) eqn:E.
      * apply IH in E. destruct E as (n & Hn & Hk & Hall). inversion H; subst.
        exists (S n). simpl. rewrite Nat.add_succ_r.
        repeat split; [lia | exact Hk | constructor; auto].
      * exists 0. rewrite Nat.add_0_r. simpl. repeat split; [lia | exact H | constructor].
    + exists 0. rewrite Nat.add_0_r. simpl. repeat split; [lia | exact H | constructor].
Qed.

Lemma star_lazy_consumes ic a : forall s i c k res,
  star_lazy ic a s i c k = Some res ->
  exists n, n <= List.length s /\ k (skipn n s) (i + n) c = Some res /\
            Forall (fun x => atom_match ic a x = true) (firstn n s).
Proof.
  induction s as [|x s IH]; intros i c k res H; simpl in H.
  - exists 0. rewrite Nat.add_0_r. simpl.
    destruct (k [] i c); [auto | discriminate].
  - destruct (k (x :: s) i c) eqn:E.
    + exists 0. rewrite Nat.add_0_r. simpl.
      repeat split; [lia | congruence | constructor].
    + destruct (atom_match ic a x) eqn:Ea; [|discriminate].
      apply IH in H. destruct H as (n & Hn & Hk & Hall).
      exists (S n). simpl. rewrite Nat.add_succ_r.
      repeat split; [lia | exact Hk | constructor; auto].
Qed.

(** What a successful match has consumed. *)
Lemma mtch_consumes ic ml : forall r s i c k res,
  mtch ic ml r s i c k = Some res ->
  exists n c1,
    n <= List.length s /\
    k (skipn n s) (i + n) c1 = Some res /\
    (forall x, In x (firstn n s) -> accepts ic r x = true) /\
    (forall c0, requires c0 r = true -> In c0 (firstn n s)) /\
    (startsAtBol r = true -> i = 0) /\
    (ml = false -> endsAtEol r = true -> skipn n s = []).
Proof.
  induction r as [|a|r1 IH1 r2 IH2|r1 IH1 r2 IH2|gr a|r1 IH1|g0 r1 IH1| |];
    intros s i c k res H; simpl in H.
  - (* Empty *)
    consumes_nothing c.
  - (* Atom *)
    destruct s as [|x s]; [discriminate|].
    destruct (atom_match ic a x) eqn:Ea; [|discriminate].
    exists 1, c. rewrite Nat.add_1_r. simpl.
    repeat split; auto; try lia; try discriminate.
    + intros y [<-|[]]. exact Ea.
    + intros c0 Hreq. left. destruct a as [ch| | |]; try discriminate.
      apply andb_true_iff in Hreq. destruct Hreq as [Hreq Hneg].
      apply andb_true_iff in Hreq. destruct Hreq as [Hch Hcan].
      apply N.eqb_eq in Hch. subst ch. simpl in Ea.
      apply (chr_match_caseless ic c0 x); [|exact Ea].
      rewrite Hcan, Hneg. reflexivity.
  - (* Seq *)
    apply IH1 in H.
    destruct H as (n1 & c1 & Hn1 & Hk1 & Ha1 & Hr1 & Hb1 & He1).
    apply IH2 in Hk1.
    destruct Hk1 as (n2 & c2 & Hn2 & Hk2 & Ha2 & Hr2 & Hb2 & He2).
    rewrite length_skipn in Hn2.
    exists (n1 + n2), c2. simpl.
    rewrite skipn_skipn in Hk2, He2. rewrite (Nat.add_comm n2 n1) in Hk2, He2.
    rewrite Nat.add_assoc, firstn_plus.
    repeat split; auto; try lia.
    + intros x Hx. apply in_app_or in Hx. apply orb_true_iff.
      destruct Hx; [left | right]; auto.
    + intros c0 Hreq. apply orb_true_iff in Hreq. apply in_or_app.
      destruct Hreq; [left | right]; auto.
  - (* Alt *)
    destruct (mtch ic ml r1 s i c k) eqn:E.
    + inversion H; subst. apply IH1 in E.
      destruct E as (n & c1 & Hn & Hk & Ha & Hr & Hb & He).
      exists n, c1. simpl. repeat split; auto; try discriminate.
      * intros x Hx. apply orb_true_iff. left. auto.
      * intros c0 Hreq. apply andb_true_iff in Hreq. apply Hr, Hreq.
    + apply IH2 in H.
      destruct H as (n & c1 & Hn & Hk & Ha & Hr & Hb & He).
      exists n, c1. simpl. repeat split; auto; try discriminate.
      * intros x Hx. apply orb_true_iff. right. auto.
      * intros c0 Hreq. apply andb_true_iff in Hreq. apply Hr, Hreq.
  - (* Star *)
    assert (exists n, n <= List.length s /\ k (skipn n s) (i + n) c = Some res /\
                      Forall (fun x => atom_match ic a x = true) (firstn n s))
      as (n & Hn & Hk & Hall).
    { destruct gr; [eapply star_greedy_consumes | eapply star_lazy_consumes]; eauto. }
    exists n, c. simpl. repeat split; auto; try discriminate.
    intros x Hx. rewrite Forall_forall in Hall. auto.
  - (* Opt *)
    destruct (mtch ic ml r1 s i c
                (fun s1 i1 c1 => if Nat.eqb i1 i then None else k s1 i1 c1)) eqn:E.
    + inversion H; subst. apply IH1 in E.
      destruct E as (n & c1 & Hn & Hk & Ha & Hr & Hb & He).
      destruct (Nat.eqb (i + n) i); [discriminate|].
      exists n, c1. simpl. repeat split; auto; try discriminate.
    + consumes_nothing c.
  - (* Group *)
    apply IH1 in H. destruct H as (n & c1 & Hn & Hk & Ha & Hr & Hb & He).
    exists n, ((g0, firstn (i + n - i) s) :: c1). simpl.
    repeat split; auto.
  - (* Bol *)
    destruct (Nat.eqb i 0) eqn:E; [|discriminate].
    apply Nat.eqb_eq in E.
    consumes_nothing c.
  - (* Eol *)
    exists 0, c. rewrite Nat.add_0_r. simpl.
    destruct s as [|x s].
    + repeat split; auto; try discriminate; contradiction.
    + destruct (ml && isLineTerminator x) eqn:E; [|discriminate].
      repeat split; auto; try lia; try discriminate; try contradiction.
      intros Hml. subst ml. discriminate.
Qed.

Lemma match_at_consumes re s i m :
  match_at re s i = Some m ->
  exists n,
    n <= List.length s /\
    (forall x, In x (firstn n s) -> accepts (ignoreCase re) (source re) x = true) /\
    (forall c0, requires c0 (source re) = true -> In c0 (firstn n s)) /\
    (startsAtBol (source re) = true -> i = 0) /\
    (multiline re = false -> endsAtEol (source re) = true -> skipn n s = []).
Proof.
  unfold match_at. intros H.
  destruct (mtch (ignoreCase re) (multiline re) (source re) s i []
              (fun _ e c => Some (e, c))) as [[e c]|] eqn:E; [|discriminate].
  apply mtch_consumes in E.
  destruct E as (n & c1 & Hn & _ & Ha & Hr & Hb & He).
  exists n. auto.
Qed.

(** A pattern that requires a character finds nothing in a text without
    it. *)
Lemma scan_requires re c0 :
  requires c0 (source re) = true ->
  forall s i skip, includes c0 s = false -> scan re s i skip = Some [].
Proof.
  intros Hreq. induction s as [|x s IH]; intros i skip Hs.
  - destruct skip; simpl; [|reflexivity].
    destruct (match_at re [] i) eqn:E; [|reflexivity].
    apply match_at_consumes in E. destruct E as (n & _ & _ & Hr & _).
    apply Hr in Hreq. rewrite firstn_nil in Hreq. contradiction.
  - assert (includes c0 s = false) as Hs'.
    { simpl in Hs. apply orb_false_iff in Hs. apply Hs. }
    destruct skip as [|skip]; simpl; [|apply IH, Hs'].
    destruct (match_at re (x :: s) i) eqn:E; [|apply IH, Hs'].
    apply match_at_consumes in E. destruct E as (n & _ & _ & Hr & _).
    apply Hr in Hreq. assert (In c0 (x :: s)) as Hin
      by (rewrite <- (firstn_skipn n (x :: s)); apply in_or_app; left; exact Hreq).
    apply includes_In in Hin. congruence.
Qed.

(** A pattern between [^] and [$] does not match a text with a character
    that none of its atoms accepts. *)
Lemma search_anchored re :
  startsAtBol (source re) = true -> endsAtEol (source re) = true ->
  multiline re = false ->
  forall s i,
    (i = 0 -> exists x, In x s /\ accepts (ignoreCase re) (source re) x = false) ->
    search re s i = None.
Proof.
  intros Hb He Hml.
  assert (forall s i,
    (i = 0 -> exists x, In x s /\ accepts (ignoreCase re) (source re) x = false) ->
    match_at re s i = None) as Hat.
  { intros s i Hbad. destruct (match_at re s i) eqn:E; [|reflexivity].
    apply match_at_consumes in E.
    destruct E as (n & Hn & Ha & _ & Hi & Hend).
    destruct (Hbad (Hi Hb)) as (x & Hx & Hacc).
    specialize (Hend Hml He).
    rewrite <- (firstn_skipn n s), Hend, app_nil_r in Hx.
    rewrite (Ha x Hx) in Hacc. discriminate. }
  induction s as [|x s IH]; intros i Hbad; simpl; rewrite (Hat _ _ Hbad).
  - reflexivity.
  - apply IH. intros Hi. discriminate.
Qed.

(* ================================================================= *)
(** ** Calls that return *)

Lemma returns_ret {A} (a : A) : returns (ret a).
Proof. intros this. exists a, this. reflexivity. Qed.

Lemma returns_update f : returns (update f).
Proof. intros this. exists tt, (f this). reflexivity. Qed.

Lemma returns_bind {A B} (P : A -> Prop) (m : M A) (k : A -> M B) :
  returnsSome P m -> (forall a, P a -> returns (k a)) -> returns (bind m k).
Proof.
  intros Hm Hk this. unfold bind.
  destruct (Hm this) as (a & this' & E & Ha). rewrite E. apply Hk, Ha.
Qed.

Lemma returns_seq {A B} (m : M A) (k : A -> M B) :
  returns m -> (forall a, returns (k a)) -> returns (bind m k).
Proof.
  intros Hm Hk. apply (@returns_bind A B (fun _ => True)); [|auto].
  intros this. destruct (Hm this) as (a & this' & E). eauto.
Qed.

Lemma returns_forEach {A} (P : A -> Prop) (f : A -> M unit) l :
  Forall P l -> (forall x, P x -> returns (f x)) -> returns (forEach f l).
Proof.
  intros Hl Hf. induction Hl as [|x l Hx Hl IH]; simpl.
  - apply returns_ret.
  - apply returns_seq; auto.
Qed.

Lemma returns_forEach_all {A} (f : A -> M unit) l :
  (forall x, returns (f x)) -> returns (forEach f l).
Proof.
  intros Hf. apply (@returns_forEach A (fun _ => True)); [|auto].
  apply Forall_forall. auto.
Qed.

Lemma returns_capture {B} re len m g (k : str -> M B) :
  wellFormed re len m -> sets (source re) g = true ->
  (forall v, List.length v + outside (source re) <= len -> returns (k v)) ->
  returns (bind (defined (capture g m)) k).
Proof.
  intros [Hs Hc] Hg Hk this. unfold bind.
  specialize (Hs g Hg). destruct (capture g m) as [v|] eqn:E; [|congruence].
  simpl. apply Hk. eapply Hc, E.
Qed.

Lemma returns_loopMatches re s :
  0 < outside (source re) ->
  returnsSome (Forall (wellFormed re (List.length s))) (loopMatches re s).
Proof.
  intros Hpos this. unfold loopMatches.
  destruct (execLoop_returns re s Hpos) as (ms & E & Hall).
  rewrite E. exists ms, this. auto.
Qed.

Lemma parseJoinCondition_returns condition :
  returns (parseJoinCondition condition).
Proof.
  unfold parseJoinCondition.
  eapply returns_bind; [apply returns_loopMatches; vm_compute; lia|].
  intros ms Hms. eapply returns_forEach; [exact Hms|].
  intros m Hm.
  eapply returns_capture; [exact Hm | reflexivity | intros leftTable _].
  eapply returns_capture; [exact Hm | reflexivity | intros leftColumn _].
  eapply returns_capture; [exact Hm | reflexivity | intros rightTable _].
  eapply returns_capture; [exact Hm | reflexivity | intros rightColumn _].
  apply returns_update.
Qed.

Lemma parseJoins_returns query : returns (parseJoins query).
Proof.
  unfold parseJoins.
  eapply returns_bind; [apply returns_loopMatches; vm_compute; lia|].
  intros ms Hms. eapply returns_forEach; [exact Hms|].
  intros m Hm.
  eapply returns_capture; [exact Hm | reflexivity | intros tableName _].
  eapply returns_capture; [exact Hm | reflexivity | intros onCondition _].
  apply returns_seq; [apply returns_update|].
  intros _. apply parseJoinCondition_returns.
Qed.

Lemma extractTable_returns part : returns (extractTable part).
Proof.
  unfold extractTable.
  destruct (includes (chr "(") (trim part)); [apply returns_ret|].
  pose proof (splitRe_whitespace_nonempty (trim part)) as Hne.
  destruct (splitRe whitespace (trim part)) as [|tableName rest];
    [congruence|].
  intros this. simpl. unfold bind. simpl. apply returns_update.
Qed.

Lemma parseFromClause_returns query : returns (parseFromClause query).
Proof.
  unfold parseFromClause. apply returns_forEach_all. intros match_.
  unfold extractTablesFromString. apply returns_forEach_all.
  apply extractTable_returns.
Qed.

Lemma parseSelectColumn_returns col : returns (parseSelectColumn col).
Proof.
  unfold parseSelectColumn.
  destruct (includes (chr "(") (trim col) && _); [apply returns_ret|].
  destruct (exec columnPattern (trim col)) as [m|] eqn:E; [|apply returns_ret].
  apply exec_wellFormed in E.
  eapply returns_capture; [exact E | reflexivity | intros tableRef _].
  eapply returns_capture; [exact E | reflexivity | intros columnName _].
  apply returns_update.
Qed.

Lemma parseSelectClause_returns query : returns (parseSelectClause query).
Proof.
  unfold parseSelectClause.
  destruct (exec selectPattern query) as [m|] eqn:E; [|apply returns_ret].
  apply exec_wellFormed in E.
  eapply returns_capture; [exact E | reflexivity | intros selectClause _].
  unfold parseSelectColumns.
  destruct (str_eqb (trim selectClause) (lit "*")); [apply returns_ret|].
  apply returns_forEach_all, parseSelectColumn_returns.
Qed.

Lemma returns_onNewParser {A} (call : M A) :
  returns call -> returns (onNewParser call).
Proof.
  intros H this. unfold onNewParser.
  destruct (H constructor) as (a & this' & E). rewrite E. simpl. eauto.
Qed.

Section RecursionReturns.

Variable parseQuery : value -> M Graph.t.
Variable bound : nat.
Hypothesis recursive_call_returns :
  forall s, List.length s < bound -> returns (parseQuery (JSString s)).

Lemma parseCTEs_returns withClause :
  List.length withClause <= bound -> returns (parseCTEs parseQuery withClause).
Proof.
  intros Hlen. unfold parseCTEs.
  eapply returns_bind; [apply returns_loopMatches; vm_compute; lia|].
  intros ms Hms. eapply returns_forEach; [exact Hms|].
  intros m Hm.
  eapply returns_capture; [exact Hm | reflexivity | intros cteName _].
  eapply returns_capture; [exact Hm | reflexivity | intros cteQuery Hq].
  apply returns_seq; [apply returns_update|]. intros _.
  apply returns_seq.
  - apply returns_onNewParser, recursive_call_returns.
    assert (0 < outside (source ctePattern)) by (vm_compute; lia). lia.
  - intros subResult. apply returns_forEach_all. intros table.
    apply returns_update.
Qed.

Lemma parseWithClause_returns query :
  List.length query <= bound -> returns (parseWithClause parseQuery query).
Proof.
  intros Hlen. unfold parseWithClause.
  destruct (exec withPattern query) as [m|] eqn:E; [|apply returns_ret].
  apply exec_wellFormed in E.
  eapply returns_capture; [exact E | reflexivity | intros withClause Hw].
  apply parseCTEs_returns. lia.
Qed.

End RecursionReturns.

Lemma cleanQuery_returns s :
  returnsSome (fun q => List.length q <= List.length s) (cleanQuery (JSString s)).
Proof.
  intros this. eexists. exists this. split; [reflexivity|].
  etransitivity; [apply trim_length|].
  etransitivity; [apply replaceG_length; vm_compute; lia|].
  etransitivity; [apply replaceG_length; vm_compute; lia|].
  apply replaceG_length; vm_compute; lia.
Qed.

(** The recursion is bounded by the length of the text. *)
Lemma parseQuery_fuel_enough : forall fuel s,
  List.length s < fuel -> returns (parseQuery_fuel fuel (JSString s)).
Proof.
  induction fuel as [|fuel IH]; intros s Hlen; [lia|].
  simpl. unfold parseQuery_body.
  eapply returns_bind; [apply cleanQuery_returns|]. intros q Hq.
  cbv beta in Hq.
  apply returns_seq; [apply returns_update | intros _].
  apply returns_seq; [apply parseFromClause_returns | intros _].
  apply returns_seq; [apply parseJoins_returns | intros _].
  apply returns_seq; [apply parseSelectClause_returns | intros _].
  apply returns_seq.
  - apply parseWithClause_returns with (bound := fuel); [|lia].
    intros s' Hs'. apply IH, Hs'.
  - intros _ this. eauto.
Qed.

(* ================================================================= *)
(** ** The bound on the recursion does not change what is returned *)

Lemma approx_refl {A} (m : M A) : approx m m.
Proof. intros this a this' H. exact H. Qed.

Lemma approx_bind {A B} (m1 m2 : M A) (k1 k2 : A -> M B) :
  approx m1 m2 -> (forall a, approx (k1 a) (k2 a)) ->
  approx (bind m1 k1) (bind m2 k2).
Proof.
  intros Hm Hk this b this'' H. unfold bind in *.
  destruct (m1 this) as [[a|f] this'] eqn:E; [|discriminate].
  rewrite (Hm _ _ _ E). apply Hk, H.
Qed.

Lemma approx_forEach {A} (f g : A -> M unit) l :
  (forall x, approx (f x) (g x)) -> approx (forEach f l) (forEach g l).
Proof.
  intros Hf. induction l as [|x l IH]; simpl.
  - apply approx_refl.
  - apply approx_bind; auto.
Qed.

Lemma approx_onNewParser {A} (m1 m2 : M A) :
  approx m1 m2 -> approx (onNewParser m1) (onNewParser m2).
Proof.
  intros Hm this a this' H. unfold onNewParser in *.
  destruct (m1 constructor) as [[a1|f] this1] eqn:E; simpl in H;
    [|discriminate].
  rewrite (Hm _ _ _ E). exact H.
Qed.

Lemma parseQuery_body_approx (f g : value -> M Graph.t) :
  (forall q, approx (f q) (g q)) ->
  forall q, approx (parseQuery_body f q) (parseQuery_body g q).
Proof.
  intros Hfg q. unfold parseQuery_body.
  apply approx_bind; [apply approx_refl | intros cq].
  apply approx_bind; [apply approx_refl | intros _].
  apply approx_bind; [apply approx_refl | intros _].
  apply approx_bind; [apply approx_refl | intros _].
  apply approx_bind; [apply approx_refl | intros _].
  apply approx_bind; [|intros _; apply approx_refl].
  unfold parseWithClause. destruct (exec withPattern cq); [|apply approx_refl].
  apply approx_bind; [apply approx_refl | intros withClause].
  unfold parseCTEs.
  apply approx_bind; [apply approx_refl | intros ms].
  apply approx_forEach. intros m'.
  apply approx_bind; [apply approx_refl | intros cteName].
  apply approx_bind; [apply approx_refl | intros cteQuery].
  apply approx_bind; [apply approx_refl | intros _].
  apply approx_bind; [|intros subResult; apply approx_refl].
  apply approx_onNewParser, Hfg.
Qed.

Lemma parseQuery_fuel_approx : forall fuel more q,
  approx (parseQuery_fuel fuel q) (parseQuery_fuel (fuel + more) q).
Proof.
  induction fuel as [|fuel IH]; intros more q.
  - intros this a this' H. discriminate.
  - simpl. apply parseQuery_body_approx. intros q'. apply IH.
Qed.

(** With any bound above the length of the text, [parseQuery_fuel] is
    [parseQuery]. *)
Lemma parseQuery_fuel_stable fuel s this :
  List.length s < fuel ->
  parseQuery_fuel fuel (JSString s) this = parseQuery (JSString s) this.
Proof.
  intros Hlen. unfold parseQuery. cbn [fuelFor].
  destruct (@parseQuery_fuel_enough (S (List.length s)) s (Nat.lt_succ_diag_r _) this)
    as (g & this' & E).
  rewrite E.
  replace fuel with (S (List.length s) + (fuel - S (List.length s))) by lia.
  eapply parseQuery_fuel_approx, E.
Qed.

(* ================================================================= *)
(** ** The examples, evaluated *)

(** C1 as stated fails: on the query of the claim the parser returns
    [cteQuery_graph], which has no table [src], whose table [x] is of kind
    [table], and whose only relationship is of kind [cte] and starts
    at [s]. *)
Lemma cte_flow_as_stated_fails :
  fst (parseQuery (JSString cteQuery_example) constructor) = Ok cteQuery_graph /\
  ~ has_table_src cteQuery_graph /\
  ~ has_cte_x cteQuery_graph /\
  ~ has_flow_src_x cteQuery_graph.
Proof.
  split; [vm_compute; reflexivity|].
  unfold has_table_src, has_cte_x, has_flow_src_x. repeat split.
  - intros (t & [<-|[<-|[]]] & [H|H]); discriminate.
  - intros (t & [<-|[<-|[]]] & _ & H); discriminate.
  - intros (r & [<-|[]] & H & _); discriminate.
Qed.

(** C1, amended. On [WITH x AS (SELECT * FROM src) SELECT * FROM x] the
    parser returns a graph with a table of id [x], of kind [table] because
    the FROM pass registers it before the CTE pass, and with exactly one
    relationship: its source is the name of the one table that the parse of
    the CTE body returns, its source and target columns are the wildcard,
    its target is [x] and its kind is [cte]. *)
Theorem cte_example_flow (this : SQLParser) :
  exists g sub t r,
    fst (parseQuery (JSString cteQuery_example) this) = Ok g /\
    In (table "x" "x" None "table" []) (Graph.tables g) /\
    fst (parseQuery (JSString (lit "SELECT * FROM src")) constructor) = Ok sub /\
    Graph.tables sub = [t] /\
    Graph.relationships g = [r] /\
    Relationship.source r = Table.name t /\
    Relationship.sourceColumn r = lit "*" /\
    Relationship.target r = lit "x" /\
    Relationship.targetColumn r = lit "*" /\
    Relationship.type r = lit "cte".
Proof.
  exists cteQuery_graph.
  exists {| Graph.tables := [table "s" "s" None "table" []];
            Graph.relationships := []; Graph.columns := [] |}.
  exists (table "s" "s" None "table" []).
  exists (relationship "s" "*" "x" "*" "cte").
  split; [vm_compute; reflexivity|].
  split; [right; left; reflexivity|].
  split; [vm_compute; reflexivity|].
  repeat split.
Qed.

(** C2, on the code. On [FROM bronze.customers c] the group of
    [fromPattern] stops at the [r] of [bronze], a letter of the class, and
    the parser returns one table, of id and name [b] and without alias. *)
Theorem from_alias_example_stops_at_class_letter (this : SQLParser) :
  fst (parseQuery (JSString fromAlias_example) this) = Ok fromAlias_graph /\
  matchG fromPattern fromAlias_example = [lit "FROM b"].
Proof. split; vm_compute; reflexivity. Qed.

(** C3, on the code. On [FROM a JOIN b ON a.id = b.a_id] neither
    [fromPattern] nor [joinPattern] matches, the letter [a] being in the
    class that their last group excludes, and the parser returns the empty
    graph; [parseJoinCondition] on the condition itself produces the
    relationship of the claim. *)
Theorem join_example_is_empty (this : SQLParser) :
  fst (parseQuery (JSString join_example) this) = Ok Graph.empty /\
  matchG fromPattern join_example = [] /\
  execLoop joinPattern join_example = Some [] /\
  relationships (snd (parseJoinCondition (lit "a.id = b.a_id") constructor))
  = [relationship "a" "id" "b" "a_id" "join"].
Proof. repeat split; vm_compute; reflexivity. Qed.

(** C4, on the code. On [SELECT t.foo, t.bar AS baz FROM t] the parser
    returns the two columns of the claim and no table: [fromPattern] does
    not match [FROM t], the letter [t] being in its class, so there is no
    table [t] for [addColumn] to attach the columns to. *)
Theorem projection_example_has_no_table (this : SQLParser) :
  fst (parseQuery (JSString projection_example) this) = Ok projection_graph /\
  matchG fromPattern projection_example = [].
Proof. split; vm_compute; reflexivity. Qed.

(* ================================================================= *)
(** ** The CTE pass *)



Section Within.

Variable R : SQLParser -> SQLParser -> Prop.
Hypothesis R_refl : forall a, R a a.

Hypothesis R_trans : forall a b c, R a b -> R b c -> R a c.

Lemma within_ret {A} (a : A) : within R (ret a).
Proof. intros this. apply R_refl. Qed.

Lemma within_fail {A} f : within R (@fail A f).
Proof. intros this. apply R_refl. Qed.

Lemma within_bind {A B} (m : M A) (k : A -> M B) :
  within R m -> (forall a, within R (k a)) -> within R (bind m k).
Proof.
  intros Hm Hk this. unfold bind. specialize (Hm this).
  destruct (m this) as [[a|f] this']; simpl in *.
  - eapply R_trans; [exact Hm | apply Hk].
  - exact Hm.
Qed.

Lemma within_forEach {A} (f : A -> M unit) l :
  (forall x, within R (f x)) -> within R (forEach f l).
Proof.
  intros Hf. induction l as [|x l IH]; simpl.
  - apply within_ret.
  - apply within_bind; auto.
Qed.

Lemma within_defined {A} (o : option A) : within R (defined o).
Proof. destruct o; [apply within_ret | apply within_fail]. Qed.



End Within.




(* ================================================================= *)
(** ** Every text is parsed *)

(** A segment of the FROM list with a parenthesis registers no table. *)
Lemma extractTable_skips_subquery part this :
  includes (chr "(") (trim part) = true ->
  extractTable part this = (Ok tt, this).
Proof. unfold extractTable. intros ->. reflexivity. Qed.

(** An item of the SELECT list with a parenthesis registers no column. *)
Lemma parseSelectColumn_skips_call col this :
  includes (chr "(") (trim col) = true ->
  parseSelectColumn col this = (Ok tt, this).
Proof.
  unfold parseSelectColumn. intros H. rewrite H.
  unfold exec. rewrite search_anchored; try reflexivity.
  intros _. exists (chr "("). split; [apply includes_In, H | reflexivity].
Qed.

(** A condition without an equals sign adds no relationship. *)
Lemma parseJoinCondition_skips_inequality condition this :
  includes (chr "=") condition = false ->
  parseJoinCondition condition this = (Ok tt, this).
Proof.
  intros H. unfold parseJoinCondition, loopMatches, execLoop, bind.
  rewrite (@scan_requires conditionPattern (chr "=")); [reflexivity | reflexivity | exact H].
Qed.

(** A text in which no pass finds its pattern yields the empty graph. *)
Lemma parseQuery_nothing_recognized s this :
  let q := trim (replaceG whitespace (lit " ")
                   (replaceG blockComment [] (replaceG lineComment [] s))) in
  matchG fromPattern q = [] ->
  execLoop joinPattern q = Some [] ->
  exec selectPattern q = None ->
  exec withPattern q = None ->
  parseQuery (JSString s) this = (Ok Graph.empty, constructor).
Proof.
  intros q Hfrom Hjoin Hselect Hwith.
  unfold parseQuery. cbn [fuelFor parseQuery_fuel].
  unfold parseQuery_body, cleanQuery, bind, ret. fold q.
  unfold parseFromClause, parseJoins, loopMatches, parseSelectClause,
    parseWithClause, bind, ret, update.
  rewrite Hfrom, Hjoin, Hselect, Hwith. reflexivity.
Qed.

(** C6 as stated fails on what it calls unrecognized constructs: the
    expression [b.x + 1] of a SELECT list registers the column [b.x], and
    the subquery [(SELECT 1 FROM b) t] of a FROM list registers a table,
    named after the text that follows its inner FROM. *)
Lemma expression_and_subquery_contribute :
  (exists g,
     fst (parseQuery (JSString expression_example) constructor) = Ok g /\
     Graph.columns g = [column "b" "x" None] /\ Graph.columns g <> []) /\
  (exists g,
     fst (parseQuery (JSString subquery_example) constructor) = Ok g /\
     Graph.tables g = [table "b)" "b)" None "table" []] /\
     Graph.tables g <> []).
Proof.
  split; eexists; (split; [vm_compute; reflexivity|]);
    (split; [reflexivity | discriminate]).
Qed.

(* ================================================================= *)
(** ** Absent input, and the state of the instance *)

(** C10. On [null] and on [undefined], [parseQuery] throws a [TypeError]
    and leaves the instance as it was, the fields not yet reset; on the
    empty string it returns the empty graph. *)
Theorem parseQuery_absent_input (this : SQLParser) :
  parseQuery JSNull this = (Fail TypeError, this) /\
  parseQuery JSUndefined this = (Fail TypeError, this) /\
  parseQuery (JSString []) this = (Ok Graph.empty, constructor).
Proof. repeat split. Qed.

Lemma parseQuery_fuel_resets fuel sqlQuery s this1 this2 :
  sqlQuery = JSString s ->
  parseQuery_fuel (S fuel) sqlQuery this1 = parseQuery_fuel (S fuel) sqlQuery this2.
Proof. intros ->. reflexivity. Qed.

(** C7. The graph that [parseQuery] returns depends on the text only: two
    calls on the same text return the same outcome whatever the states of
    the instances they run on, in particular a call on an instance that has
    parsed another text before and a call on a new instance; on a string
    the two calls leave the instances in the same state as well. *)
Theorem parseQuery_deterministic (sqlQuery : value) (this1 this2 : SQLParser) :
  fst (parseQuery sqlQuery this1) = fst (parseQuery sqlQuery this2) /\
  (forall earlier,
     fst (parseQuery sqlQuery (snd (parseQuery earlier this1)))
     = fst (parseQuery sqlQuery constructor)) /\
  (forall s, parseQuery (JSString s) this1 = parseQuery (JSString s) this2).
Proof.
  assert (forall s a b, parseQuery (JSString s) a = parseQuery (JSString s) b)
    as Hstring.
  { intros s a b. unfold parseQuery. cbn [fuelFor].
    apply (@parseQuery_fuel_resets _ _ s a b eq_refl). }
  assert (forall a b, fst (parseQuery sqlQuery a) = fst (parseQuery sqlQuery b))
    as H.
  { intros a b. destruct sqlQuery as [| |s]; [reflexivity | reflexivity |].
    rewrite (Hstring s a b). reflexivity. }
  split; [apply H|]. split; [intros earlier; apply H|].
  intros s. apply Hstring.
Qed.

(* ================================================================= *)
(** ** The splitter *)

Lemma depthAfter_snoc before x :
  depthAfter (before ++ [x]) =
  (depthAfter before
   + (if (x =? chr "(")%N then 1 else if (x =? chr ")")%N then -1 else 0))%Z.
Proof.
  unfold depthAfter. rewrite !count_occ_app. cbn [count_occ].
  unfold char in *.
  destruct (N.eq_dec x (chr "(")) as [E1|E1];
    destruct (N.eq_dec x (chr ")")) as [E2|E2].
  - subst. discriminate.
  - subst. rewrite N.eqb_refl. cbv iota. lia.
  - subst. rewrite N.eqb_refl.
    change (chr ")" =? chr "(")%N with false. cbv iota. lia.
  - apply N.eqb_neq in E1, E2. rewrite E1, E2. lia.
Qed.

Lemma segments_nonempty counted d : forall s before current,
  segments counted d before s current <> [].
Proof.
  induction s as [|x s IH]; intros before current; simpl; [discriminate|].
  destruct ((x =? d)%N && (depthAt counted before x =? 0)%Z);
    [discriminate | apply IH].
Qed.

(** At a character that is not a parenthesis the two readings of the depth
    agree. *)
Lemma depthAt_plain counted before x :
  (x =? chr "(")%N = false -> (x =? chr ")")%N = false ->
  depthAt counted before x = depthAfter before.
Proof.
  intros E1 E2. unfold depthAt. destruct counted; [|reflexivity].
  rewrite depthAfter_snoc, E1, E2. lia.
Qed.

Lemma smartSplit_loop_segments counted d :
  d <> chr "(" -> d <> chr ")" ->
  forall s before result current,
    smartSplit_loop [d] s result current (depthAfter before) =
    (result ++ List.map trim (removelast (segments counted d before s current)),
     last (segments counted d before s current) []).
Proof.
  intros Ho Hc. induction s as [|x s IH]; intros before result current.
  - simpl. rewrite app_nil_r. reflexivity.
  - cbn [smartSplit_loop segments]. rewrite str_eqb_single.
    pose proof (depthAfter_snoc before x) as Hd.
    pose proof (fun result current => IH (before ++ [x]) result current) as IH'.
    rewrite Hd in IH'. clear IH Hd.
    destruct (x =? chr "(")%N eqn:E1.
    + apply N.eqb_eq in E1. subst x.
      replace (chr "(" =? d)%N with false
        by (symmetry; apply N.eqb_neq; congruence).
      apply IH'.
    + destruct (x =? chr ")")%N eqn:E2.
      * apply N.eqb_eq in E2. subst x.
        replace (chr ")" =? d)%N with false
          by (symmetry; apply N.eqb_neq; congruence).
        apply IH'.
      * rewrite Z.add_0_r in IH'. rewrite (depthAt_plain counted before x E1 E2).
        destruct ((x =? d)%N && (depthAfter before =? 0)%Z).
        -- rewrite IH'.
           pose proof (segments_nonempty counted d s (before ++ [x]) []) as Hne.
           destruct (segments counted d (before ++ [x]) s []) as [|seg segs] eqn:E;
             [congruence|].
           cbn [removelast last List.map]. rewrite <- app_assoc. reflexivity.
        -- apply IH'.
Qed.

Lemma smartSplit_loop_parenthesis d :
  d = chr "(" \/ d = chr ")" ->
  forall s result current depth,
    smartSplit_loop [d] s result current depth = (result, current ++ s).
Proof.
  intros Hd. induction s as [|x s IH]; intros result current depth.
  - simpl. rewrite app_nil_r. reflexivity.
  - cbn [smartSplit_loop]. rewrite str_eqb_single.
    replace (current ++ x :: s) with ((current ++ [x]) ++ s)
      by (rewrite <- app_assoc; reflexivity).
    destruct (x =? chr "(")%N eqn:E1; [apply IH|].
    destruct (x =? chr ")")%N eqn:E2; [apply IH|].
    replace (x =? d)%N with false; [apply IH|].
    symmetry. apply N.eqb_neq. apply N.eqb_neq in E1, E2.
    destruct Hd; congruence.
Qed.

(** C8, amended. For every string and every delimiter character other than
    the two parentheses, [smartSplit] returns the trimmed segments obtained
    by splitting at exactly the occurrences of the delimiter at which the
    parenthesis depth is zero, the last segment being emitted only when it
    is not empty once trimmed; when the delimiter is itself a parenthesis it
    only counts for the depth and the string is not split at all. *)
Theorem smartSplit_at_depth_zero (counted : bool) (s : str) (d : char) :
  (d <> chr "(" -> d <> chr ")" ->
   smartSplit s [d] = splitAtDepthZero counted s d) /\
  (d = chr "(" \/ d = chr ")" ->
   smartSplit s [d] = if isEmpty (trim s) then [] else [trim s]).
Proof.
  split.
  - intros Ho Hc. unfold smartSplit, splitAtDepthZero.
    change 0%Z with (depthAfter []).
    rewrite (smartSplit_loop_segments counted Ho Hc). simpl app.
    assert (Hlast : forall l, last (List.map trim l) [] = trim (last l []))
      by (intros l; exact (last_map trim l [])).
    rewrite !Hlast, removelast_map.
    destruct (isEmpty (trim (last (segments counted d [] s []) []))); simpl;
      [rewrite app_nil_r|]; reflexivity.
  - intros Hd. unfold smartSplit.
    rewrite (smartSplit_loop_parenthesis Hd). simpl app.
    destruct (isEmpty (trim s)); reflexivity.
Qed.

Lemma smartSplit_at_depth_zero_witness :
  smartSplit (lit "f(a, b), c ,") [chr ","] = [lit "f(a, b)"; lit "c"] /\
  smartSplit (lit "a ( b") [chr "("] = [lit "a ( b"].
Proof.
  split.
  - rewrite (proj1 (smartSplit_at_depth_zero false (lit "f(a, b), c ,") (chr ",")));
      [reflexivity | discriminate | discriminate].
  - rewrite (proj2 (smartSplit_at_depth_zero false (lit "a ( b") (chr "(")));
      [reflexivity | left; reflexivity].
Defined.

(** C8 as stated fails when the delimiter is a parenthesis.  In [a(b))(c]
    the first opening parenthesis stands at depth zero, and the second one
    brings the depth back to zero: whichever way the depth at a parenthesis
    is read, the claim splits the string, and [smartSplit] does not. *)
Lemma smartSplit_parenthesis_delimiter :
  smartSplit (lit "a(b))(c") [chr "("] = [lit "a(b))(c"] /\
  splitAtDepthZero false (lit "a(b))(c") (chr "(") = [lit "a"; lit "b))(c"] /\
  splitAtDepthZero true (lit "a(b))(c") (chr "(") = [lit "a(b))"; lit "c"] /\
  (forall counted,
     smartSplit (lit "a(b))(c") [chr "("]
     <> splitAtDepthZero counted (lit "a(b))(c") (chr "(")).
Proof.
  repeat split; try reflexivity. intros [|]; discriminate.
Qed.

(* ================================================================= *)
(** ** Registration of tables *)

Lemma addTable_noop name alias type this :
  Map.has (tableIdOf name alias) (tables this) = true ->
  addTable name alias type this = this.
Proof.
  unfold addTable, tableIdOf. intros H. rewrite H. reflexivity.
Qed.

Lemma addTable_keeps name alias type this id entry :
  Map.get id (tables this) = Some entry ->
  Map.get id (tables (addTable name alias type this)) = Some entry.
Proof.
  intros Hget. unfold addTable.
  destruct (Map.has _ (tables this)) eqn:Hhas; simpl; [exact Hget|].
  apply Map_get_set_new; assumption.
Qed.

(** C9. Table registration is first-write-wins: once an id is in the table
    map, the entry stored under it is the same after any further sequence
    of registrations, and a registration under that id, whatever its name,
    alias or kind, leaves the whole state of the parser as it is. *)
Theorem addTable_first_write_wins (rs : list registration)
    (this : SQLParser) (id : str) (entry : Table.t) :
  Map.get id (tables this) = Some entry ->
  Map.get id (tables (registerAll rs this)) = Some entry /\
  (forall name alias type,
     tableIdOf name alias = id ->
     addTable name alias type (registerAll rs this) = registerAll rs this).
Proof.
  intros Hget.
  assert (Map.get id (tables (registerAll rs this)) = Some entry) as Hkept.
  { revert this Hget. induction rs as [|r rs IH]; intros this Hget; simpl.
    - exact Hget.
    - apply IH. unfold register. apply addTable_keeps, Hget. }
  split; [exact Hkept|].
  intros name alias type Hid. apply addTable_noop. rewrite Hid.
  apply Map_has_get. congruence.
Qed.

Lemma addTable_first_write_wins_witness :
  Map.get (lit "c") (tables registered_example)
  = Some (table "c" "bronze.customers" (Some (lit "c")) "table" []) /\
  Map.get (lit "c") (tables (registerAll registrations_example registered_example))
  = Some (table "c" "bronze.customers" (Some (lit "c")) "table" []) /\
  addTable (lit "gold.metrics") (Some (lit "c")) (lit "cte")
    (registerAll registrations_example registered_example)
  = registerAll registrations_example registered_example.
Proof.
  assert (Map.get (lit "c") (tables registered_example)
          = Some (table "c" "bronze.customers" (Some (lit "c")) "table" []))
    as Hget by reflexivity.
  destruct (@addTable_first_write_wins registrations_example
              registered_example (lit "c") _ Hget) as [Hkept Hnoop].
  split; [exact Hget|]. split; [exact Hkept|].
  apply Hnoop. reflexivity.
Defined.

(* ================================================================= *)
(** ** The captures of a match *)

Lemma segment_of_suffix {A} (s : list A) n v :
  (exists a b, skipn n s = a ++ v ++ b) -> exists a b, s = a ++ v ++ b.
Proof.
  intros (a & b & E). exists (firstn n s ++ a), b.
  rewrite <- (firstn_skipn n s) at 1. rewrite E, app_assoc. reflexivity.
Qed.

(** A capture found under a sub-pattern is a capture of the pattern. *)
Ltac capture_lifts Hseg Hacc Hne :=
  split; [|split];
  [ first [exact Hseg | eapply segment_of_suffix, Hseg]
  | eapply Forall_impl; [|exact Hacc];
    let x := fresh "x" in let Hx := fresh "Hx" in
    intros x Hx; simpl; rewrite Hx, ?orb_true_r; reflexivity
  | let Hb := fresh "Hb" in
    intros Hb; simpl in Hb; try (apply andb_true_iff in Hb);
    first [apply Hne, Hb | apply Hne; exact Hb] ].

Ltac accepted_lifts Ha :=
  eapply Forall_impl; [|exact Ha];
  let x := fresh "x" in let Hx := fresh "Hx" in
  intros x Hx; simpl; rewrite Hx, ?orb_true_r; reflexivity.

Lemma mtch_captures ic ml : forall r s i c k res,
  mtch ic ml r s i c k = Some res ->
  exists n c1,
    n <= List.length s /\ minLen r <= n /\
    k (skipn n s) (i + n) c1 = Some res /\
    Forall (fun x => accepts ic r x = true) (firstn n s) /\
    (forall g v, getcap g c1 = Some v ->
       getcap g c = Some v \/
       ((exists a b, s = a ++ v ++ b) /\
        Forall (fun x => groupAccepts ic r g x = true) v /\
        (groupNonempty r g = true -> v <> []))).
Proof.
  induction r as [|a|r1 IH1 r2 IH2|r1 IH1 r2 IH2|gr a|r1 IH1|g0 r1 IH1| |];
    intros s i c k res H; simpl in H.
  - consumes_nothing c.
  - destruct s as [|x s]; [discriminate|].
    destruct (atom_match ic a x) eqn:Ea; [|discriminate].
    exists 1, c. rewrite Nat.add_1_r. simpl.
    repeat split; auto; try lia.
  - apply IH1 in H. destruct H as (n1 & c1 & Hn1 & Hm1 & Hk1 & Ha1 & Hc1).
    apply IH2 in Hk1. destruct Hk1 as (n2 & c2 & Hn2 & Hm2 & Hk2 & Ha2 & Hc2).
    rewrite length_skipn in Hn2.
    exists (n1 + n2), c2.
    rewrite skipn_skipn in Hk2. rewrite (Nat.add_comm n2 n1) in Hk2.
    rewrite Nat.add_assoc, firstn_plus.
    split; [lia|]. split; [simpl; lia|]. split; [exact Hk2|]. split.
    + apply Forall_app. split; [accepted_lifts Ha1 | accepted_lifts Ha2].
    + intros g v Hg. destruct (Hc2 g v Hg) as [Hg1|(Hseg & Hacc & Hne)].
      * destruct (Hc1 g v Hg1) as [Hg0|(Hseg & Hacc & Hne)]; [auto|]. right.
        capture_lifts Hseg Hacc Hne.
      * right. capture_lifts Hseg Hacc Hne.
  - destruct (mtch ic ml r1 s i c k) eqn:E.
    + inversion H; subst. apply IH1 in E.
      destruct E as (n & c1 & Hn & Hm & Hk & Ha & Hc).
      exists n, c1.
      split; [lia|]. split; [simpl; lia|]. split; [exact Hk|]. split.
      * accepted_lifts Ha.
      * intros g v Hg. destruct (Hc g v Hg) as [|(Hseg & Hacc & Hne)]; [auto|].
        right. capture_lifts Hseg Hacc Hne.
    + apply IH2 in H.
      destruct H as (n & c1 & Hn & Hm & Hk & Ha & Hc).
      exists n, c1.
      split; [lia|]. split; [simpl; lia|]. split; [exact Hk|]. split.
      * accepted_lifts Ha.
      * intros g v Hg. destruct (Hc g v Hg) as [|(Hseg & Hacc & Hne)]; [auto|].
        right. capture_lifts Hseg Hacc Hne.
  - assert (exists n, n <= List.length s /\ k (skipn n s) (i + n) c = Some res /\
                      Forall (fun x => atom_match ic a x = true) (firstn n s))
      as (n & Hn & Hk & Hall).
    { destruct gr; [eapply star_greedy_consumes | eapply star_lazy_consumes]; eauto. }
    exists n, c. simpl. repeat split; auto; try lia.
  - destruct (mtch ic ml r1 s i c
                (fun s1 i1 c1 => if Nat.eqb i1 i then None else k s1 i1 c1)) eqn:E.
    + inversion H; subst. apply IH1 in E.
      destruct E as (n & c1 & Hn & Hm & Hk & Ha & Hc).
      destruct (Nat.eqb (i + n) i); [discriminate|].
      exists n, c1. simpl. repeat split; auto; try lia.
    + consumes_nothing c.
  - apply IH1 in H. destruct H as (n & c1 & Hn & Hm & Hk & Ha & Hc).
    replace (i + n - i) with n in Hk by lia.
    exists n, ((g0, firstn n s) :: c1).
    split; [lia|]. split; [simpl; lia|]. split; [exact Hk|].
    split; [exact Ha|].
    intros g v Hg. simpl in Hg. destruct (Nat.eqb g0 g) eqn:Eg.
    + inversion Hg; subst. right. split; [|split].
      * exists [], (skipn n s). simpl. symmetry. apply firstn_skipn.
      * eapply Forall_impl; [|exact Ha]. intros x Hx. simpl.
        rewrite Eg, Hx. reflexivity.
      * intros Hb. simpl in Hb. rewrite Eg in Hb.
        apply andb_true_iff in Hb. destruct Hb as [Hb _].
        apply Nat.ltb_lt in Hb. intros Hnil.
        apply (f_equal (@List.length char)) in Hnil.
        rewrite length_firstn in Hnil. simpl in Hnil. lia.
    + destruct (Hc g v Hg) as [|(Hseg & Hacc & Hne)]; [auto|]. right.
      capture_lifts Hseg Hacc Hne.
  - destruct (Nat.eqb i 0); [|discriminate]. consumes_nothing c.
  - assert (k s i c = Some res) as Hk.
    { destruct s as [|x s]; [exact H|].
      destruct (ml && isLineTerminator x); [exact H | discriminate]. }
    consumes_nothing c.
Qed.

Lemma match_at_captured re s i m :
  match_at re s i = Some m -> captured re s m.
Proof.
  unfold match_at. intros H.
  destruct (mtch (ignoreCase re) (multiline re) (source re) s i []
              (fun _ e c => Some (e, c))) as [[e c]|] eqn:E; [|discriminate].
  inversion H; subst; clear H. apply mtch_captures in E.
  destruct E as (n & c1 & _ & _ & Hk & _ & Hc). inversion Hk; subst.
  intros g v Hg. unfold capture in Hg. simpl in Hg.
  destruct (Hc g v Hg) as [Hnil|Hv]; [discriminate | exact Hv].
Qed.

Lemma captured_cons re x s m : captured re s m -> captured re (x :: s) m.
Proof.
  intros H g v Hg. destruct (H g v Hg) as ((a & b & E) & Hacc & Hne).
  repeat split; auto. exists (x :: a), b. rewrite E. reflexivity.
Qed.

Lemma search_captured re : forall s i m,
  search re s i = Some m -> captured re s m.
Proof.
  induction s as [|x s IH]; intros i m H; simpl in H.
  - destruct (match_at re [] i) eqn:E; [|discriminate].
    inversion H; subst. eapply match_at_captured, E.
  - destruct (match_at re (x :: s) i) eqn:E.
    + inversion H; subst. eapply match_at_captured, E.
    + apply captured_cons. eapply IH, H.
Qed.

Lemma scan_captured re : forall s i skip ms,
  scan re s i skip = Some ms -> Forall (captured re s) ms.
Proof.
  induction s as [|x s IH]; intros i skip ms H.
  - destruct skip; simpl in H; [|inversion H; constructor].
    destruct (match_at re [] i) eqn:E; [|inversion H; constructor].
    destruct (Nat.eqb (lastIndex m) i); [discriminate|]. inversion H; subst.
    constructor; [eapply match_at_captured, E | constructor].
  - assert (forall j k ms', scan re s j k = Some ms' ->
                            Forall (captured re (x :: s)) ms') as IH'.
    { intros j k ms' H'. eapply Forall_impl; [|eapply IH, H'].
      intros m'. apply captured_cons. }
    destruct skip as [|skip]; simpl in H; [|eapply IH', H].
    destruct (match_at re (x :: s) i) eqn:E; [|eapply IH', H].
    destruct (Nat.eqb (lastIndex m) i); [discriminate|].
    destruct (scan re s (S i) (lastIndex m - i - 1)) as [ms'|] eqn:E';
      [|discriminate].
    inversion H; subst. constructor; [eapply match_at_captured, E|].
    eapply IH', E'.
Qed.

(* ================================================================= *)
(** ** The recursion through the CTE bodies has one level *)

Lemma chr_match_refl ic c : chr_match ic c c = true.
Proof. unfold chr_match. destruct ic; apply N.eqb_refl. Qed.

Lemma Forall_firstn_succ {A} (P : A -> Prop) n (s0 : list A) x s :
  skipn n s0 = x :: s -> Forall P (firstn n s0) -> P x ->
  Forall P (firstn (S n) s0) /\ skipn (S n) s0 = s.
Proof.
  revert s0. induction n as [|n IH]; intros s0 Hs Hall Hx.
  - simpl in Hs. subst s0. simpl. split; [constructor; auto | reflexivity].
  - destruct s0 as [|y s0]; [discriminate|].
    simpl in Hs. inversion Hall; subst.
    destruct (IH s0 Hs H2 Hx) as [Hf Hk]. split; [|exact Hk].
    change (firstn (S (S n)) (y :: s0)) with (y :: firstn (S n) s0).
    constructor; assumption.
Qed.

(** The lazy [.*?] in front of a closing parenthesis stops at the first
    one: the text it has captured contains none. *)
Lemma star_lazy_until_close ic g (s0 : str) (i0 : nat) : forall s i c e cf,
  i0 <= i -> skipn (i - i0) s0 = s ->
  Forall (fun x => x <> chr ")") (firstn (i - i0) s0) ->
  star_lazy ic Any s i c
    (fun s1 i1 c1 =>
       mtch ic false (Atom (Chr (chr ")"))) s1 i1
         ((g, firstn (i1 - i0) s0) :: c1) (fun _ e c => Some (e, c)))
  = Some (e, cf) ->
  exists v, getcap g cf = Some v /\ Forall (fun x => x <> chr ")") v.
Proof.
  induction s as [|x s IH]; intros i c e cf Hi Hs Hall H; simpl in H;
    [discriminate|].
  destruct (chr_match ic (chr ")") x) eqn:Ex.
  - inversion H; subst. exists (firstn (i - i0) s0). simpl.
    rewrite Nat.eqb_refl. auto.
  - destruct (negb (isLineTerminator x)); [|discriminate].
    assert (x <> chr ")") as Hx.
    { intros ->. rewrite chr_match_refl in Ex. discriminate. }
    destruct (@Forall_firstn_succ _ _ _ _ _ _ Hs Hall Hx) as [Hall' Hs'].
    apply (IH (S i) c e cf); try lia.
    + replace (S i - i0) with (S (i - i0)) by lia. exact Hs'.
    + replace (S i - i0) with (S (i - i0)) by lia. exact Hall'.
    + exact H.
Qed.

Lemma mtch_Seq_inv ic ml r1 r2 s i c k res :
  mtch ic ml (Seq r1 r2) s i c k = Some res ->
  exists n c1, mtch ic ml r2 (skipn n s) (i + n) c1 k = Some res.
Proof.
  simpl. intros H. apply mtch_sound in H.
  destruct H as (n & c1 & _ & _ & Hk & _). eauto.
Qed.

Lemma ctePattern_source :
  source ctePattern =
  Seq (Group 1 (Plus word))
    (Seq (Plus space)
       (Seq (Lit "AS")
          (Seq (Star true space)
             (Seq (Atom (Chr (chr "(")))
                (Seq (Group 2 (Star false Any)) (Atom (Chr (chr ")")))))))).
Proof. reflexivity. Qed.

(** The body that [ctePattern] captures has no closing parenthesis. *)
Lemma match_at_cte_body s i m v :
  match_at ctePattern s i = Some m -> capture 2 m = Some v ->
  Forall (fun x => x <> chr ")") v.
Proof.
  unfold match_at. rewrite ctePattern_source.
  destruct (mtch _ _ _ s i [] (fun _ e c => Some (e, c))) as [[e cf]|] eqn:E;
    [|discriminate].
  intros Hm Hv. inversion Hm; subst; clear Hm. unfold capture in Hv.
  simpl groups in Hv.
  do 5 (apply mtch_Seq_inv in E; destruct E as (? & ? & E)).
  simpl in E.
  match type of E with
  | star_lazy _ _ ?s' ?i' ?c' _ = _ =>
      destruct (@star_lazy_until_close true 2 s' i' s' i' c' e cf) as (v' & Hv' & Hall)
  end; try lia.
  - rewrite Nat.sub_diag. reflexivity.
  - rewrite Nat.sub_diag. constructor.
  - exact E.
  - congruence.
Qed.

Lemma scan_Forall re (P : Match -> Prop) :
  (forall s i m, match_at re s i = Some m -> P m) ->
  forall s i skip ms, scan re s i skip = Some ms -> Forall P ms.
Proof.
  intros HP. induction s as [|x s IH]; intros i skip ms H.
  - destruct skip; simpl in H; [|inversion H; constructor].
    destruct (match_at re [] i) eqn:E; [|inversion H; constructor].
    destruct (Nat.eqb (lastIndex m) i); [discriminate|]. inversion H; subst.
    constructor; [eapply HP, E | constructor].
  - destruct skip as [|skip]; simpl in H; [|eapply IH, H].
    destruct (match_at re (x :: s) i) eqn:E; [|eapply IH, H].
    destruct (Nat.eqb (lastIndex m) i); [discriminate|].
    destruct (scan re s (S i) (lastIndex m - i - 1)) as [ms'|] eqn:E';
      [|discriminate].
    inversion H; subst. constructor; [eapply HP, E | eapply IH, E'].
Qed.

(** Replacing, trimming and capturing produce no character that the input
    or the replacement text does not have. *)
Lemma replace_go_Forall (P : char -> Prop) re rep :
  Forall P rep ->
  forall s i skip, Forall P s -> Forall P (replace_go re rep s i skip).
Proof.
  intros Hrep. induction s as [|x s IH]; intros i skip Hs.
  - destruct skip; simpl; [|constructor].
    destruct (match_at re [] i); [|constructor].
    apply Forall_app. split; [exact Hrep | constructor].
  - inversion Hs; subst. destruct skip as [|skip]; simpl; [|auto].
    destruct (match_at re (x :: s) i).
    + apply Forall_app. split; [exact Hrep|].
      destruct (Nat.eqb (lastIndex m) i); [constructor|]; auto.
    + constructor; auto.
Qed.

Lemma replaceG_Forall (P : char -> Prop) re rep s :
  Forall P rep -> Forall P s -> Forall P (replaceG re rep s).
Proof. intros Hrep Hs. apply replace_go_Forall; assumption. Qed.

Lemma trimStart_Forall (P : char -> Prop) s :
  Forall P s -> Forall P (trimStart s).
Proof.
  induction 1 as [|x s Hx Hs IH]; simpl; [constructor|].
  destruct (isSpace x); [exact IH | constructor; assumption].
Qed.

Lemma trim_Forall (P : char -> Prop) s : Forall P s -> Forall P (trim s).
Proof.
  intros H. unfold trim, trimEnd.
  apply Forall_rev, trimStart_Forall, Forall_rev, trimStart_Forall, H.
Qed.

Lemma captured_Forall (P : char -> Prop) re s m g v :
  captured re s m -> capture g m = Some v -> Forall P s -> Forall P v.
Proof.
  intros Hc Hg Hs. destruct (Hc g v Hg) as ((a & b & E) & _). subst s.
  apply Forall_app in Hs. destruct Hs as [_ Hs].
  apply Forall_app in Hs. apply Hs.
Qed.

Lemma Forall_not_includes c s :
  Forall (fun x => x <> c) s -> includes c s = false.
Proof.
  induction 1 as [|x s Hx Hs IH]; [reflexivity|]. simpl.
  replace (c =? x)%N with false; [exact IH|].
  symmetry. apply N.eqb_neq. congruence.
Qed.

Lemma cleanQuery_Forall (P : char -> Prop) s :
  P (chr " ") -> Forall P s ->
  returnsSome (fun q => Forall P q) (cleanQuery (JSString s)).
Proof.
  intros Hsp Hs this. eexists. exists this. split; [reflexivity|].
  apply trim_Forall, replaceG_Forall; [repeat constructor; exact Hsp|].
  apply replaceG_Forall; [constructor|].
  apply replaceG_Forall; [constructor | exact Hs].
Qed.

Lemma returns_capture_eq {B} re len m g (k : str -> M B) :
  wellFormed re len m -> sets (source re) g = true ->
  (forall v, capture g m = Some v -> returns (k v)) ->
  returns (bind (defined (capture g m)) k).
Proof.
  intros [Hs _] Hg Hk this. unfold bind.
  specialize (Hs g Hg). destruct (capture g m) as [v|] eqn:E; [|congruence].
  simpl. apply Hk. reflexivity.
Qed.

(** On a text without closing parenthesis, [parseCTEs] finds no CTE and
    calls nothing. *)
Lemma parseCTEs_no_close rec withClause :
  Forall (fun x => x <> chr ")") withClause ->
  returns (parseCTEs rec withClause).
Proof.
  intros H. unfold parseCTEs, loopMatches, execLoop.
  rewrite (@scan_requires ctePattern (chr ")")); try reflexivity.
  - intros this. unfold bind, ret. simpl. exists tt, this. reflexivity.
  - apply Forall_not_includes, H.
Qed.

Lemma parseQuery_body_returns rec s :
  (forall q, List.length q <= List.length s ->
     (Forall (fun x => x <> chr ")") s -> Forall (fun x => x <> chr ")") q) ->
     returns (parseWithClause rec q)) ->
  returns (parseQuery_body rec (JSString s)).
Proof.
  intros Hwith. unfold parseQuery_body.
  eapply (@returns_bind _ _
    (fun q => List.length q <= List.length s /\
              (Forall (fun x => x <> chr ")") s ->
               Forall (fun x => x <> chr ")") q))).
  { intros this. destruct (cleanQuery_returns s this) as (q & this' & E & Hq).
    exists q, this'. split; [exact E|]. split; [exact Hq|].
    intros Hs. destruct (@cleanQuery_Forall (fun x => x <> chr ")") s) with (this := this)
      as (q' & this'' & E' & Hq'); [discriminate | exact Hs|]. congruence. }
  intros q [Hlen Hq].
  apply returns_seq; [apply returns_update | intros _].
  apply returns_seq; [apply parseFromClause_returns | intros _].
  apply returns_seq; [apply parseJoins_returns | intros _].
  apply returns_seq; [apply parseSelectClause_returns | intros _].
  apply returns_seq; [apply Hwith; assumption|].
  intros _ this. eauto.
Qed.

Lemma parseWithClause_no_close rec q :
  Forall (fun x => x <> chr ")") q -> returns (parseWithClause rec q).
Proof.
  intros Hq. unfold parseWithClause.
  destruct (exec withPattern q) as [m|] eqn:E; [|apply returns_ret].
  pose proof (search_captured _ _ _ E) as Hcap. apply exec_wellFormed in E.
  eapply returns_capture_eq; [exact E | reflexivity | intros withClause Ew].
  apply parseCTEs_no_close. eapply captured_Forall; eauto.
Qed.

(** A call on a text without closing parenthesis returns without a nested
    call. *)
Lemma parseQuery_fuel_one s :
  Forall (fun x => x <> chr ")") s ->
  returns (parseQuery_fuel 1 (JSString s)).
Proof.
  intros Hs. simpl. apply parseQuery_body_returns.
  intros q _ Hq. apply parseWithClause_no_close, Hq, Hs.
Qed.

Lemma parseQuery_fuel_two s : returns (parseQuery_fuel 2 (JSString s)).
Proof.
  change (parseQuery_fuel 2 (JSString s))
    with (parseQuery_body (parseQuery_fuel 1) (JSString s)).
  apply parseQuery_body_returns. intros q _ _.
  unfold parseWithClause.
  destruct (exec withPattern q) as [m|] eqn:E; [|apply returns_ret].
  apply exec_wellFormed in E.
  eapply returns_capture; [exact E | reflexivity | intros withClause _].
  unfold parseCTEs, loopMatches, execLoop.
  destruct (execLoop_returns ctePattern withClause) as (ms & Ems & Hms);
    [vm_compute; lia|].
  unfold execLoop in Ems.
  pose proof (scan_Forall ctePattern
                (fun m => forall v, capture 2 m = Some v ->
                                    Forall (fun x => x <> chr ")") v)
                (fun s i m H v => @match_at_cte_body s i m v H) _ _ _ Ems) as Hbody.
  assert (Forall (fun m => wellFormed ctePattern (List.length withClause) m /\
                           forall v, capture 2 m = Some v ->
                                     Forall (fun x => x <> chr ")") v) ms) as Hall.
  { clear Ems. induction Hms; inversion Hbody; subst; constructor; auto. }
  eapply returns_bind.
  { intros this. rewrite Ems. exists ms, this. split; [reflexivity | exact Hall]. }
  intros ms' Hall'. clear Hall. rename Hall' into Hall.
  eapply returns_forEach; [exact Hall|].
  intros m' [Hwf Hb].
  eapply returns_capture; [exact Hwf | reflexivity | intros cteName _].
  eapply returns_capture_eq; [exact Hwf | reflexivity | intros cteQuery Eq].
  apply returns_seq; [apply returns_update | intros _].
  apply returns_seq.
  - apply returns_onNewParser, parseQuery_fuel_one, Hb, Eq.
  - intros subResult. apply returns_forEach_all. intros t. apply returns_update.
Qed.

(** The second nested call is the last one that matters. *)
Lemma parseQuery_two_calls s this :
  parseQuery_fuel 2 (JSString s) this = parseQuery (JSString s) this.
Proof.
  destruct (parseQuery_fuel_two s this) as (g & this' & E).
  destruct (Nat.le_gt_cases (S (List.length s)) 2) as [Hle|Hgt].
  - apply parseQuery_fuel_stable. lia.
  - unfold parseQuery. cbn [fuelFor]. rewrite E. symmetry.
    replace (S (List.length s)) with (2 + (S (List.length s) - 2)) by lia.
    eapply parseQuery_fuel_approx, E.
Qed.

(** X1. Two nested calls are enough for every text: the sub-parse of a CTE body
    never starts a sub-parse of its own, because the body that [ctePattern]
    captures stops at the first closing parenthesis and a CTE needs one. *)
Theorem parseQuery_nests_once (more : nat) (s : str) (this : SQLParser) :
  parseQuery_fuel (2 + more) (JSString s) this = parseQuery (JSString s) this.
Proof.
  rewrite <- parseQuery_two_calls.
  destruct (parseQuery_fuel_two s this) as (g & this' & E).
  rewrite E. eapply parseQuery_fuel_approx, E.
Qed.

(* ================================================================= *)
(** ** More facts about maps *)

Lemma str_eqb_refl a : str_eqb a a = true.
Proof. apply str_eqb_eq. reflexivity. Qed.

Lemma Map_has_keys {V} k (m : Map.t V) : Map.has k m = true <-> In k (keys m).
Proof.
  induction m as [|[k' v] m IH]; simpl; [split; [discriminate | tauto]|].
  rewrite orb_true_iff, IH, str_eqb_eq. tauto.
Qed.

Lemma Map_has_false_keys {V} k (m : Map.t V) :
  Map.has k m = false <-> ~ In k (keys m).
Proof.
  rewrite <- Map_has_keys. destruct (Map.has k m); split; congruence.
Qed.

Lemma Map_get_In {V} k (v : V) (m : Map.t V) :
  Map.get k m = Some v -> In (k, v) m.
Proof.
  induction m as [|[k' v'] m IH]; simpl; [discriminate|].
  destruct (str_eqb k' k) eqn:E.
  - apply str_eqb_eq in E. intros H. inversion H; subst. left. reflexivity.
  - intros H. right. apply IH, H.
Qed.

Lemma Map_keys_set {V} k (v : V) (m : Map.t V) :
  keys (Map.set k v m) = if Map.has k m then keys m else keys m ++ [k].
Proof.
  induction m as [|[k' v'] m IH]; simpl; [reflexivity|].
  destruct (str_eqb k' k) eqn:E; simpl; [reflexivity|].
  rewrite IH. destruct (Map.has k m); reflexivity.
Qed.

Lemma Map_set_In {V} k (v : V) (m : Map.t V) kv :
  In kv (Map.set k v m) -> kv = (k, v) \/ In kv m.
Proof.
  induction m as [|[k' v'] m IH]; simpl.
  - intros [<-|[]]. left. reflexivity.
  - destruct (str_eqb k' k) eqn:E; simpl.
    + apply str_eqb_eq in E. subst k'. intros [<-|H]; auto.
    + intros [<-|H]; auto. destruct (IH H); auto.
Qed.

Lemma Map_set_Forall {V} (P : str * V -> Prop) k (v : V) (m : Map.t V) :
  Forall P m -> P (k, v) -> Forall P (Map.set k v m).
Proof.
  intros Hm Hv. apply Forall_forall. intros kv Hin.
  destruct (Map_set_In _ _ _ _ Hin) as [->|Hin']; [exact Hv|].
  rewrite Forall_forall in Hm. auto.
Qed.

Lemma Map_has_set {V} k (v : V) k' (m : Map.t V) :
  Map.has k' (Map.set k v m) = Map.has k' m || str_eqb k k'.
Proof.
  unfold Map.has. induction m as [|[k0 v0] m IH]; simpl.
  - apply orb_false_r.
  - destruct (str_eqb k0 k) eqn:E; simpl.
    + apply str_eqb_eq in E. subst k0.
      destruct (str_eqb k k'); simpl; [reflexivity | rewrite orb_false_r; reflexivity].
    + rewrite IH. apply orb_assoc.
Qed.

Lemma Map_get_set_same {V} k (v : V) (m : Map.t V) :
  Map.get k (Map.set k v m) = Some v.
Proof.
  induction m as [|[k' v'] m IH]; simpl.
  - rewrite str_eqb_refl. reflexivity.
  - destruct (str_eqb k' k) eqn:E; simpl; rewrite E; [reflexivity | exact IH].
Qed.

Lemma Map_values_keys {V} (f : V -> str) (m : Map.t V) :
  Forall (fun kv => f (snd kv) = fst kv) m ->
  List.map f (Map.values m) = keys m.
Proof.
  induction 1 as [|[k v] m Hk Hm IH]; simpl; [reflexivity|].
  simpl in Hk. rewrite Hk. f_equal. exact IH.
Qed.

(* ================================================================= *)
(** ** Patterns of one character, and the quotes of a name *)

Lemma match_at_atom a ic ml x s i :
  match match_at {| source := Atom a; ignoreCase := ic; multiline := ml |}
          (x :: s) i with
  | Some m => atom_match ic a x = true /\ lastIndex m = S i
  | None => atom_match ic a x = false
  end.
Proof.
  unfold match_at. simpl. destruct (atom_match ic a x); simpl; auto.
Qed.

Lemma replaceG_quoteChars s :
  replaceG quoteChars [] s = filter (fun x => negb (isQuote x)) s.
Proof.
  unfold replaceG.
  enough (forall i, replace_go quoteChars [] s i 0 =
                    filter (fun x => negb (isQuote x)) s) as H by apply H.
  induction s as [|x s IH]; intros i.
  - simpl. destruct (match_at quoteChars [] i); reflexivity.
  - cbn [replace_go filter].
    pose proof (match_at_atom (Class false (chars "`" ++ [IChr 34%N] ++ chars "'[]"))
                  false false x s i) as Hm.
    change {| source := _; ignoreCase := false; multiline := false |}
      with quoteChars in Hm.
    destruct (match_at quoteChars (x :: s) i) as [m|].
    + destruct Hm as [Hq Hl]. rewrite Hl.
      replace (Nat.eqb (S i) i) with false by (symmetry; apply Nat.eqb_neq; lia).
      replace (S i - i - 1) with 0 by lia.
      change (isQuote x = true) in Hq. rewrite Hq. simpl. apply IH.
    + change (isQuote x = false) in Hm. rewrite Hm. simpl. f_equal. apply IH.
Qed.

Lemma isWord_not_quote x : isWord x = true -> isQuote x = false.
Proof.
  unfold isWord, isQuote. simpl. intros H.
  repeat (apply orb_true_iff in H; destruct H as [H|H]);
    try (apply andb_true_iff in H; destruct H as [H1 H2];
         apply N.leb_le in H1, H2);
    try apply N.eqb_eq in H;
    repeat (apply orb_false_iff; split); try reflexivity;
    apply N.eqb_neq; unfold chr; simpl; lia.
Qed.

Lemma filter_all {A} (p : A -> bool) l :
  Forall (fun x => p x = true) l -> filter p l = l.
Proof.
  induction 1 as [|x l Hx Hl IH]; simpl; [reflexivity|].
  rewrite Hx, IH. reflexivity.
Qed.

Lemma replaceG_quoteChars_word s :
  Forall (fun x => isWord x = true) s -> replaceG quoteChars [] s = s.
Proof.
  intros H. rewrite replaceG_quoteChars. apply filter_all.
  eapply Forall_impl; [|exact H]. intros x Hx. simpl in Hx.
  rewrite (isWord_not_quote _ Hx). reflexivity.
Qed.

(** X2. [addTable], then a lookup: the entry under the id is the one that was
    there, or else the new one, whose name is the given name without its
    quote characters. *)
Theorem addTable_lookup (name : str) (alias : option str) (type : str)
    (this : SQLParser) :
  let cleanName := filter (fun x => negb (isQuote x)) name in
  let tableId :=
    match alias with
    | Some a => if isEmpty a then cleanName else a
    | None => cleanName
    end in
  Map.get tableId (tables (addTable name alias type this)) =
  Some (match Map.get tableId (tables this) with
        | Some t => t
        | None => {| Table.id := tableId; Table.name := cleanName;
                     Table.alias := alias; Table.type := type;
                     Table.columns := [] |}
        end) /\
  relationships (addTable name alias type this) = relationships this /\
  columns (addTable name alias type this) = columns this.
Proof.
  cbv zeta. unfold addTable. rewrite replaceG_quoteChars.
  set (cleanName := filter _ name).
  set (tableId := match alias with Some a => _ | None => _ end).
  destruct (Map.has tableId (tables this)) eqn:Hhas; simpl.
  - apply Map_has_get in Hhas.
    destruct (Map.get tableId (tables this)); [|congruence].
    auto.
  - rewrite Map_get_set_same.
    destruct (Map.get tableId (tables this)) eqn:Hget; [|auto].
    assert (Map.has tableId (tables this) = true)
      by (apply Map_has_get; congruence). congruence.
Qed.

(* ================================================================= *)
(** ** The keyword class *)

Lemma existsb_incl {A} (f : A -> bool) l1 l2 :
  incl l1 l2 -> existsb f l1 = true -> existsb f l2 = true.
Proof.
  intros Hincl H. apply existsb_exists in H. destruct H as (x & Hin & Hx).
  apply existsb_exists. exists x. auto.
Qed.

(** The class of [joinPattern] names the same characters as the class of
    [fromPattern], in another order. *)
Lemma joinPattern_class x :
  existsb (item_match true x) (chars "JOIN|WHERE|GROUP|ORDER|HAVING|LIMIT|;")
  = keywordLetter x.
Proof.
  unfold keywordLetter.
  assert (incl (chars "JOIN|WHERE|GROUP|ORDER|HAVING|LIMIT|;")
               (chars "WHERE|JOIN|GROUP|ORDER|HAVING|LIMIT|;")) as H1.
  { intros c Hc. cbv in Hc. cbv.
    repeat (destruct Hc as [Hc|Hc]; [subst c; tauto|]). contradiction. }
  assert (incl (chars "WHERE|JOIN|GROUP|ORDER|HAVING|LIMIT|;")
               (chars "JOIN|WHERE|GROUP|ORDER|HAVING|LIMIT|;")) as H2.
  { intros c Hc. cbv in Hc. cbv.
    repeat (destruct Hc as [Hc|Hc]; [subst c; tauto|]). contradiction. }
  destruct (existsb _ (chars "JOIN|WHERE|GROUP|ORDER|HAVING|LIMIT|;")) eqn:E1;
    destruct (existsb _ (chars "WHERE|JOIN|GROUP|ORDER|HAVING|LIMIT|;")) eqn:E2;
    try reflexivity.
  - rewrite (existsb_incl _ H1 E1) in E2. discriminate.
  - rewrite (existsb_incl _ H2 E2) in E1. discriminate.
Qed.

Lemma joinPattern_condition query m onCondition :
  captured joinPattern query m -> capture 4 m = Some onCondition ->
  keywordFree onCondition.
Proof.
  intros Hm H4. destruct (Hm 4 onCondition H4) as (_ & Hacc & _).
  eapply Forall_impl; [|exact Hacc]. intros x Hx.
  cbn -[existsb chars item_match] in Hx.
  rewrite joinPattern_class in Hx.
  destruct (keywordLetter x); [discriminate Hx | reflexivity].
Qed.

(* ================================================================= *)
(** ** Calls that keep a property of the state *)

Lemma keeps_ret {A} I (a : A) : keeps I (ret a).
Proof. intros this H. exact H. Qed.

Lemma keeps_update I f :
  (forall this, I this -> I (f this)) -> keeps I (update f).
Proof. intros Hf this H. apply Hf, H. Qed.

Lemma keeps_bind {A B} I (m : M A) (k : A -> M B) :
  keeps I m -> (forall a, keeps I (k a)) -> keeps I (bind m k).
Proof.
  intros Hm Hk this H. unfold bind. specialize (Hm this H).
  destruct (m this) as [[a|f] this']; simpl in *; [apply Hk, Hm | exact Hm].
Qed.

Lemma keeps_forEach_Forall {A} I (f : A -> M unit) l :
  Forall (fun x => keeps I (f x)) l -> keeps I (forEach f l).
Proof.
  induction 1 as [|x l Hx Hl IH]; simpl; [apply keeps_ret|].
  apply keeps_bind; [exact Hx | intros _; exact IH].
Qed.

Lemma keeps_forEach {A} I (f : A -> M unit) l :
  (forall x, keeps I (f x)) -> keeps I (forEach f l).
Proof.
  intros H. apply keeps_forEach_Forall, Forall_forall. intros x _. apply H.
Qed.

Lemma keeps_defined {A B} I (o : option A) (k : A -> M B) :
  (forall a, o = Some a -> keeps I (k a)) -> keeps I (bind (defined o) k).
Proof.
  intros H this Hi. destruct o as [a|]; [|exact Hi].
  apply (H a eq_refl this Hi).
Qed.

Lemma keeps_loopMatches {B} I re s (k : list Match -> M B) :
  (forall ms, execLoop re s = Some ms -> keeps I (k ms)) ->
  keeps I (bind (loopMatches re s) k).
Proof.
  intros H this Hi. unfold bind, loopMatches.
  destruct (execLoop re s) as [ms|]; [|exact Hi].
  apply (H ms eq_refl this Hi).
Qed.

Lemma keeps_onNewParser {A B} I (call : M A) (k : A -> M B) :
  (forall a, keeps I (k a)) -> keeps I (bind (onNewParser call) k).
Proof.
  intros H this Hi. unfold bind, onNewParser.
  destruct (fst (call constructor)) as [a|f]; [apply H, Hi | exact Hi].
Qed.

Lemma keeps_update_then {B} (I J : SQLParser -> Prop) f (k : unit -> M B) :
  (forall this, I this -> J (f this)) -> (forall this, J this -> I this) ->
  keeps J (k tt) -> keeps I (bind (update f) k).
Proof.
  intros Hf HJ Hk this Hi. unfold bind, update. apply HJ, Hk, Hf, Hi.
Qed.

(* ================================================================= *)
(** ** The state of the parser stays consistent *)

Lemma NoDup_snoc {A} (l : list A) x : NoDup l -> ~ In x l -> NoDup (l ++ [x]).
Proof.
  induction 1 as [|y l Hy Hl IH]; intros Hx; simpl.
  - constructor; [intros [] | constructor].
  - constructor.
    + rewrite in_app_iff. intros [H|[H|[]]]; [auto | subst; apply Hx; left; reflexivity].
    + apply IH. intros H. apply Hx. right. exact H.
Qed.

Lemma existsb_name_false l n :
  existsb (fun col => str_eqb (TableColumn.name col) n) l = false ->
  ~ In n (List.map TableColumn.name l).
Proof.
  induction l as [|c l IH]; simpl; [tauto|].
  intros H. apply orb_false_iff in H. destruct H as [Hc Hl].
  intros [E|Hin]; [|exact (IH Hl Hin)].
  assert (str_eqb (TableColumn.name c) n = true) by (apply str_eqb_eq, E).
  congruence.
Qed.

Lemma isWord_not_dot x : isWord x = true -> x <> chr ".".
Proof. intros H ->. discriminate H. Qed.

(** An id of a column is read in one way only. *)
Lemma column_id_unique a b a' b' :
  Forall (fun x => isWord x = true) a -> Forall (fun x => isWord x = true) a' ->
  a ++ lit "." ++ b = a' ++ lit "." ++ b' -> a = a' /\ b = b'.
Proof.
  intros Ha. revert a'. induction Ha as [|x a Hx Ha IH]; intros a' Ha' E.
  - destruct Ha' as [|x' a' Hx' Ha']; simpl in E.
    + inversion E. auto.
    + inversion E; subst. discriminate Hx'.
  - destruct Ha' as [|x' a' Hx' Ha']; simpl in E.
    + inversion E; subst. discriminate Hx.
    + inversion E; subst. destruct (IH _ Ha' H1) as [-> ->]. auto.
Qed.

Lemma consistent_constructor : consistent constructor.
Proof. repeat split; constructor. Qed.

Lemma addTable_consistent name alias type this :
  type = lit "table" \/ (type = lit "cte" /\ alias = None /\ identifier name) ->
  consistent this -> consistent (addTable name alias type this).
Proof.
  intros Hty H. pose proof H as (Ht & Hc & Htab & Hcol & Hrel & Hatt & Htgt).
  unfold addTable.
  set (cleanName := replaceG quoteChars [] name).
  set (tableId := match alias with Some a => _ | None => _ end).
  destruct (Map.has tableId (tables this)) eqn:Hhas; simpl; [exact H|].
  unfold consistent; simpl.
  split; [|split; [exact Hc|split; [|split; [exact Hcol|split;
    [exact Hrel|split]]]]].
  - rewrite Map_keys_set, Hhas. apply NoDup_snoc; [exact Ht|].
    apply Map_has_false_keys, Hhas.
  - apply Map_set_Forall; [exact Htab|]. unfold tableOK; simpl.
    split; [reflexivity|]. split; [reflexivity|]. split; [|split; [|constructor]].
    + subst cleanName. rewrite replaceG_quoteChars. apply Forall_forall.
      intros x Hx. apply filter_In in Hx. destruct Hx as [_ Hx].
      destruct (isQuote x); [discriminate | reflexivity].
    + destruct Hty as [Hty|(Hty & Ha & Hn)]; [left; exact Hty|right].
      split; [exact Hty|]. split; [exact Ha|].
      subst cleanName. rewrite replaceG_quoteChars_word by apply Hn. exact Hn.
  - apply Map_set_Forall; [exact Hatt|]. constructor.
  - eapply Forall_impl; [|exact Htgt]. intros r Hr E.
    rewrite Map_has_set, (Hr E). reflexivity.
Qed.

Lemma addTable_has name type this :
  Forall (fun x => isWord x = true) name ->
  Map.has name (tables (addTable name None type this)) = true.
Proof.
  intros Hn. unfold addTable. rewrite replaceG_quoteChars_word by exact Hn.
  destruct (Map.has name (tables this)) eqn:Hhas; simpl; [exact Hhas|].
  rewrite Map_has_set, str_eqb_refl. apply orb_true_r.
Qed.

Lemma addColumn_consistent tableRef columnName alias this :
  identifier tableRef -> identifier columnName ->
  consistent this -> consistent (addColumn tableRef columnName alias this).
Proof.
  intros Hr Hn H. unfold addColumn.
  set (columnId := tableRef ++ lit "." ++ columnName).
  set (this1 := if negb (Map.has columnId (columns this)) then _ else this).
  assert (consistent this1 /\
          exists c, Map.get columnId (columns this1) = Some c /\
                    Column.table c = tableRef /\ Column.name c = columnName)
    as H1.
  { subst this1. destruct (Map.has columnId (columns this)) eqn:Hhas; simpl.
    - split; [exact H|].
      destruct (Map.get columnId (columns this)) as [c|] eqn:Hget;
        [|apply Map_has_get in Hhas; congruence].
      exists c. split; [reflexivity|].
      destruct H as (_ & _ & _ & Hcol & _).
      rewrite Forall_forall in Hcol.
      destruct (Hcol _ (Map_get_In _ _ Hget)) as (Hk & Hid & _ & Ht & _).
      simpl in *. rewrite Hk in Hid. unfold columnId in Hid.
      destruct (column_id_unique _ _ (proj2 Hr) (proj2 Ht) Hid) as [E1 E2].
      auto.
    - destruct H as (Ht & Hc & Htab & Hcol & Hrel & Hatt & Htgt).
      split; [|eexists; split; [apply Map_get_set_same|split; reflexivity]].
      unfold consistent; simpl.
      split; [exact Ht|split; [|split; [exact Htab|split; [|split;
        [exact Hrel|split; [|exact Htgt]]]]]].
      + rewrite Map_keys_set, Hhas. apply NoDup_snoc; [exact Hc|].
        apply Map_has_false_keys, Hhas.
      + apply Map_set_Forall; [exact Hcol|]. unfold columnOK; simpl. auto.
      + eapply Forall_impl; [|exact Hatt]. intros kv Ha. unfold attached in *.
        eapply Forall_impl; [|exact Ha]. intros tc (c & Hget & Hc').
        exists c. split; [|exact Hc']. apply Map_get_set_new; assumption. }
  clearbody this1. clear H. destruct H1 as (H & c & Hcid & Hct & Hcn).
  destruct (Map.get tableRef (tables this1)) as [table|] eqn:Hget; [|exact H].
  destruct (existsb (fun col => str_eqb (TableColumn.name col) columnName)
              (Table.columns table)) eqn:Hex; simpl; [exact H|].
  pose proof (Map_get_In _ _ Hget) as Hin.
  destruct H as (Ht & Hc & Htab & Hcol & Hrel & Hatt & Htgt).
  assert (Map.has tableRef (tables this1) = true) as Hhas
    by (apply Map_has_get; congruence).
  pose proof (proj1 (Forall_forall _ _) Htab _ Hin) as (Hid & Hal & Hq & Hty & Hnd).
  pose proof (proj1 (Forall_forall _ _) Hatt _ Hin) as Ha. simpl in *.
  unfold consistent; simpl.
  split; [|split; [exact Hc|split; [|split; [exact Hcol|split;
    [exact Hrel|split]]]]].
  - rewrite Map_keys_set, Hhas. exact Ht.
  - apply Map_set_Forall; [exact Htab|]. unfold tableOK; simpl.
    split; [exact Hid|]. split; [exact Hal|]. split; [exact Hq|].
    split; [exact Hty|]. rewrite map_app. simpl.
    apply NoDup_snoc; [exact Hnd|]. apply existsb_name_false, Hex.
  - apply Map_set_Forall; [exact Hatt|]. unfold attached; simpl.
    apply Forall_app. split; [exact Ha|]. constructor; [|constructor].
    exists c. auto.
  - eapply Forall_impl; [|exact Htgt]. intros r Hr' E.
    rewrite Map_has_set, (Hr' E). reflexivity.
Qed.

Lemma addRelationship_join_consistent a b c d this :
  identifier a -> identifier b -> identifier c -> identifier d ->
  keywordFree a -> keywordFree b -> keywordFree c -> keywordFree d ->
  consistent this -> consistent (addRelationship a b c d (lit "join") this).
Proof.
  intros Ha Hb Hc' Hd Fa Fb Fc Fd (Ht & Hc & Htab & Hcol & Hrel & Hatt & Htgt).
  unfold addRelationship, consistent; simpl.
  split; [exact Ht|split; [exact Hc|split; [exact Htab|split; [exact Hcol|split;
    [|split; [exact Hatt|]]]]]].
  - apply Forall_app. split; [exact Hrel|]. constructor; [|constructor].
    split; [reflexivity|]. left. simpl.
    split; [reflexivity|]. do 7 (split; [assumption|]). assumption.
  - apply Forall_app. split; [exact Htgt|]. constructor; [|constructor].
    intros E. discriminate E.
Qed.

Lemma addRelationship_cte_consistent a c this :
  identifier c -> Map.has c (tables this) = true ->
  consistent this ->
  consistent (addRelationship a (lit "*") c (lit "*") (lit "cte") this).
Proof.
  intros Hc' Hhas (Ht & Hc & Htab & Hcol & Hrel & Hatt & Htgt).
  unfold addRelationship, consistent; simpl.
  split; [exact Ht|split; [exact Hc|split; [exact Htab|split; [exact Hcol|split;
    [|split; [exact Hatt|]]]]]].
  - apply Forall_app. split; [exact Hrel|]. constructor; [|constructor].
    split; [reflexivity|]. right. simpl. auto.
  - apply Forall_app. split; [exact Htgt|]. constructor; [|constructor].
    intros _. exact Hhas.
Qed.

Lemma captured_identifier re s m g v :
  captured re s m -> capture g m = Some v ->
  groupNonempty (source re) g = true ->
  (forall x, groupAccepts (ignoreCase re) (source re) g x = true ->
             isWord x = true) ->
  identifier v.
Proof.
  intros Hm Hg Hne Hw. destruct (Hm g v Hg) as (_ & Hacc & Hn).
  split; [exact (Hn Hne)|]. eapply Forall_impl; [|exact Hacc]. exact Hw.
Qed.

Ltac word_group :=
  let x := fresh "x" in let Hx := fresh "Hx" in
  intros x Hx; cbn in Hx; rewrite ?orb_false_r, ?orb_diag in Hx; exact Hx.

Lemma extractTable_consistent part : keeps consistent (extractTable part).
Proof.
  unfold extractTable. destruct (includes (chr "(") (trim part)); [apply keeps_ret|].
  apply keeps_defined. intros tableName _. apply keeps_update.
  intros this. apply addTable_consistent. left. reflexivity.
Qed.

Lemma parseFromClause_consistent query : keeps consistent (parseFromClause query).
Proof.
  unfold parseFromClause, extractTablesFromString.
  apply keeps_forEach. intros match_. apply keeps_forEach.
  apply extractTable_consistent.
Qed.

Lemma parseJoinCondition_consistent condition :
  keywordFree condition -> keeps consistent (parseJoinCondition condition).
Proof.
  intros Hfree. unfold parseJoinCondition. apply keeps_loopMatches. intros ms Hms.
  apply scan_captured in Hms. apply keeps_forEach_Forall.
  eapply Forall_impl; [|exact Hms]. intros m Hm.
  apply keeps_defined. intros leftTable H1.
  apply keeps_defined. intros leftColumn H2.
  apply keeps_defined. intros rightTable H3.
  apply keeps_defined. intros rightColumn H4.
  apply keeps_update. intros this.
  apply addRelationship_join_consistent;
    first [ eapply captured_identifier;
            [exact Hm | eassumption | reflexivity | word_group]
          | eapply captured_Forall; [exact Hm | eassumption | exact Hfree] ].
Qed.

Lemma parseJoins_consistent query : keeps consistent (parseJoins query).
Proof.
  unfold parseJoins. apply keeps_loopMatches. intros ms Hms.
  apply scan_captured in Hms. apply keeps_forEach_Forall.
  eapply Forall_impl; [|exact Hms]. intros m Hm.
  apply keeps_defined. intros tableName _.
  apply keeps_defined. intros onCondition H4.
  apply keeps_bind;
    [|intros _; eapply parseJoinCondition_consistent, joinPattern_condition;
      eassumption].
  apply keeps_update. intros this. apply addTable_consistent. left. reflexivity.
Qed.

Lemma parseSelectColumn_consistent col : keeps consistent (parseSelectColumn col).
Proof.
  unfold parseSelectColumn.
  destruct (includes (chr "(") (trim col) && _); [apply keeps_ret|].
  destruct (exec columnPattern (trim col)) as [m|] eqn:E; [|apply keeps_ret].
  apply search_captured in E.
  apply keeps_defined. intros tableRef H1.
  apply keeps_defined. intros columnName H2.
  apply keeps_update. intros this.
  apply addColumn_consistent;
    (eapply captured_identifier; [exact E | eassumption | reflexivity | word_group]).
Qed.

Lemma parseSelectClause_consistent query :
  keeps consistent (parseSelectClause query).
Proof.
  unfold parseSelectClause. destruct (exec selectPattern query); [|apply keeps_ret].
  apply keeps_defined. intros selectClause _. unfold parseSelectColumns.
  destruct (str_eqb (trim selectClause) (lit "*")); [apply keeps_ret|].
  apply keeps_forEach, parseSelectColumn_consistent.
Qed.

Lemma parseCTEs_consistent pq withClause :
  keeps consistent (parseCTEs pq withClause).
Proof.
  unfold parseCTEs. apply keeps_loopMatches. intros ms Hms.
  apply scan_captured in Hms. apply keeps_forEach_Forall.
  eapply Forall_impl; [|exact Hms]. intros m Hm.
  apply keeps_defined. intros cteName H1.
  apply keeps_defined. intros cteQuery _.
  assert (identifier cteName) as Hid
    by (eapply captured_identifier;
        [exact Hm | eassumption | reflexivity | word_group]).
  apply keeps_update_then
    with (J := fun this => consistent this /\ Map.has cteName (tables this) = true).
  - intros this H. split.
    + apply addTable_consistent; [right; auto | exact H].
    + apply addTable_has, Hid.
  - intros this H. apply H.
  - apply keeps_onNewParser. intros subResult. apply keeps_forEach. intros table.
    apply keeps_update. intros this [H Hhas]. split; [|exact Hhas].
    apply addRelationship_cte_consistent; assumption.
Qed.

Lemma parseWithClause_consistent pq query :
  keeps consistent (parseWithClause pq query).
Proof.
  unfold parseWithClause. destruct (exec withPattern query); [|apply keeps_ret].
  apply keeps_defined. intros withClause _. apply parseCTEs_consistent.
Qed.

Lemma bind_Ok {A B} (m : M A) (k : A -> M B) this b this2 :
  bind m k this = (Ok b, this2) ->
  exists a this1, m this = (Ok a, this1) /\ k a this1 = (Ok b, this2).
Proof.
  unfold bind. destruct (m this) as [[a|f] this1]; [eauto | discriminate].
Qed.

(** What a call of [parseQuery] on a text returns is the graph of the state
    it leaves, and the state is consistent. *)
Lemma parseQuery_body_graph pq s this g this' :
  parseQuery_body pq (JSString s) this = (Ok g, this') ->
  g = graphOf this' /\ consistent this'.
Proof.
  intros E. split.
  - unfold parseQuery_body in E.
    repeat (apply bind_Ok in E; destruct E as (? & ? & _ & E)).
    inversion E. reflexivity.
  - change this' with (snd (Ok g, this')). rewrite <- E.
    unfold parseQuery_body, cleanQuery.
    set (q := trim _).
    change (consistent (snd (bind (update (fun _ => constructor))
      (fun _ => parseFromClause q ;;; parseJoins q ;;; parseSelectClause q ;;;
                parseWithClause pq q ;;;
                fun this => (Ok (graphOf this), this)) this))).
    unfold bind at 1. unfold update.
    assert (keeps consistent
              (parseFromClause q ;;; parseJoins q ;;; parseSelectClause q ;;;
               parseWithClause pq q ;;;
               fun this => (Ok (graphOf this), this))) as Hk.
    { apply keeps_bind; [apply parseFromClause_consistent | intros _].
      apply keeps_bind; [apply parseJoins_consistent | intros _].
      apply keeps_bind; [apply parseSelectClause_consistent | intros _].
      apply keeps_bind; [apply parseWithClause_consistent | intros _].
      intros x Hx. exact Hx. }
    apply Hk, consistent_constructor.
Qed.

Lemma parseQuery_graph s this :
  exists this', parseQuery (JSString s) this = (Ok (graphOf this'), this') /\
                consistent this'.
Proof.
  destruct (@parseQuery_fuel_enough (S (List.length s)) s
              (Nat.lt_succ_diag_r _) this) as (g & this' & E).
  exists this'. unfold parseQuery. cbn [fuelFor]. rewrite E.
  simpl in E. apply parseQuery_body_graph in E. destruct E as [-> H]. auto.
Qed.

(* ================================================================= *)
(** ** What every graph that [parseQuery] returns satisfies *)

(** X3. The ids are keys: in the graph of any text no two tables share an id, no
    two columns share an id, and no table lists a column name twice. *)
Theorem parseQuery_ids_distinct (s : str) (this : SQLParser) :
  exists g this',
    parseQuery (JSString s) this = (Ok g, this') /\
    NoDup (List.map Table.id (Graph.tables g)) /\
    NoDup (List.map Column.id (Graph.columns g)) /\
    Forall (fun t => NoDup (List.map TableColumn.name (Table.columns t)))
           (Graph.tables g).
Proof.
  destruct (parseQuery_graph s this)
    as (this' & E & Ht & Hc & Htab & Hcol & _).
  exists (graphOf this'), this'. split; [exact E|]. simpl.
  split; [|split].
  - rewrite Map_values_keys; [exact Ht|].
    eapply Forall_impl; [|exact Htab]. intros kv H. apply H.
  - rewrite Map_values_keys; [exact Hc|].
    eapply Forall_impl; [|exact Hcol]. intros kv H. apply H.
  - unfold Map.values. apply Forall_map.
    eapply Forall_impl; [|exact Htab]. intros kv H. apply H.
Qed.

(** X4. A table of the graph of any text: its id is its alias, or its name when
    it has no alias or an empty one; its name holds none of the quote
    characters that [addTable] strips; it is of kind [table], or of kind
    [cte] and then it has no alias and its name is an identifier. *)
Theorem parseQuery_tables_shape (s : str) (this : SQLParser) :
  exists g this',
    parseQuery (JSString s) this = (Ok g, this') /\
    Forall (fun t =>
              Table.id t = match Table.alias t with
                           | Some a => if isEmpty a then Table.name t else a
                           | None => Table.name t
                           end /\
              Forall (fun x => isQuote x = false) (Table.name t) /\
              (Table.type t = lit "table" \/
               (Table.type t = lit "cte" /\ Table.alias t = None /\
                identifier (Table.name t))))
           (Graph.tables g).
Proof.
  destruct (parseQuery_graph s this) as (this' & E & _ & _ & Htab & _).
  exists (graphOf this'), this'. split; [exact E|]. simpl.
  unfold Map.values. apply Forall_map.
  eapply Forall_impl; [|exact Htab].
  intros kv (_ & Hid & Hq & Hty & _). auto.
Qed.

(** X5. A column of the graph of any text: its qualifier and its name are
    identifiers, its id is the two joined by a dot, and its kind is
    [column]. *)
Theorem parseQuery_columns_shape (s : str) (this : SQLParser) :
  exists g this',
    parseQuery (JSString s) this = (Ok g, this') /\
    Forall (fun c =>
              Column.id c = Column.table c ++ lit "." ++ Column.name c /\
              Column.type c = lit "column" /\
              identifier (Column.table c) /\ identifier (Column.name c))
           (Graph.columns g).
Proof.
  destruct (parseQuery_graph s this) as (this' & E & _ & _ & _ & Hcol & _).
  exists (graphOf this'), this'. split; [exact E|]. simpl.
  unfold Map.values. apply Forall_map.
  eapply Forall_impl; [|exact Hcol].
  intros kv (_ & H). exact H.
Qed.

(** X6. A relationship of the graph of any text is of kind [join] or [cte],
    never of the kind [flow] that [addRelationship] has as its default; its
    id is made of its four fields; a join links two columns named by
    identifiers without a letter of the keyword class (none of
    a d e g h i j l m n o p r t u v w in either case), and an edge of kind
    [cte] links two wildcards and ends at an identifier. *)
Theorem parseQuery_relationships_shape (s : str) (this : SQLParser) :
  exists g this',
    parseQuery (JSString s) this = (Ok g, this') /\
    Forall relationshipOK (Graph.relationships g) /\
    Forall (fun r => Relationship.type r <> lit "flow") (Graph.relationships g).
Proof.
  destruct (parseQuery_graph s this) as (this' & E & _ & _ & _ & _ & Hrel & _).
  exists (graphOf this'), this'. split; [exact E|]. simpl.
  split; [exact Hrel|]. eapply Forall_impl; [|exact Hrel].
  intros r (_ & [(Hty & _)|(Hty & _)]); rewrite Hty; discriminate.
Qed.

(** X7. The columns a table lists are columns of the graph: for a column name
    under a table there is a column with the id of the table as its
    qualifier, that name, and the two joined by a dot as its id. *)
Theorem parseQuery_columns_attached (s : str) (this : SQLParser) :
  exists g this',
    parseQuery (JSString s) this = (Ok g, this') /\
    forall t tc,
      In t (Graph.tables g) -> In tc (Table.columns t) ->
      exists c,
        In c (Graph.columns g) /\
        Column.id c = Table.id t ++ lit "." ++ TableColumn.name tc /\
        Column.table c = Table.id t /\
        Column.name c = TableColumn.name tc.
Proof.
  destruct (parseQuery_graph s this)
    as (this' & E & _ & _ & Htab & Hcol & _ & Hatt & _).
  exists (graphOf this'), this'. split; [exact E|]. simpl.
  intros t tc Ht Htc. unfold Map.values in Ht. apply in_map_iff in Ht.
  destruct Ht as ([k t'] & Et & Hin). simpl in Et. subst t'.
  rewrite Forall_forall in Htab, Hatt, Hcol.
  destruct (Htab _ Hin) as (Hid & _). simpl in Hid.
  pose proof (Hatt _ Hin) as Ha. unfold attached in Ha.
  rewrite Forall_forall in Ha. destruct (Ha _ Htc) as (c & Hget & Hct & Hcn).
  simpl in *. apply Map_get_In in Hget.
  destruct (Hcol _ Hget) as (Hk & _). simpl in Hk.
  exists c. split; [|rewrite Hid; auto].
  unfold Map.values. apply in_map_iff. exists (k ++ lit "." ++ TableColumn.name tc, c).
  auto.
Qed.

(** X8. An edge of kind [cte] ends at a table of the graph. *)
Theorem parseQuery_cte_target_registered (s : str) (this : SQLParser) :
  exists g this',
    parseQuery (JSString s) this = (Ok g, this') /\
    forall r,
      In r (Graph.relationships g) -> Relationship.type r = lit "cte" ->
      exists t, In t (Graph.tables g) /\ Table.id t = Relationship.target r.
Proof.
  destruct (parseQuery_graph s this)
    as (this' & E & _ & _ & Htab & _ & _ & _ & Htgt).
  exists (graphOf this'), this'. split; [exact E|]. simpl.
  intros r Hr Hty. rewrite Forall_forall in Htab, Htgt.
  pose proof (Htgt _ Hr Hty) as Hhas. apply Map_has_keys in Hhas.
  unfold keys in Hhas. apply in_map_iff in Hhas.
  destruct Hhas as ([k t] & Ek & Hin). simpl in Ek. subst k.
  exists t. split; [apply in_map_iff; exists (Relationship.target r, t); auto|].
  apply (Htab _ Hin).
Qed.

(* ================================================================= *)
(** ** Registering a column twice *)

(** X9. [addColumn] a second time for the same qualifier and name changes
    nothing, whatever the alias of the second call: the column keeps the
    alias of its first registration, and the table does not list the name
    twice. *)
Theorem addColumn_first_write_wins (tableRef columnName : str)
    (alias1 alias2 : option str) (this : SQLParser) :
  addColumn tableRef columnName alias2 (addColumn tableRef columnName alias1 this)
  = addColumn tableRef columnName alias1 this.
Proof.
  set (this1 := addColumn tableRef columnName alias1 this).
  assert (Map.has (tableRef ++ lit "." ++ columnName) (columns this1) = true /\
          match Map.get tableRef (tables this1) with
          | Some t => existsb (fun col => str_eqb (TableColumn.name col) columnName)
                        (Table.columns t) = true
          | None => True
          end) as [Hc Ht].
  { subst this1. unfold addColumn.
    set (columnId := tableRef ++ lit "." ++ columnName).
    set (this0 := if negb (Map.has columnId (columns this)) then _ else this).
    assert (Map.has columnId (columns this0) = true) as H0.
    { subst this0. destruct (Map.has columnId (columns this)) eqn:E; simpl;
        [exact E|]. rewrite Map_has_set, str_eqb_refl. apply orb_true_r. }
    clearbody this0.
    destruct (Map.get tableRef (tables this0)) as [table|] eqn:Hget;
      [|rewrite Hget; auto].
    destruct (existsb (fun col => str_eqb (TableColumn.name col) columnName)
                (Table.columns table)) eqn:Hex; simpl.
    - rewrite Hget. auto.
    - split; [exact H0|]. rewrite Map_get_set_same. simpl.
      rewrite existsb_app. simpl. rewrite str_eqb_refl. apply orb_true_r. }
  clearbody this1. unfold addColumn. rewrite Hc. simpl.
  destruct (Map.get tableRef (tables this1)); [rewrite Ht|]; reflexivity.
Qed.

(* ================================================================= *)
(** ** The names that the FROM and JOIN passes can register *)

Lemma star_greedy_total ic a : forall s i c,
  star_greedy ic a s i c (fun _ e c => Some (e, c))
  = Some (i + span (atom_match ic a) s, c).
Proof.
  induction s as [|x s IH]; intros i c; simpl.
  - rewrite Nat.add_0_r. reflexivity.
  - destruct (atom_match ic a x).
    + rewrite IH. rewrite Nat.add_succ_r. reflexivity.
    + rewrite Nat.add_0_r. reflexivity.
Qed.

Lemma Forall_skipn {A} (P : A -> Prop) n (l : list A) :
  Forall P l -> Forall P (skipn n l).
Proof.
  intros H. rewrite <- (firstn_skipn n l) in H. apply Forall_app in H. apply H.
Qed.

Lemma Forall_firstn {A} (P : A -> Prop) n (l : list A) :
  Forall P l -> Forall P (firstn n l).
Proof.
  intros H. rewrite <- (firstn_skipn n l) in H. apply Forall_app in H. apply H.
Qed.

Lemma skipn_span_app (p : char -> bool) (P : char -> Prop) sp g :
  Forall (fun x => p x = true) sp -> Forall P g ->
  Forall P (skipn (span p (sp ++ g)) (sp ++ g)).
Proof.
  intros Hsp Hg. induction Hsp as [|x sp Hx Hsp IH]; simpl.
  - apply Forall_skipn, Hg.
  - rewrite Hx. simpl. exact IH.
Qed.

Lemma matches_go_Forall re (P : Match -> Prop) :
  (forall s i m, match_at re s i = Some m -> P m) ->
  forall s i skip, Forall P (matches_go re s i skip).
Proof.
  intros HP. induction s as [|x s IH]; intros i skip.
  - destruct skip; simpl; [|constructor].
    destruct (match_at re [] i) eqn:E; [|constructor].
    constructor; [eapply HP, E | constructor].
  - destruct skip; simpl; [|apply IH].
    destruct (match_at re (x :: s) i) eqn:E; [|apply IH].
    constructor; [eapply HP, E | apply IH].
Qed.

Lemma split_go_Forall (P : char -> Prop) sep : forall s current,
  Forall P s -> Forall P current -> Forall (Forall P) (split_go sep s current).
Proof.
  induction s as [|x s IH]; intros current Hs Hc; simpl.
  - constructor; [exact Hc | constructor].
  - inversion Hs; subst. destruct (x =? sep)%N.
    + constructor; [exact Hc | apply IH; [assumption | constructor]].
    + apply IH; [assumption|]. apply Forall_app. split; [exact Hc|].
      constructor; [assumption | constructor].
Qed.

Lemma splitRe_go_Forall (P : char -> Prop) re : forall s i skip current,
  Forall P s -> Forall P current ->
  Forall (Forall P) (splitRe_go re s i skip current).
Proof.
  induction s as [|x s IH]; intros i skip current Hs Hc.
  - destruct skip; simpl; (constructor; [exact Hc | constructor]).
  - inversion Hs; subst. destruct skip; simpl; [|apply IH; assumption].
    destruct (match_at re (x :: s) i) as [m|].
    + destruct (Nat.eqb (lastIndex m) i).
      * destruct (isEmpty current);
          [|constructor; [exact Hc|]]; apply IH; auto.
      * constructor; [exact Hc|]. apply IH; auto.
    + apply IH; [assumption|]. apply Forall_app. auto.
Qed.

Lemma splitRe_Forall (P : char -> Prop) re s :
  Forall P s -> Forall (Forall P) (splitRe re s).
Proof.
  intros Hs. unfold splitRe. destruct s as [|x s].
  - destruct (match_at re [] 0); repeat constructor.
  - apply splitRe_go_Forall; [exact Hs | constructor].
Qed.

Lemma Forall_last {A} (P : A -> Prop) l d : Forall P l -> P d -> P (last l d).
Proof.
  intros Hl Hd. induction Hl as [|x l Hx Hl IH]; [exact Hd|].
  simpl. destruct l; [exact Hx | exact IH].
Qed.

Lemma Forall_filter {A} (P : A -> Prop) p (l : list A) :
  Forall P l -> Forall P (filter p l).
Proof.
  induction 1 as [|x l Hx Hl IH]; simpl; [constructor|].
  destruct (p x); [constructor|]; assumption.
Qed.

Lemma fromPattern_source :
  source fromPattern =
  Seq (Seq (Atom (Chr (chr "F")))
         (Seq (Atom (Chr (chr "R")))
            (Seq (Atom (Chr (chr "O"))) (Atom (Chr (chr "M"))))))
      (Seq (Plus space)
         (Group 1 (Plus (Class true
            (chars "WHERE|JOIN|GROUP|ORDER|HAVING|LIMIT|;"))))).
Proof. reflexivity. Qed.

Lemma fromKeyword_source :
  source fromKeyword =
  Seq (Seq (Atom (Chr (chr "F")))
         (Seq (Atom (Chr (chr "R")))
            (Seq (Atom (Chr (chr "O"))) (Atom (Chr (chr "M"))))))
      (Plus space).
Proof. reflexivity. Qed.

(** The text matched by [fromPattern]: the keyword, white space, and
    characters outside the class. *)
Lemma match_at_fromPattern s i m :
  match_at fromPattern s i = Some m ->
  exists c1 c2 c3 c4 x sp g,
    whole m = c1 :: c2 :: c3 :: c4 :: x :: sp ++ g /\
    chr_match true (chr "F") c1 = true /\ chr_match true (chr "R") c2 = true /\
    chr_match true (chr "O") c3 = true /\ chr_match true (chr "M") c4 = true /\
    isSpace x = true /\ Forall (fun y => isSpace y = true) sp /\
    keywordFree g.
Proof.
  unfold match_at. rewrite fromPattern_source.
  change (ignoreCase fromPattern) with true.
  change (multiline fromPattern) with false.
  destruct (mtch _ _ _ s i [] (fun _ e c => Some (e, c))) as [[e cf]|] eqn:E;
    [|discriminate].
  intros Hm. inversion Hm; subst; clear Hm. cbn [whole].
  cbn [mtch Plus space atom_match esc_match] in E.
  destruct s as [|c1 s]; [discriminate E|].
  destruct (chr_match true (chr "F") c1) eqn:H1; [|discriminate E].
  destruct s as [|c2 s]; [discriminate E|].
  destruct (chr_match true (chr "R") c2) eqn:H2; [|discriminate E].
  destruct s as [|c3 s]; [discriminate E|].
  destruct (chr_match true (chr "O") c3) eqn:H3; [|discriminate E].
  destruct s as [|c4 s]; [discriminate E|].
  destruct (chr_match true (chr "M") c4) eqn:H4; [|discriminate E].
  destruct s as [|x r]; [discriminate E|].
  destruct (isSpace x) eqn:Hx; [|discriminate E].
  apply star_greedy_consumes in E. destruct E as (n & Hn & E & Hsp).
  destruct (skipn n r) as [|y r'] eqn:Hr; [discriminate E|].
  destruct (existsb (item_match true y) _) eqn:Hy in E; [discriminate E|].
  cbn [xorb] in E.
  apply star_greedy_consumes in E. destruct E as (n2 & Hn2 & E & Hg).
  inversion E; subst; clear E.
  exists c1, c2, c3, c4, x, (firstn n r), (y :: firstn n2 r').
  replace (S (S (S (S (S (S (i + n + n2)))))) - i)
    with (S (S (S (S (S (n + S n2)))))) by lia.
  cbn [firstn]. rewrite firstn_plus, Hr. cbn [firstn].
  split; [reflexivity|]. do 5 (split; [assumption|]).
  split; [exact Hsp|]. constructor.
  - exact Hy.
  - eapply Forall_impl; [|exact Hg]. intros z Hz. cbn [atom_match] in Hz.
    destruct (keywordLetter z) eqn:X; [|reflexivity].
    unfold keywordLetter in X. rewrite X in Hz. discriminate Hz.
Qed.

Lemma replaceFirst_fromKeyword c1 c2 c3 c4 x sp g :
  chr_match true (chr "F") c1 = true -> chr_match true (chr "R") c2 = true ->
  chr_match true (chr "O") c3 = true -> chr_match true (chr "M") c4 = true ->
  isSpace x = true -> Forall (fun y => isSpace y = true) sp -> keywordFree g ->
  keywordFree (replaceFirst fromKeyword [] (c1 :: c2 :: c3 :: c4 :: x :: sp ++ g)).
Proof.
  intros H1 H2 H3 H4 Hx Hsp Hg.
  unfold replaceFirst, exec. cbn [search]. unfold match_at.
  rewrite fromKeyword_source.
  change (ignoreCase fromKeyword) with true.
  change (multiline fromKeyword) with false.
  cbn [mtch Plus space atom_match esc_match].
  rewrite H1, H2, H3, H4, Hx. rewrite star_greedy_total.
  cbn [index lastIndex firstn skipn Nat.add app].
  apply skipn_span_app; assumption.
Qed.

Lemma fromStep_refl a : fromStep a a.
Proof. repeat split. auto. Qed.

Lemma fromStep_trans a b c : fromStep a b -> fromStep b c -> fromStep a c.
Proof.
  intros (Hr1 & Hc1 & Ht1) (Hr2 & Hc2 & Ht2).
  split; [congruence|]. split; [congruence|].
  intros kv Hin. destruct (Ht2 kv Hin) as [H|H]; auto.
Qed.

Lemma joinStep_refl a : joinStep a a.
Proof. split; [reflexivity|]. exists []. rewrite app_nil_r. auto. Qed.

Lemma joinStep_trans a b c : joinStep a b -> joinStep b c -> joinStep a c.
Proof.
  intros (Hc1 & n1 & Hr1 & Hn1) (Hc2 & n2 & Hr2 & Hn2).
  split; [congruence|]. exists (n1 ++ n2).
  split; [rewrite Hr2, Hr1, app_assoc; reflexivity | apply Forall_app; auto].
Qed.

Lemma within_forEach_Forall {A} (R : SQLParser -> SQLParser -> Prop)
    (f : A -> M unit) l :
  (forall a, R a a) -> (forall a b c, R a b -> R b c -> R a c) ->
  Forall (fun x => within R (f x)) l -> within R (forEach f l).
Proof.
  intros Hrefl Htrans. induction 1 as [|x l Hx Hl IH]; simpl.
  - apply within_ret, Hrefl.
  - apply within_bind; auto.
Qed.

Lemma within_defined_then {A B} (R : SQLParser -> SQLParser -> Prop)
    (o : option A) (k : A -> M B) :
  (forall a, R a a) ->
  (forall a, o = Some a -> within R (k a)) -> within R (bind (defined o) k).
Proof.
  intros Hrefl H this. destruct o as [a|]; [|apply Hrefl].
  apply (H a eq_refl this).
Qed.

Lemma within_loopMatches_then {B} (R : SQLParser -> SQLParser -> Prop)
    re s (k : list Match -> M B) :
  (forall a, R a a) ->
  (forall ms, execLoop re s = Some ms -> within R (k ms)) ->
  within R (bind (loopMatches re s) k).
Proof.
  intros Hrefl H this. unfold bind, loopMatches.
  destruct (execLoop re s) as [ms|]; [|apply Hrefl].
  apply (H ms eq_refl this).
Qed.

Lemma addTable_fromStep name alias :
  keywordFree name -> (forall a, alias = Some a -> keywordFree a) ->
  within fromStep (update (addTable name alias (lit "table"))).
Proof.
  intros Hn Ha this. unfold update, addTable. simpl.
  destruct (Map.has _ (tables this)); simpl; [apply fromStep_refl|].
  split; [reflexivity|]. split; [reflexivity|]. simpl.
  intros kv Hin. apply Map_set_In in Hin. destruct Hin as [->|Hin]; [right|auto].
  assert (keywordFree (replaceG quoteChars [] name)) as Hc
    by (rewrite replaceG_quoteChars; apply Forall_filter, Hn).
  unfold fromEntry; simpl. split; [|auto].
  destruct alias as [a|]; [|exact Hc].
  destruct (isEmpty a); [exact Hc | apply Ha; reflexivity].
Qed.

Lemma extractTable_fromStep part :
  keywordFree part -> within fromStep (extractTable part).
Proof.
  intros Hp. unfold extractTable.
  destruct (includes (chr "(") (trim part)); [apply within_ret, fromStep_refl|].
  pose proof (splitRe_Forall whitespace (trim_Forall Hp)) as Hparts.
  apply within_defined_then; [apply fromStep_refl|]. intros tableName Hhd.
  apply addTable_fromStep.
  - destruct (splitRe whitespace (trim part)) as [|n rest]; [discriminate|].
    inversion Hhd; subst. inversion Hparts; assumption.
  - intros a Ha.
    destruct (splitRe whitespace (trim part)) as [|n [|second rest]];
      try discriminate.
    destruct (negb _); [|discriminate]. injection Ha as Ha. rewrite <- Ha.
    change (keywordFree (last (n :: second :: rest) [])).
    apply (@Forall_last _ keywordFree); [exact Hparts | constructor].
Qed.

Lemma parseFromClause_fromStep query : within fromStep (parseFromClause query).
Proof.
  unfold parseFromClause, matchG.
  apply within_forEach_Forall; [apply fromStep_refl | apply fromStep_trans|].
  apply Forall_map.
  apply matches_go_Forall. intros s i m Hm.
  apply match_at_fromPattern in Hm.
  destruct Hm as (c1 & c2 & c3 & c4 & x & sp & g & -> & H1 & H2 & H3 & H4 & Hx
                  & Hsp & Hg).
  unfold extractTablesFromString.
  apply within_forEach_Forall; [apply fromStep_refl | apply fromStep_trans|].
  eapply Forall_impl; [intros part; apply extractTable_fromStep|].
  apply split_go_Forall; [|constructor].
  apply trim_Forall, replaceFirst_fromKeyword; assumption.
Qed.

(** X10. The FROM pass registers no name with a letter of the keyword class: the
    tables it adds have an id and a name without any of the letters
    a d e g h i j l m n o p r t u v w, in either case, and without bar and
    semicolon; they are of kind [table] and have no column yet.  The pass
    leaves the relationships and the columns as they are. *)
Theorem parseFromClause_keyword_free (query : str) (this : SQLParser) :
  Forall (fun x => keywordLetter x = true)
         (lit "adeghijlmnoprtuvwADEGHIJLMNOPRTUVW|;") /\
  exists this',
    parseFromClause query this = (Ok tt, this') /\ fromStep this this'.
Proof.
  split; [repeat constructor|].
  destruct (parseFromClause_returns query this) as ([] & this' & E).
  exists this'. split; [exact E|].
  pose proof (parseFromClause_fromStep query this) as H. rewrite E in H. exact H.
Qed.

Lemma parseJoinCondition_joinStep condition :
  keywordFree condition -> within joinStep (parseJoinCondition condition).
Proof.
  intros Hc. unfold parseJoinCondition.
  apply within_loopMatches_then; [apply joinStep_refl|]. intros ms Hms.
  apply scan_captured in Hms.
  apply within_forEach_Forall; [apply joinStep_refl | apply joinStep_trans|].
  eapply Forall_impl; [|exact Hms]. intros m Hm.
  apply within_defined_then; [apply joinStep_refl|]. intros leftTable H1.
  apply within_defined_then; [apply joinStep_refl|]. intros leftColumn H2.
  apply within_defined_then; [apply joinStep_refl|]. intros rightTable H3.
  apply within_defined_then; [apply joinStep_refl|]. intros rightColumn H4.
  intros this. unfold update, addRelationship. simpl.
  split; [reflexivity|]. eexists. split; [reflexivity|].
  constructor; [|constructor]. unfold joinEdge; simpl.
  split; [reflexivity|].
  repeat split; eapply captured_Forall; eauto.
Qed.

Lemma parseJoins_joinStep query : within joinStep (parseJoins query).
Proof.
  unfold parseJoins.
  apply within_loopMatches_then; [apply joinStep_refl|]. intros ms Hms.
  apply scan_captured in Hms.
  apply within_forEach_Forall; [apply joinStep_refl | apply joinStep_trans|].
  eapply Forall_impl; [|exact Hms]. intros m Hm.
  apply within_defined_then; [apply joinStep_refl|]. intros tableName _.
  apply within_defined_then; [apply joinStep_refl|]. intros onCondition H4.
  apply within_bind;
    [apply joinStep_trans | | intros _; apply parseJoinCondition_joinStep].
  - intros this. unfold update, addTable. simpl.
    destruct (Map.has _ (tables this)); simpl; [apply joinStep_refl|].
    split; [reflexivity|]. exists []. rewrite app_nil_r. auto.
  - eapply joinPattern_condition; eassumption.
Qed.

(** X11. The JOIN pass records a relationship only between names without a letter
    of the keyword class: every relationship it appends is of kind [join] and
    its two tables and two columns hold none of the letters
    a d e g h i j l m n o p r t u v w, in either case.  The pass leaves the
    columns as they are. *)
Theorem parseJoins_keyword_free (query : str) (this : SQLParser) :
  exists this',
    parseJoins query this = (Ok tt, this') /\ joinStep this this'.
Proof.
  destruct (parseJoins_returns query this) as ([] & this' & E).
  exists this'. split; [exact E|].
  pose proof (parseJoins_joinStep query this) as H. rewrite E in H. exact H.
Qed.

(* ================================================================= *)
(** ** The text that [cleanQuery] returns *)

Lemma match_at_whitespace x s i :
  match_at whitespace (x :: s) i =
  if isSpace x then
    Some {| index := i;
            whole := firstn (S i + span isSpace s - i) (x :: s);
            groups := [];
            lastIndex := S i + span isSpace s |}
  else None.
Proof.
  unfold match_at.
  change (source whitespace) with (Seq (Atom space) (Star true space)).
  cbn [mtch space atom_match esc_match].
  destruct (isSpace x); [|reflexivity].
  rewrite star_greedy_total. reflexivity.
Qed.

Lemma match_at_whitespace_nil i : match_at whitespace [] i = None.
Proof. reflexivity. Qed.

Lemma collapse_not_space s :
  startsWithSpace s = false -> collapse true s = collapse false s.
Proof. destruct s as [|x s]; simpl; [reflexivity|]. intros ->. reflexivity. Qed.

(** The replacement of [/\s+/g] by a space is [collapse]. *)
Lemma replace_go_whitespace : forall s i,
  replace_go whitespace (lit " ") s i 0 = collapse false s /\
  replace_go whitespace (lit " ") s i (span isSpace s) = collapse true s.
Proof.
  induction s as [|x s IH]; intros i.
  - simpl. auto.
  - assert (replace_go whitespace (lit " ") (x :: s) i 0 = collapse false (x :: s))
      as H0.
    { cbn [replace_go collapse]. rewrite match_at_whitespace.
      destruct (isSpace x).
      - cbn [lastIndex].
        replace (Nat.eqb (S i + span isSpace s) i) with false
          by (symmetry; apply Nat.eqb_neq; lia).
        replace (S i + span isSpace s - i - 1) with (span isSpace s) by lia.
        rewrite (proj2 (IH (S i))). reflexivity.
      - rewrite (proj1 (IH (S i))). reflexivity. }
    split; [exact H0|].
    cbn [span]. destruct (isSpace x) eqn:Hx.
    + cbn [replace_go collapse]. rewrite Hx. apply IH.
    + rewrite H0. cbn [collapse]. rewrite Hx. reflexivity.
Qed.

Lemma replaceG_whitespace s :
  replaceG whitespace (lit " ") s = collapse false s.
Proof. apply replace_go_whitespace. Qed.

Lemma collapse_spaces b s :
  Forall (fun x => isSpace x = true -> x = chr " ") (collapse b s).
Proof.
  revert b. induction s as [|x s IH]; intros b; simpl; [constructor|].
  destruct (isSpace x) eqn:Hx.
  - destruct b; [apply IH|]. constructor; [reflexivity | apply IH].
  - constructor; [congruence | apply IH].
Qed.

Lemma collapse_true_start s : startsWithSpace (collapse true s) = false.
Proof.
  induction s as [|x s IH]; simpl; [reflexivity|].
  destruct (isSpace x) eqn:Hx; [exact IH | exact Hx].
Qed.

Lemma collapse_singleSpaced b s : singleSpaced (collapse b s) = true.
Proof.
  revert b. induction s as [|x s IH]; intros b; [reflexivity|].
  cbn [collapse]. destruct (isSpace x) eqn:Hx.
  - destruct b; [apply IH|]. cbn [singleSpaced]. rewrite IH.
    pose proof (collapse_true_start s) as Hs.
    destruct (collapse true s); [reflexivity|]. simpl in Hs. rewrite Hs.
    rewrite andb_false_r. reflexivity.
  - cbn [singleSpaced]. rewrite IH, Hx.
    destruct (collapse false s); reflexivity.
Qed.

Lemma singleSpaced_tail x s : singleSpaced (x :: s) = true -> singleSpaced s = true.
Proof. cbn [singleSpaced]. intros H. apply andb_true_iff in H. apply H. Qed.

Lemma singleSpaced_app_r a s : singleSpaced (a ++ s) = true -> singleSpaced s = true.
Proof.
  induction a as [|x a IH]; [auto|]. intros H. apply IH.
  eapply singleSpaced_tail, H.
Qed.

Lemma singleSpaced_app_l s b : singleSpaced (s ++ b) = true -> singleSpaced s = true.
Proof.
  induction s as [|x s IH]; [reflexivity|]. intros H.
  change ((x :: s) ++ b) with (x :: (s ++ b)) in H. cbn [singleSpaced] in H.
  apply andb_true_iff in H. destruct H as [H1 H2].
  cbn [singleSpaced]. rewrite (IH H2), andb_true_r.
  destruct s; [reflexivity | exact H1].
Qed.

Lemma trimStart_suffix s : exists a, s = a ++ trimStart s.
Proof.
  induction s as [|x s (a & IH)]; simpl; [exists []; reflexivity|].
  destruct (isSpace x); [|exists []; reflexivity].
  exists (x :: a). simpl. rewrite <- IH. reflexivity.
Qed.

Lemma trim_segment s : exists a b, s = a ++ trim s ++ b.
Proof.
  destruct (trimStart_suffix s) as (a & Ha).
  destruct (trimStart_suffix (rev (trimStart s))) as (b & Hb).
  exists a, (rev b). unfold trim, trimEnd. rewrite <- rev_app_distr, <- Hb.
  rewrite rev_involutive. exact Ha.
Qed.

Lemma trimStart_start s : startsWithSpace (trimStart s) = false.
Proof.
  induction s as [|x s IH]; simpl; [reflexivity|].
  destruct (isSpace x) eqn:Hx; [exact IH | exact Hx].
Qed.

Lemma trimStart_fixed s : startsWithSpace s = false -> trimStart s = s.
Proof. destruct s as [|x s]; simpl; [reflexivity|]. intros ->. reflexivity. Qed.

Lemma trimStart_app x l r :
  isSpace x = false -> trimStart (l ++ x :: r) = trimStart l ++ x :: r.
Proof.
  intros Hx. induction l as [|y l IH]; simpl; [rewrite Hx; reflexivity|].
  destruct (isSpace y); [exact IH | reflexivity].
Qed.

Lemma trimEnd_start s :
  startsWithSpace s = false -> startsWithSpace (trimEnd s) = false.
Proof.
  unfold trimEnd. destruct s as [|x s]; [reflexivity|]. simpl. intros Hx.
  rewrite trimStart_app by exact Hx. rewrite rev_app_distr. simpl. exact Hx.
Qed.

Lemma trim_ends s :
  startsWithSpace (trim s) = false /\ startsWithSpace (rev (trim s)) = false.
Proof.
  unfold trim. split.
  - apply trimEnd_start, trimStart_start.
  - unfold trimEnd. rewrite rev_involutive. apply trimStart_start.
Qed.

Lemma trim_fixed s :
  startsWithSpace s = false -> startsWithSpace (rev s) = false -> trim s = s.
Proof.
  intros H1 H2. unfold trim, trimEnd.
  rewrite (trimStart_fixed _ H1), (trimStart_fixed _ H2). apply rev_involutive.
Qed.

Lemma cleaned_normalized s :
  normalized (trim (replaceG whitespace (lit " ")
                      (replaceG blockComment [] (replaceG lineComment [] s)))).
Proof.
  rewrite replaceG_whitespace.
  set (t := replaceG blockComment [] (replaceG lineComment [] s)).
  destruct (trim_segment (collapse false t)) as (a & b & Hseg).
  split; [|split; [|apply trim_ends]].
  - apply trim_Forall, collapse_spaces.
  - pose proof (collapse_singleSpaced false t) as H. rewrite Hseg in H.
    apply singleSpaced_app_r in H. apply singleSpaced_app_l in H. exact H.
Qed.

(** X12. The text that [cleanQuery] returns is normalized: its only white space
    is single spaces, none of them first or last; line ends, tabs and runs
    of blanks are gone.  It is not longer than the text given. *)
Theorem cleanQuery_normalized (s : str) (this : SQLParser) :
  exists q,
    cleanQuery (JSString s) this = (Ok q, this) /\
    normalized q /\ List.length q <= List.length s.
Proof.
  exists (trim (replaceG whitespace (lit " ")
                  (replaceG blockComment [] (replaceG lineComment [] s)))).
  split; [reflexivity|]. split; [apply cleaned_normalized|].
  destruct (cleanQuery_returns s this) as (q & this' & E & Hlen).
  inversion E; subst. exact Hlen.
Qed.

Lemma replace_go_requires re c0 rep :
  requires c0 (source re) = true ->
  forall s i, includes c0 s = false -> replace_go re rep s i 0 = s.
Proof.
  intros Hreq. induction s as [|x s IH]; intros i Hs.
  - simpl. destruct (match_at re [] i) eqn:E; [|reflexivity].
    apply match_at_consumes in E. destruct E as (n & _ & _ & Hr & _).
    apply Hr in Hreq. rewrite firstn_nil in Hreq. contradiction.
  - assert (includes c0 s = false) as Hs'
      by (simpl in Hs; apply orb_false_iff in Hs; apply Hs).
    cbn [replace_go]. destruct (match_at re (x :: s) i) eqn:E.
    + apply match_at_consumes in E. destruct E as (n & _ & _ & Hr & _).
      apply Hr in Hreq.
      assert (In c0 (x :: s)) as Hin
        by (rewrite <- (firstn_skipn n (x :: s)); apply in_or_app; auto).
      apply includes_In in Hin. congruence.
    + rewrite IH by exact Hs'. reflexivity.
Qed.

Lemma collapse_normalized q :
  Forall (fun x => isSpace x = true -> x = chr " ") q ->
  singleSpaced q = true -> collapse false q = q.
Proof.
  induction 1 as [|x q Hx Hq IH]; intros Hs; [reflexivity|].
  cbn [collapse]. pose proof (singleSpaced_tail _ _ Hs) as Hs'.
  destruct (isSpace x) eqn:Ex.
  - rewrite (Hx eq_refl). f_equal.
    rewrite collapse_not_space; [apply IH, Hs'|].
    cbn [singleSpaced] in Hs. destruct q as [|y q]; [reflexivity|].
    rewrite Ex in Hs. simpl in *. destruct (isSpace y); [discriminate | reflexivity].
  - f_equal. apply IH, Hs'.
Qed.

(** A normalized text without hyphen and slash is a fixed point of
    [cleanQuery]. *)
Lemma cleanQuery_fixed q this :
  normalized q -> includes (chr "-") q = false -> includes (chr "/") q = false ->
  cleanQuery (JSString q) this = (Ok q, this).
Proof.
  intros (Hsp & Hss & H1 & H2) Hd Hsl. unfold cleanQuery, ret.
  unfold replaceG at 3. rewrite (@replace_go_requires lineComment (chr "-"));
    [|reflexivity | exact Hd].
  unfold replaceG at 2. rewrite (@replace_go_requires blockComment (chr "/"));
    [|reflexivity | exact Hsl].
  rewrite replaceG_whitespace, collapse_normalized by assumption.
  rewrite trim_fixed by assumption. reflexivity.
Qed.

Lemma includes_Forall c s : includes c s = false <-> Forall (fun x => x <> c) s.
Proof.
  split; [|apply Forall_not_includes].
  induction s as [|x s IH]; simpl; [constructor|].
  intros H. apply orb_false_iff in H. destruct H as [Hx Hs].
  constructor; [|apply IH, Hs]. apply N.eqb_neq in Hx. congruence.
Qed.

(** X13. On a text without hyphen and slash, and so without comment,
    [cleanQuery] is idempotent: cleaning the cleaned text returns it
    unchanged. *)
Theorem cleanQuery_idempotent (s : str) (this : SQLParser) :
  includes (chr "-") s = false -> includes (chr "/") s = false ->
  exists q,
    cleanQuery (JSString s) this = (Ok q, this) /\
    cleanQuery (JSString q) this = (Ok q, this).
Proof.
  intros Hd Hsl.
  set (q := trim (replaceG whitespace (lit " ")
                    (replaceG blockComment [] (replaceG lineComment [] s)))).
  assert (cleanQuery (JSString s) this = (Ok q, this)) as E by reflexivity.
  pose proof (cleaned_normalized s) as Hn. fold q in Hn.
  exists q. split; [exact E|].
  assert (forall c, c <> chr " " -> includes c s = false -> includes c q = false)
    as Hkeep.
  { intros c Hc Hs. apply includes_Forall. apply includes_Forall in Hs.
    destruct (@cleanQuery_Forall (fun x => x <> c) s) with (this := this)
      as (q' & this' & E' & Hq'); [congruence | exact Hs |].
    rewrite E in E'. inversion E'; subst. exact Hq'. }
  apply cleanQuery_fixed; [exact Hn | |]; apply Hkeep; try assumption;
    discriminate.
Qed.

Lemma cleanQuery_idempotent_witness :
  exists q,
    cleanQuery (JSString (lit "SELECT  a.b   FROM x ")) constructor
      = (Ok q, constructor) /\
    cleanQuery (JSString q) constructor = (Ok q, constructor).
Proof.
  apply (@cleanQuery_idempotent (lit "SELECT  a.b   FROM x ") constructor);
    reflexivity.
Defined.

(* ================================================================= *)
(** ** What the SELECT pass leaves alone *)

Lemma sameTable_refl kv : sameTable kv kv.
Proof. repeat split. exists []. rewrite app_nil_r. reflexivity. Qed.

Lemma sameTable_trans a b c : sameTable a b -> sameTable b c -> sameTable a c.
Proof.
  intros (H1 & H2 & H3 & H4 & H5 & m1 & H6) (G1 & G2 & G3 & G4 & G5 & m2 & G6).
  repeat split; try congruence.
  exists (m1 ++ m2). rewrite G6, H6, app_assoc. reflexivity.
Qed.

Lemma Forall2_same {A} (R : A -> A -> Prop) l :
  (forall a, R a a) -> Forall2 R l l.
Proof. intros H. induction l; constructor; auto. Qed.

Lemma Forall2_compose {A} (R : A -> A -> Prop) :
  (forall a b c, R a b -> R b c -> R a c) ->
  forall l1 l2 l3, Forall2 R l1 l2 -> Forall2 R l2 l3 -> Forall2 R l1 l3.
Proof.
  intros Htrans l1 l2 l3 H. revert l3.
  induction H as [|a b l1 l2 Hab H IH]; intros l3 H3; inversion H3; subst;
    constructor; eauto.
Qed.

Lemma Map_set_Forall2 {V} (R : str * V -> str * V -> Prop) k (t t' : V) m :
  (forall kv, R kv kv) -> Map.get k m = Some t -> R (k, t) (k, t') ->
  Forall2 R m (Map.set k t' m).
Proof.
  intros Hrefl. induction m as [|[k0 v0] m IH]; simpl; [discriminate|].
  destruct (str_eqb k0 k) eqn:E; intros Hget HR.
  - apply str_eqb_eq in E. subst k0. inversion Hget; subst.
    constructor; [exact HR | apply Forall2_same, Hrefl].
  - constructor; [apply Hrefl | apply IH; assumption].
Qed.

Lemma selectStep_refl a : selectStep a a.
Proof.
  split; [reflexivity|]. split; [exists []; rewrite app_nil_r; reflexivity|].
  apply Forall2_same, sameTable_refl.
Qed.

Lemma selectStep_trans a b c : selectStep a b -> selectStep b c -> selectStep a c.
Proof.
  intros (Hr1 & (n1 & Hc1) & Ht1) (Hr2 & (n2 & Hc2) & Ht2).
  split; [congruence|]. split.
  - exists (n1 ++ n2). rewrite Hc2, Hc1, app_assoc. reflexivity.
  - eapply Forall2_compose; [apply sameTable_trans | exact Ht1 | exact Ht2].
Qed.

Lemma addColumn_selectStep tableRef columnName alias :
  within selectStep (update (addColumn tableRef columnName alias)).
Proof.
  intros this. unfold update, addColumn. cbn [snd].
  set (columnId := tableRef ++ lit "." ++ columnName).
  set (this1 := if negb (Map.has columnId (columns this)) then _ else this).
  assert (selectStep this this1) as H1.
  { subst this1. destruct (Map.has columnId (columns this)) eqn:Hhas; simpl;
      [apply selectStep_refl|].
    split; [reflexivity|]. split; [|apply Forall2_same, sameTable_refl].
    simpl. rewrite Map_set_new by exact Hhas. eauto. }
  clearbody this1. apply (selectStep_trans H1).
  destruct (Map.get tableRef (tables this1)) as [table|] eqn:Hget;
    [|apply selectStep_refl].
  destruct (existsb _ (Table.columns table)); simpl; [apply selectStep_refl|].
  split; [reflexivity|]. split; [exists []; rewrite app_nil_r; reflexivity|].
  simpl. eapply Map_set_Forall2; [apply sameTable_refl | exact Hget |].
  repeat split. simpl. eauto.
Qed.

Lemma parseSelectClause_selectStep query :
  within selectStep (parseSelectClause query).
Proof.
  unfold parseSelectClause.
  destruct (exec selectPattern query); [|apply within_ret, selectStep_refl].
  apply within_bind; [apply selectStep_trans | apply within_defined, selectStep_refl|].
  intros selectClause. unfold parseSelectColumns.
  destruct (str_eqb (trim selectClause) (lit "*"));
    [apply within_ret, selectStep_refl|].
  apply within_forEach; [apply selectStep_refl | apply selectStep_trans|].
  intros col. unfold parseSelectColumn.
  destruct (includes (chr "(") (trim col) && _);
    [apply within_ret, selectStep_refl|].
  destruct (exec columnPattern (trim col)); [|apply within_ret, selectStep_refl].
  apply within_bind; [apply selectStep_trans | apply within_defined, selectStep_refl|].
  intros tableRef.
  apply within_bind; [apply selectStep_trans | apply within_defined, selectStep_refl|].
  intros columnName. apply addColumn_selectStep.
Qed.

(** X14. The SELECT pass creates no table and no relationship: it leaves the
    relationships as they are, keeps every table under its key with its id,
    name, alias and kind and only appends column names to it, and only
    appends to the columns.  A column whose qualifier is not a registered
    table is therefore a column of the graph that no table lists. *)
Theorem parseSelectClause_frame (query : str) (this : SQLParser) :
  exists this',
    parseSelectClause query this = (Ok tt, this') /\ selectStep this this'.
Proof.
  destruct (parseSelectClause_returns query this) as ([] & this' & E).
  exists this'. split; [exact E|].
  pose proof (parseSelectClause_selectStep query this) as H. rewrite E in H.
  exact H.
Qed.

(* ================================================================= *)
(** ** The test for AS in the FROM list *)

Lemma upper_A_keyword x : upperChar x = chr "A" -> keywordLetter x = true.
Proof.
  unfold upperChar. intros H.
  destruct ((97 <=? x)%N && (x <=? 122)%N) eqn:E1.
  - assert (x = 97%N) as ->; [|reflexivity].
    apply andb_true_iff in E1. destruct E1 as [E1 E2].
    apply N.leb_le in E1, E2. change (chr "A") with 65%N in H. lia.
  - destruct (x =? 383)%N; [discriminate H|]. subst x. reflexivity.
Qed.

Lemma keywordFree_not_AS word :
  keywordFree word -> str_eqb (toUpperCase word) (lit "AS") = false.
Proof.
  intros Hw. destruct (str_eqb (toUpperCase word) (lit "AS")) eqn:E; [|reflexivity].
  apply str_eqb_eq in E. destruct word as [|x word]; [discriminate E|].
  inversion Hw; subst. simpl in E. inversion E as [[Hx Hrest]].
  apply upper_A_keyword in Hx. congruence.
Qed.

(** X15. The FROM pass never meets the word AS: on every word of every item of
    every FROM list that [parseFromClause] hands to
    [extractTablesFromString], the test for AS is false, so the last word of
    an item of two or more words is always taken as the alias. *)
Theorem from_list_never_holds_AS (query : str) :
  Forall
    (fun match_ =>
       Forall
         (fun part =>
            Forall (fun word => str_eqb (toUpperCase word) (lit "AS") = false)
                   (splitRe whitespace (trim part)))
         (split (chr ",") (trim (replaceFirst fromKeyword [] match_))))
    (matchG fromPattern query).
Proof.
  unfold matchG. apply Forall_map. apply matches_go_Forall. intros s i m Hm.
  apply match_at_fromPattern in Hm.
  destruct Hm as (c1 & c2 & c3 & c4 & x & sp & g & -> & H1 & H2 & H3 & H4 & Hx
                  & Hsp & Hg).
  assert (Forall keywordFree
            (split (chr ",")
               (trim (replaceFirst fromKeyword []
                        (c1 :: c2 :: c3 :: c4 :: x :: sp ++ g))))) as Hparts.
  { apply split_go_Forall; [|constructor].
    apply trim_Forall, replaceFirst_fromKeyword; assumption. }
  eapply Forall_impl; [|exact Hparts]. intros part Hp.
  pose proof (splitRe_Forall whitespace (trim_Forall Hp)) as Hwords.
  eapply Forall_impl; [|exact Hwords]. intros word Hw.
  apply keywordFree_not_AS, Hw.
Qed.

(* ================================================================= *)
(** ** A delimiter that is not one character *)

Lemma smartSplit_loop_no_delimiter delimiter :
  List.length delimiter <> 1 ->
  forall s result current depth,
    smartSplit_loop delimiter s result current depth = (result, current ++ s).
Proof.
  intros Hd. assert (forall x, str_eqb [x] delimiter = false) as Hno.
  { intros x. destruct (str_eqb [x] delimiter) eqn:E; [|reflexivity].
    apply str_eqb_eq in E. subst delimiter. simpl in Hd. congruence. }
  induction s as [|x s IH]; intros result current depth;
    cbn [smartSplit_loop].
  - rewrite app_nil_r. reflexivity.
  - rewrite Hno. cbn [andb].
    destruct (x =? chr "(")%N; [|destruct (x =? chr ")")%N];
      rewrite IH, <- app_assoc; reflexivity.
Qed.

(** X16. [smartSplit] compares single characters with the delimiter, so a
    delimiter of no character or of more than one never splits: the result
    is the whole text trimmed, or nothing when that is empty. *)
Theorem smartSplit_long_delimiter (s delimiter : str) :
  List.length delimiter <> 1 ->
  smartSplit s delimiter = if isEmpty (trim s) then [] else [trim s].
Proof.
  intros Hd. unfold smartSplit.
  rewrite (@smartSplit_loop_no_delimiter delimiter Hd). simpl.
  destruct (isEmpty (trim s)); reflexivity.
Qed.

Lemma smartSplit_long_delimiter_witness :
  smartSplit (lit "a, b, c") (lit ", ") = [lit "a, b, c"].
Proof.
  rewrite (@smartSplit_long_delimiter (lit "a, b, c") (lit ", "));
    [reflexivity | simpl; lia].
Defined.

(* ================================================================= *)
(** ** The drawing of a parsed graph *)

Lemma fold_left_push {A B} (f : A -> list B) l : forall init,
  fold_left (fun acc x => acc ++ f x) l init = init ++ flat_map f l.
Proof.
  induction l as [|x l IH]; intros init; simpl.
  - rewrite app_nil_r. reflexivity.
  - rewrite IH, app_assoc. reflexivity.
Qed.

Lemma fold_left_push_map {A B} (f : A -> B) l : forall init,
  fold_left (fun acc x => push acc (f x)) l init = init ++ List.map f l.
Proof.
  induction l as [|x l IH]; intros init; simpl.
  - rewrite app_nil_r. reflexivity.
  - rewrite IH. unfold push. rewrite <- app_assoc. reflexivity.
Qed.

Lemma fold_left_push_filter {A B} (p : A -> bool) (f : A -> B) l : forall init,
  fold_left (fun acc x => if p x then push acc (f x) else acc) l init
  = init ++ List.map f (filter p l).
Proof.
  induction l as [|x l IH]; intros init; simpl.
  - rewrite app_nil_r. reflexivity.
  - rewrite IH. destruct (p x); [|reflexivity].
    unfold push. simpl. rewrite <- app_assoc. reflexivity.
Qed.


Lemma prepareGraphData_column_view data :
  prepareGraphData data true =
  {| GraphData.nodes :=
       flat_map (fun table => List.map (columnNode table) (Table.columns table))
                (Graph.tables data);
     GraphData.links :=
       List.map columnLink (filter linksColumns (Graph.relationships data)) |}.
Proof.
  unfold prepareGraphData. rewrite fold_left_push_filter. simpl. f_equal.
  rewrite <- (app_nil_l (flat_map _ _)).
  generalize (@nil Node.t). induction (Graph.tables data) as [|t l IH];
    intros init; simpl; [rewrite app_nil_r; reflexivity|].
  rewrite fold_left_push_map, IH, app_assoc. reflexivity.
Qed.





Lemma attached_identifier cols kv :
  Forall columnOK cols -> attached cols kv -> Table.columns (snd kv) <> [] ->
  Forall (fun x => isWord x = true) (fst kv).
Proof.
  intros Hcol Ha Hne. unfold attached in Ha.
  destruct (Table.columns (snd kv)) as [|tc l]; [contradiction|].
  inversion Ha as [|? ? (c & Hget & Hct & _) _]; subst.
  apply Map_get_In in Hget. rewrite Forall_forall in Hcol.
  destruct (Hcol _ Hget) as (_ & _ & _ & [_ Hw] & _). simpl in Hw.
  rewrite Hct in Hw. exact Hw.
Qed.

Lemma NoDup_map_injective {A B} (f : A -> B) l :
  (forall a b, f a = f b -> a = b) -> NoDup l -> NoDup (List.map f l).
Proof.
  intros Hinj. induction 1 as [|x l Hx Hl IH]; simpl; constructor; [|exact IH].
  intros Hin. apply in_map_iff in Hin. destruct Hin as (y & E & Hy).
  apply Hinj in E. subst y. exact (Hx Hy).
Qed.

Lemma column_nodes_distinct (tabs : Map.t Table.t) (cols : Map.t Column.t) :
  NoDup (keys tabs) -> Forall tableOK tabs -> Forall columnOK cols ->
  Forall (attached cols) tabs ->
  NoDup (List.map Node.id
           (flat_map (fun table => List.map (columnNode table) (Table.columns table))
                     (Map.values tabs))).
Proof.
  intros Hk Htab Hcol Hatt.
  induction tabs as [|[k t] tabs IH]; simpl; [constructor|].
  inversion Hk as [|? ? Hnotin Hk']; subst.
  inversion Htab as [|? ? (Hid & _ & _ & _ & Hnd) Htab']; subst.
  inversion Hatt as [|? ? Ha Hatt']; subst. simpl in *.
  rewrite map_app. apply NoDup_app.
  - rewrite map_map. cbn [columnNode Node.id]. rewrite Hid.
    rewrite <- (map_map TableColumn.name (fun n => k ++ lit "." ++ n)).
    apply NoDup_map_injective; [|exact Hnd].
    intros a b Hab. apply app_inv_head in Hab. apply app_inv_head in Hab. exact Hab.
  - apply IH; assumption.
  - intros id Hin1 Hin2.
    apply in_map_iff in Hin1. destruct Hin1 as (n1 & <- & Hn1).
    apply in_map_iff in Hn1. destruct Hn1 as (tc1 & <- & Htc1).
    apply in_map_iff in Hin2. destruct Hin2 as (n2 & E & Hn2).
    apply in_flat_map in Hn2. destruct Hn2 as (t2 & Ht2 & Hn2).
    apply in_map_iff in Hn2. destruct Hn2 as (tc2 & <- & Htc2).
    unfold Map.values in Ht2. apply in_map_iff in Ht2.
    destruct Ht2 as ([k2 t2'] & Et & Hin2). simpl in Et. subst t2'.
    cbn [columnNode Node.id] in E.
    rewrite Forall_forall in Htab', Hatt'.
    destruct (Htab' _ Hin2) as (Hid2 & _). simpl in Hid2.
    rewrite Hid, Hid2 in E.
    assert (Forall (fun x => isWord x = true) k) as Hw1.
    { apply (@attached_identifier cols (k, t) Hcol Ha). simpl.
      intros Hnil. rewrite Hnil in Htc1. exact Htc1. }
    assert (Forall (fun x => isWord x = true) k2) as Hw2.
    { apply (@attached_identifier cols (k2, t2) Hcol (Hatt' _ Hin2)). simpl.
      intros Hnil. rewrite Hnil in Htc2. exact Htc2. }
    destruct (column_id_unique _ _ Hw2 Hw1 E) as [Ek _].
    apply Hnotin. unfold keys. apply in_map_iff.
    eexists. split; [|exact Hin2]. simpl. congruence.
Qed.

(** X19. The column view of a parsed graph: no two nodes have the same id, and
    the node of a column listed under a table is a column of the graph, with
    the same id and name and with that table as its qualifier. *)
Theorem column_view_nodes_of_parsed_graph (s : str) (this : SQLParser) :
  exists g this',
    parseQuery (JSString s) this = (Ok g, this') /\
    let d := prepareGraphData g true in
    NoDup (List.map Node.id (GraphData.nodes d)) /\
    (forall n, In n (GraphData.nodes d) ->
       Node.type n = lit "column" /\
       exists c, In c (Graph.columns g) /\
                 Column.id c = Node.id n /\
                 Column.name c = Node.label n /\
                 Node.table n = Some (Column.table c)).
Proof.
  destruct (parseQuery_graph s this)
    as (this' & E & Ht & _ & Htab & Hcol & _ & Hatt & _).
  exists (graphOf this'), this'. split; [exact E|].
  cbv zeta. rewrite prepareGraphData_column_view.
  cbn [GraphData.nodes graphOf Graph.tables Graph.columns].
  split; [apply (column_nodes_distinct Ht Htab Hcol Hatt)|].
  intros n Hn. apply in_flat_map in Hn. destruct Hn as (t & Hin & Hn).
  apply in_map_iff in Hn. destruct Hn as (tc & <- & Htc).
  split; [reflexivity|].
  unfold Map.values in Hin. apply in_map_iff in Hin.
  destruct Hin as ([k t'] & Et & Hin). simpl in Et. subst t'.
  rewrite Forall_forall in Htab, Hatt, Hcol.
  destruct (Htab _ Hin) as (Hid & _). simpl in Hid.
  pose proof (Hatt _ Hin) as Ha. unfold attached in Ha.
  rewrite Forall_forall in Ha. destruct (Ha _ Htc) as (c & Hget & Hct & Hcn).
  simpl in *. apply Map_get_In in Hget.
  destruct (Hcol _ Hget) as (Hk & _). simpl in Hk.
  exists c. rewrite Hid, Hct, Hcn, Hk. split; [|auto].
  unfold Map.values. apply in_map_iff.
  exists (k ++ lit "." ++ TableColumn.name tc, c). auto.
Qed.


(* ================================================================= *)
(** ** The sample graph is not the graph of any text *)

(** X22. What the application draws, the graph of [generateSampleData], is not
    what [parseQuery] returns on any text: its relationships are of the kind
    [flow], which the parser never gives to a relationship. *)
Theorem generateSampleData_never_parsed (s : str) (this : SQLParser) :
  exists g this',
    parseQuery (JSString s) this = (Ok g, this') /\ g <> generateSampleData.
Proof.
  destruct (parseQuery_graph s this) as (this' & E & _ & _ & _ & _ & Hrel & _).
  exists (graphOf this'), this'. split; [exact E|]. intros Hg.
  apply (f_equal Graph.relationships) in Hg.
  cbn [graphOf Graph.relationships generateSampleData] in Hg.
  rewrite Hg in Hrel. inversion Hrel as [|r l (_ & Hkind) _]; subst.
  destruct Hkind as [(Hty & _)|(Hty & _)]; discriminate Hty.
Qed.

(* ================================================================= *)
(** ** What the CTE pass does to the instance *)










(* ================================================================= *)
(** ** A condition that is not an equality adds nothing *)

Lemma noEquality_snoc p rest : forall before prev,
  isWord p || isSpace p = true ->
  noEquality prev (before ++ p :: chr "=" :: rest) = false.
Proof.
  induction before as [|x before IH]; intros prev Hp.
  - cbn [app noEquality]. rewrite N.eqb_refl, Hp. cbn [negb andb].
    apply andb_false_r.
  - cbn [app noEquality]. rewrite (IH (Some x) Hp). apply andb_false_r.
Qed.

Lemma noEquality_without s : forall prev,
  includes (chr "=") s = false -> noEquality prev s = true.
Proof.
  induction s as [|x s IH]; intros prev H; [reflexivity|].
  unfold includes in H. cbn [existsb] in H.
  apply orb_false_iff in H. destruct H as [Hx Hs].
  cbn [noEquality]. rewrite N.eqb_sym, Hx, (IH _ Hs). reflexivity.
Qed.

Lemma conditionPattern_source :
  source conditionPattern =
  Seq (Group 1 (Plus word))
    (Seq (Atom (Chr (chr ".")))
       (Seq (Group 2 (Plus word))
          (Seq (Star true space)
             (Seq (Atom (Chr (chr "=")))
                (Seq (Star true space)
                   (Seq (Group 3 (Plus word))
                      (Seq (Atom (Chr (chr "."))) (Group 4 (Plus word))))))))).
Proof. reflexivity. Qed.

(** A match of [conditionPattern] holds an equals sign that directly
    follows a word character or white space. *)
Lemma match_at_conditionPattern s i m :
  match_at conditionPattern s i = Some m ->
  exists before p rest,
    s = before ++ p :: chr "=" :: rest /\ isWord p || isSpace p = true.
Proof.
  unfold match_at. rewrite conditionPattern_source.
  change (ignoreCase conditionPattern) with true.
  change (multiline conditionPattern) with false.
  destruct (mtch _ _ _ s i [] (fun _ e c => Some (e, c))) as [[e cf]|] eqn:E;
    [|discriminate].
  intros _. cbn [mtch] in E.
  apply mtch_captures in E.
  destruct E as (n1 & c1 & _ & _ & E & _ & _). cbv beta in E.
  destruct (skipn n1 s) as [|dot s1] eqn:Hs1; [discriminate E|].
  cbn [mtch] in E.
  destruct (atom_match true (Chr (chr ".")) dot); [|discriminate E].
  apply mtch_captures in E.
  destruct E as (n2 & c2 & Hn2 & Hmin & E & Hw & _). cbv beta in E.
  cbn [mtch] in E. apply star_greedy_consumes in E.
  destruct E as (n3 & Hn3 & E & Hsp).
  destruct (skipn n3 (skipn n2 s1)) as [|eq rest] eqn:Hs3; [discriminate E|].
  cbn [mtch] in E.
  destruct (atom_match true (Chr (chr "=")) eq) eqn:Heq; [|discriminate E].
  assert (eq = chr "=") as ->.
  { cbn in Heq. apply N.eqb_eq in Heq.
    unfold canonicalize in Heq.
    destruct ((97 <=? eq)%N && (eq <=? 122)%N) eqn:Hl; [|exact Heq].
    apply andb_true_iff in Hl. destruct Hl as [H1 H2].
    apply N.leb_le in H1, H2. cbn in Heq. lia. }
  set (w := firstn n2 s1) in *. set (sp := firstn n3 (skipn n2 s1)) in *.
  assert (s1 = w ++ sp ++ chr "=" :: rest) as Hs.
  { subst w sp. rewrite <- Hs3, firstn_skipn, firstn_skipn. reflexivity. }
  assert (w <> []) as Hne.
  { subst w. cbn in Hmin. destruct s1; [simpl in Hn2; lia|].
    destruct n2; [lia | discriminate]. }
  assert (Forall (fun x => isWord x || isSpace x = true) (w ++ sp)) as Hall.
  { apply Forall_app. split.
    - eapply Forall_impl; [|exact Hw]. intros x Hx. cbn in Hx.
      rewrite orb_diag in Hx. rewrite Hx. reflexivity.
    - eapply Forall_impl; [|exact Hsp]. intros x Hx. cbn in Hx.
      rewrite Hx. apply orb_true_r. }
  destruct (@exists_last _ (w ++ sp)) as (l & p & El).
  { destruct w; [contradiction | discriminate]. }
  exists (firstn n1 s ++ dot :: l), p, rest. split.
  - rewrite <- (firstn_skipn n1 s) at 1. rewrite Hs1, Hs.
    rewrite (app_assoc w), El, <- !app_assoc. reflexivity.
  - rewrite El in Hall. apply Forall_app in Hall. destruct Hall as [_ Hp].
    inversion Hp; assumption.
Qed.

Lemma scan_no_match re : forall s,
  (forall n i, match_at re (skipn n s) i = None) ->
  forall i skip, scan re s i skip = Some [].
Proof.
  induction s as [|x s IH]; intros Hno i skip.
  - destruct skip; simpl; [|reflexivity].
    pose proof (Hno 0 i) as H0. cbn [skipn] in H0. rewrite H0. reflexivity.
  - assert (forall n j, match_at re (skipn n s) j = None) as Hno'
      by (intros n j; apply (Hno (S n) j)).
    destruct skip; simpl; [|apply IH, Hno'].
    pose proof (Hno 0 i) as H0. cbn [skipn] in H0. rewrite H0. apply IH, Hno'.
Qed.

(** A condition in which no equals sign follows a word character or white
    space adds no relationship. *)
Lemma parseJoinCondition_skips_operators condition this :
  noEquality None condition = true ->
  parseJoinCondition condition this = (Ok tt, this).
Proof.
  intros H. unfold parseJoinCondition, loopMatches, execLoop, bind.
  rewrite scan_no_match; [reflexivity|].
  intros n i. destruct (match_at conditionPattern (skipn n condition) i) eqn:E;
    [|reflexivity].
  apply match_at_conditionPattern in E.
  destruct E as (before & p & rest & Es & Hp).
  rewrite <- (firstn_skipn n condition), Es, app_assoc in H.
  rewrite noEquality_snoc in H by exact Hp. discriminate H.
Qed.

(** C6, amended. On every string [parseQuery] returns a graph: no error is
    thrown, no loop runs forever and the recursion through the CTE bodies
    ends.  What the passes skip adds nothing: a segment of the FROM list
    with a parenthesis registers no table, an item of the SELECT list with
    a parenthesis registers no column, and a join condition that is not an
    equality adds no relationship, be it without an equals sign or with
    equals signs that all directly follow a character that is neither a
    word character nor white space, as in [<=], [>=] and [!=].  The empty
    text yields the empty graph, and so does every text in which no pass
    finds its pattern, and so do the texts [FROM (SELECT 1) t] and
    [SELECT COUNT( * ) FROM (SELECT 1) t]. *)
Theorem parseQuery_returns (s : str) (this : SQLParser) :
  (exists g this', parseQuery (JSString s) this = (Ok g, this')) /\
  (forall part, includes (chr "(") (trim part) = true ->
     extractTable part this = (Ok tt, this)) /\
  (forall col, includes (chr "(") (trim col) = true ->
     parseSelectColumn col this = (Ok tt, this)) /\
  (forall condition, includes (chr "=") condition = false ->
     parseJoinCondition condition this = (Ok tt, this)) /\
  (forall condition, noEquality None condition = true ->
     parseJoinCondition condition this = (Ok tt, this)) /\
  parseQuery (JSString []) this = (Ok Graph.empty, constructor) /\
  (forall q,
     q = trim (replaceG whitespace (lit " ")
                 (replaceG blockComment [] (replaceG lineComment [] s))) ->
     matchG fromPattern q = [] -> execLoop joinPattern q = Some [] ->
     exec selectPattern q = None -> exec withPattern q = None ->
     parseQuery (JSString s) this = (Ok Graph.empty, constructor)) /\
  parseQuery (JSString (lit "FROM (SELECT 1) t")) this
  = (Ok Graph.empty, constructor) /\
  parseQuery (JSString (lit "SELECT COUNT(*) FROM (SELECT 1) t")) this
  = (Ok Graph.empty, constructor).
Proof.
  split; [apply parseQuery_fuel_enough; simpl; lia|].
  split; [intros part; apply extractTable_skips_subquery|].
  split; [intros col; apply parseSelectColumn_skips_call|].
  split; [intros condition; apply parseJoinCondition_skips_inequality|].
  split; [intros condition; apply parseJoinCondition_skips_operators|].
  split; [reflexivity|].
  split; [intros q ->; apply parseQuery_nothing_recognized|].
  split; vm_compute; reflexivity.
Qed.

Lemma parseQuery_returns_witness :
  (exists g this',
     parseQuery (JSString cteQuery_example) constructor = (Ok g, this')) /\
  extractTable (lit " (SELECT 1) t") constructor = (Ok tt, constructor) /\
  parseSelectColumn (lit "SUM(t.amount) AS total") constructor
  = (Ok tt, constructor) /\
  parseJoinCondition (lit "b.k < c.k") constructor = (Ok tt, constructor) /\
  parseJoinCondition (lit "b.k <= c.k") constructor = (Ok tt, constructor) /\
  parseJoinCondition (lit "b.k>=c.k AND b.j != c.j") constructor
  = (Ok tt, constructor) /\
  parseQuery (JSString (lit "DELETE everything -- now")) constructor
  = (Ok Graph.empty, constructor).
Proof.
  pose proof (parseQuery_returns cteQuery_example constructor)
    as (Hret & Hfrom & Hselect & Hjoin & Hoperator & _).
  pose proof (parseQuery_returns (lit "DELETE everything -- now") constructor)
    as (_ & _ & _ & _ & _ & _ & Hnone & _).
  split; [exact Hret|].
  split; [apply Hfrom; reflexivity|].
  split; [apply Hselect; reflexivity|].
  split; [apply Hjoin; reflexivity|].
  split; [apply Hoperator; reflexivity|].
  split; [apply Hoperator; reflexivity|].
  apply (Hnone _ eq_refl); reflexivity.
Defined.

(* ================================================================= *)
(** ** Only the words of a text without comment matter *)

Lemma words_go_collapse : forall t,
  (forall current, words_go (collapse false t) current = words_go t current) /\
  words_go (collapse true t) [] = words_go t [].
Proof.
  induction t as [|x t [IH1 IH2]]; [split; reflexivity|].
  split.
  - intros current. cbn [collapse words_go]. destruct (isSpace x) eqn:Hx.
    + cbn [words_go]. change (isSpace (chr " ")) with true. cbv iota.
      rewrite IH2. reflexivity.
    + cbn [words_go]. rewrite Hx. apply IH1.
  - cbn [collapse words_go]. destruct (isSpace x) eqn:Hx.
    + exact IH2.
    + cbn [words_go]. rewrite Hx. apply IH1.
Qed.

Lemma words_trimStart t : words (trimStart t) = words t.
Proof.
  unfold words. induction t as [|x t IH]; [reflexivity|].
  cbn [trimStart words_go]. destruct (isSpace x) eqn:Hx; [exact IH|].
  cbn [words_go]. rewrite Hx. reflexivity.
Qed.

Lemma words_go_spaces sp : forall current,
  Forall (fun x => isSpace x = true) sp ->
  words_go sp current = if isEmpty current then [] else [current].
Proof.
  induction sp as [|x sp IH]; intros current H; [reflexivity|].
  inversion H; subst. cbn [words_go]. rewrite H2.
  rewrite (IH [] H3). reflexivity.
Qed.

Lemma words_go_app_spaces sp : 
  Forall (fun x => isSpace x = true) sp ->
  forall l current, words_go (l ++ sp) current = words_go l current.
Proof.
  intros Hsp. induction l as [|x l IH]; intros current.
  - simpl. apply words_go_spaces, Hsp.
  - cbn [app words_go]. rewrite !IH. reflexivity.
Qed.

Lemma trimStart_spaces s :
  exists a, s = a ++ trimStart s /\ Forall (fun x => isSpace x = true) a.
Proof.
  induction s as [|x s (a & IH & Ha)]; simpl.
  - exists []. split; [reflexivity | constructor].
  - destruct (isSpace x) eqn:Hx.
    + exists (x :: a). split; [simpl; rewrite <- IH; reflexivity|].
      constructor; assumption.
    + exists []. split; [reflexivity | constructor].
Qed.

Lemma words_trim t : words (trim t) = words t.
Proof.
  rewrite <- (words_trimStart t). unfold trim.
  set (u := trimStart t).
  destruct (trimStart_spaces (rev u)) as (a & Ha & Hsp).
  assert (u = trimEnd u ++ rev a) as Hu.
  { unfold trimEnd. rewrite <- rev_app_distr, <- Ha, rev_involutive. reflexivity. }
  rewrite Hu at 2. unfold words. rewrite words_go_app_spaces; [reflexivity|].
  apply Forall_rev, Hsp.
Qed.

Lemma words_go_nonempty s : forall current,
  current <> [] -> words_go s current <> [].
Proof.
  induction s as [|x s IH]; intros current Hc; cbn [words_go].
  - destruct current; [contradiction | discriminate].
  - destruct (isSpace x).
    + destruct current; [contradiction | discriminate].
    + apply IH. destruct current; discriminate.
Qed.

Lemma startsWithSpace_app l r :
  l <> [] -> startsWithSpace (l ++ r) = startsWithSpace l.
Proof. destruct l; [contradiction | reflexivity]. Qed.

Lemma unwords_words_go : forall q current,
  Forall (fun x => isSpace x = true -> x = chr " ") q ->
  singleSpaced q = true ->
  startsWithSpace (rev q) = false ->
  (current = [] -> startsWithSpace q = false) ->
  unwords (words_go q current) = current ++ q.
Proof.
  induction q as [|x q IH]; intros current Hsp Hss Hend Hstart.
  - cbn [words_go]. rewrite app_nil_r. destruct current; reflexivity.
  - inversion Hsp as [|? ? Hx Hsp']; subst.
    pose proof (singleSpaced_tail _ _ Hss) as Hss'.
    assert (q <> [] -> startsWithSpace (rev q) = false) as Hend'.
    { intros Hq. cbn [rev] in Hend. rewrite startsWithSpace_app in Hend;
        [exact Hend|].
      intros E. apply Hq. apply (f_equal (@rev char)) in E.
      rewrite rev_involutive in E. exact E. }
    cbn [words_go]. destruct (isSpace x) eqn:Ex.
    + rewrite (Hx eq_refl).
      assert (current <> []) as Hc.
      { intros ->. specialize (Hstart eq_refl). simpl in Hstart. congruence. }
      destruct q as [|y q].
      { simpl in Hend. congruence. }
      assert (isSpace y = false) as Hy.
      { cbn [singleSpaced] in Hss. rewrite Ex in Hss.
        destruct (isSpace y); [discriminate Hss | reflexivity]. }
      assert (unwords (words_go (y :: q) []) = y :: q) as Hrest.
      { apply (IH []); [assumption | assumption | | intros _; exact Hy].
        apply Hend'. discriminate. }
      destruct current as [|c0 current]; [contradiction|]. cbn [isEmpty].
      pose proof (@words_go_nonempty q [y]) as Hne.
      cbn [unwords].
      destruct (words_go (y :: q) []) as [|w ws] eqn:Ew.
      { cbn [words_go] in Ew. rewrite Hy in Ew. simpl in Ew.
        exfalso. apply Hne; [discriminate | exact Ew]. }
      rewrite Hrest. reflexivity.
    + rewrite IH; [rewrite <- app_assoc; reflexivity | assumption | assumption | |].
      * destruct q as [|y q]; [reflexivity | apply Hend'; discriminate].
      * intros E. destruct current; discriminate E.
Qed.

Lemma unwords_words q : normalized q -> unwords (words q) = q.
Proof.
  intros (Hsp & Hss & Hstart & Hend). unfold words.
  rewrite unwords_words_go; auto.
Qed.

(** Two texts that clean to the same text have the same graph. *)
Lemma parseQuery_cleaned s1 s2 this1 this2 :
  fst (cleanQuery (JSString s1) this1) = fst (cleanQuery (JSString s2) this2) ->
  parseQuery (JSString s1) this1 = parseQuery (JSString s2) this2.
Proof.
  intros H. simpl in H. injection H as H.
  rewrite <- (parseQuery_two_calls s1 this1).
  rewrite <- (parseQuery_two_calls s2 this2).
  change (parseQuery_fuel 2) with (parseQuery_body (parseQuery_fuel 1)).
  unfold parseQuery_body, cleanQuery. unfold bind at 1 3. unfold ret.
  rewrite H. reflexivity.
Qed.

(** The cleaned text of a text without hyphen and slash is its words,
    joined by single spaces. *)
Lemma cleanQuery_words s this :
  includes (chr "-") s = false -> includes (chr "/") s = false ->
  cleanQuery (JSString s) this = (Ok (unwords (words s)), this).
Proof.
  intros Hd Hsl. unfold cleanQuery, ret. f_equal. f_equal.
  rewrite <- (unwords_words (cleaned_normalized s)). f_equal.
  unfold replaceG at 3. rewrite (@replace_go_requires lineComment (chr "-"));
    [|reflexivity | exact Hd].
  unfold replaceG at 2. rewrite (@replace_go_requires blockComment (chr "/"));
    [|reflexivity | exact Hsl].
  rewrite replaceG_whitespace, words_trim. unfold words.
  apply words_go_collapse.
Qed.

(** X17. In a text without hyphen and slash, and so without comment, only
    the words matter: two such texts with the same words, the maximal runs
    of characters that are not white space, have the same graph and leave
    the parser in the same state, whatever blanks, tabs and line ends
    separate the words and whatever the states before. *)
Theorem parseQuery_layout_independent (s1 s2 : str) (this1 this2 : SQLParser) :
  includes (chr "-") s1 = false -> includes (chr "/") s1 = false ->
  includes (chr "-") s2 = false -> includes (chr "/") s2 = false ->
  words s1 = words s2 ->
  parseQuery (JSString s1) this1 = parseQuery (JSString s2) this2.
Proof.
  intros Hd1 Hs1 Hd2 Hs2 Hw. apply parseQuery_cleaned.
  rewrite (@cleanQuery_words s1 this1 Hd1 Hs1), (@cleanQuery_words s2 this2 Hd2 Hs2).
  rewrite Hw. reflexivity.
Qed.

Lemma parseQuery_layout_independent_witness :
  parseQuery
    (JSString (lit "  SELECT  a.b" ++ [10%N; 9%N] ++ lit "FROM   x "))
    constructor
  = parseQuery (JSString (lit "SELECT a.b FROM x")) constructor.
Proof.
  apply (@parseQuery_layout_independent
           (lit "  SELECT  a.b" ++ [10%N; 9%N] ++ lit "FROM   x ")
           (lit "SELECT a.b FROM x") constructor constructor);
    reflexivity.
Defined.

(* ================================================================= *)
(** ** The label of a node *)

(** X21. In the table view a label of more than 20 characters is drawn as its
    first 20 characters followed by three dots, so the text drawn has 23
    characters and starts as the label does; a label of 21 or 22 characters
    is drawn longer than it is.  A label of at most 20 characters is drawn
    as it is, and so is every label in the column view. *)
Theorem getNodeLabel_length (d : Node.t) :
  List.length (getNodeLabel false d) =
    (if Nat.ltb 20 (List.length (Node.label d)) then 23
     else List.length (Node.label d)) /\
  firstn 20 (getNodeLabel false d) = firstn 20 (Node.label d) /\
  skipn 20 (getNodeLabel false d) =
    (if Nat.ltb 20 (List.length (Node.label d))
     then [chr "."; chr "."; chr "."] else []) /\
  getNodeLabel false d =
    (if Nat.ltb 20 (List.length (Node.label d))
     then firstn 20 (Node.label d) ++ [chr "."; chr "."; chr "."]
     else Node.label d) /\
  getNodeLabel true d = Node.label d.
Proof.
  unfold getNodeLabel.
  destruct (Nat.ltb 20 (List.length (Node.label d))) eqn:E.
  - apply Nat.ltb_lt in E. split; [|split; [|split; [|split; reflexivity]]].
    + rewrite length_app, length_firstn, Nat.min_l by lia. reflexivity.
    + rewrite firstn_app, firstn_firstn, length_firstn.
      rewrite (Nat.min_l 20 (List.length (Node.label d))) by lia.
      rewrite Nat.sub_diag. apply app_nil_r.
    + rewrite skipn_app, length_firstn.
      rewrite (Nat.min_l 20 (List.length (Node.label d))) by lia.
      rewrite Nat.sub_diag, skipn_all2; [reflexivity|].
      rewrite length_firstn. lia.
  - apply Nat.ltb_ge in E. split; [reflexivity|]. split; [reflexivity|].
    split; [apply skipn_all2; exact E|]. split; reflexivity.
Qed.
